(** * LevelDB sorted-string-table stack: a shallow embedding

    The development follows the sources
    - [table/merger.cc]              (module [Merger])
    - [table/two_level_iterator.cc]  (module [TwoLevel])
    - [table/filter_block.{h,cc}]    (modules [FilterBlockBuilder], [FilterBlockReader])
    - [table/block_builder.h]        (module [BlockBuilder])
    - [table/table_builder.cc]       (module [TableBuilder])
    - [util/arena.{h,cc}]            (module [ArenaAlloc])

    Byte strings ([Slice], [std::string]) are lists of bytes, machine
    integers are [Z] with their wrap-around written out, pointers into an
    array are indices, pointers into memory are addresses.  A function that
    asserts returns an [option]: [None] is the failed assertion.  The
    plug-in strategies of the code (comparator, filter policy, writable
    file, compressor, free store) are type classes. *)

From Stdlib Require Import ZArith Lia Strings.Byte String.
From stdpp Require Import base option list numbers sorting.

Local Open Scope Z_scope.

(** ** Bytes, slices, status *)

Definition Slice := list byte.

Definition byte_to_Z (b : byte) : Z := Z.of_N (Byte.to_N b).

Definition byte_of_Z (z : Z) : byte :=
  match Byte.of_N (Z.to_N (z mod 256)) with
  | Some b => b
  | None => Byte.x00
  end.

(** The bytes of a string literal. *)
Definition bs (s : string) : Slice := list_byte_of_string s.

(** [size()] of a string or slice, as a [size_t] read as an integer. *)
Definition size (s : Slice) : Z := Z.of_nat (length s).

(** [leveldb::Status]: the code only inspects [ok()]. *)
Inductive Status :=
| OK
| NotFound (msg : string)
| Corruption (msg : string)
| NotSupported (msg : string)
| InvalidArgument (msg : string)
| IOError (msg : string).

Definition ok (s : Status) : bool :=
  match s with OK => true | _ => false end.

(** ** The comparator strategy ([leveldb/comparator.h]) *)

Class Comparator := {
  Compare : Slice → Slice → Z;
  FindShortestSeparator : Slice → Slice → Slice;
  FindShortSuccessor : Slice → Slice
}.

(** A comparator orders keys totally: comparing the other way round flips
    the sign, and [<=] composes. *)
Class ComparatorOrder (cmp : Comparator) : Prop := {
  Compare_flip : ∀ a b, Z.sgn (Compare b a) = - Z.sgn (Compare a b);
  Compare_trans : ∀ a b c, Compare a b <= 0 → Compare b c <= 0 → Compare a c <= 0
}.

(** Lexicographic comparison of raw bytes, as [Slice::compare] does it. *)
Fixpoint bytes_compare (a b : Slice) : Z :=
  match a, b with
  | [], [] => 0
  | [], _ :: _ => -1
  | _ :: _, [] => 1
  | x :: a', y :: b' =>
      if byte_to_Z x <? byte_to_Z y then -1
      else if byte_to_Z y <? byte_to_Z x then 1
      else bytes_compare a' b'
  end.

(** Modelled from the spec: the bytewise comparator ([util/comparator.cc] is
    not part of the sources at hand).  Its two shortening hints "may return
    [a] unchanged"; this instance does so. *)
Definition PlainBytewise : Comparator := {|
  Compare := bytes_compare;
  FindShortestSeparator := λ start _, start;
  FindShortSuccessor := λ key, key
|}.

(** ** Iterators *)

Module Iter.

(** Modelled from the spec: the [Iterator] capability set
    [{Valid, SeekToFirst, SeekToLast, Seek, Next, Prev, key, value, status}]
    ([leveldb/iterator.h] is not part of the sources at hand), realised as a
    cursor over a finite sequence of key/value pairs.  A position at or past
    the end is the invalid cursor. *)
Record t := mk {
  entries : list (Slice * Slice);
  pos : nat;
  st : Status
}.

Definition Valid (it : t) : bool := bool_decide (pos it < length (entries it))%nat.

Definition key (it : t) : Slice :=
  match entries it !! pos it with Some (k, _) => k | None => [] end.

Definition value (it : t) : Slice :=
  match entries it !! pos it with Some (_, v) => v | None => [] end.

Definition status (it : t) : Status := st it.

Definition SeekToFirst (it : t) : t := mk (entries it) 0 (st it).

Definition SeekToLast (it : t) : t := mk (entries it) (length (entries it) - 1) (st it).

(** Index of the first entry whose key is at or past [target]. *)
Fixpoint lower_bound `{Comparator} (target : Slice) (l : list (Slice * Slice)) : nat :=
  match l with
  | [] => 0
  | (k, _) :: l' => if Compare k target <? 0 then S (lower_bound target l') else 0%nat
  end.

Definition Seek `{Comparator} (target : Slice) (it : t) : t :=
  mk (entries it) (lower_bound target (entries it)) (st it).

Definition Next (it : t) : t := mk (entries it) (S (pos it)) (st it).

Definition Prev (it : t) : t :=
  match pos it with
  | O => mk (entries it) (length (entries it)) (st it)
  | S p => mk (entries it) p (st it)
  end.

(** What a forward scan from the current position still has to visit. *)
Definition remaining (it : t) : list (Slice * Slice) := drop (pos it) (entries it).

(** A caller's loop [for (; it->Valid(); it->Next())] collecting
    [(key, value)]; [fuel] bounds the number of rounds. *)
Fixpoint scan_forward (fuel : nat) (it : t) : option (list (Slice * Slice)) :=
  if Valid it then
    match fuel with
    | O => None
    | S fuel' => out ← scan_forward fuel' (Next it); Some ((key it, value it) :: out)
    end
  else Some [].

(** [NewEmptyIterator()]: nothing to visit, status ok. *)
Definition NewEmptyIterator : t := mk [] 0 OK.

End Iter.

Module IteratorWrapper.

(** Modelled from the spec: the "child wrapper" around an [Iterator*]
    ([table/iterator_wrapper.h] is not part of the sources at hand).  A null
    pointer is [None]; every call is forwarded to the wrapped iterator, and a
    wrapper around no iterator is not valid. *)
Record t := mk { iter : option Iter.t }.

Definition Set_ (it : option Iter.t) : t := mk it.

Definition Valid (w : t) : bool :=
  match iter w with Some it => Iter.Valid it | None => false end.

Definition key (w : t) : Slice :=
  match iter w with Some it => Iter.key it | None => [] end.

Definition value (w : t) : Slice :=
  match iter w with Some it => Iter.value it | None => [] end.

Definition status (w : t) : Status :=
  match iter w with Some it => Iter.status it | None => OK end.

Definition SeekToFirst (w : t) : t := mk (Iter.SeekToFirst <$> iter w).
Definition SeekToLast (w : t) : t := mk (Iter.SeekToLast <$> iter w).
Definition Seek `{Comparator} (target : Slice) (w : t) : t := mk (Iter.Seek target <$> iter w).
Definition Next (w : t) : t := mk (Iter.Next <$> iter w).
Definition Prev (w : t) : t := mk (Iter.Prev <$> iter w).

Definition remaining (w : t) : list (Slice * Slice) :=
  match iter w with Some it => Iter.remaining it | None => [] end.

Definition entries (w : t) : list (Slice * Slice) :=
  match iter w with Some it => Iter.entries it | None => [] end.

End IteratorWrapper.

(** ** [table/merger.cc] *)

Module Merger.
Section WithComparator.
Context {comparator_ : Comparator}.

Inductive Direction := kForward | kReverse.

(** [current_] points into [children_]; it is kept as the index of the child
    it points to. [n_] is the length of [children_]. *)
Record MergingIterator := mk {
  children_ : list IteratorWrapper.t;
  current_ : option nat;
  direction_ : Direction
}.

Definition n_ (m : MergingIterator) : nat := length (children_ m).

Definition child_at (cs : list IteratorWrapper.t) (i : nat) : IteratorWrapper.t :=
  default (IteratorWrapper.mk None) (cs !! i).

Definition Valid (m : MergingIterator) : bool :=
  match current_ m with Some _ => true | None => false end.

(** One round of the loop of [FindSmallest], at child [i]. *)
Definition smallest_step (cs : list IteratorWrapper.t) (smallest : option nat) (i : nat)
  : option nat :=
  let child := child_at cs i in
  if IteratorWrapper.Valid child then
    match smallest with
    | None => Some i
    | Some s =>
        if Compare (IteratorWrapper.key child) (IteratorWrapper.key (child_at cs s)) <? 0
        then Some i else smallest
    end
  else smallest.

(** [for (int i = 0; i < n_; i++)] *)
Definition FindSmallest_in (cs : list IteratorWrapper.t) : option nat :=
  foldl (smallest_step cs) None (seq 0 (length cs)).

Definition largest_step (cs : list IteratorWrapper.t) (largest : option nat) (i : nat)
  : option nat :=
  let child := child_at cs i in
  if IteratorWrapper.Valid child then
    match largest with
    | None => Some i
    | Some s =>
        if 0 <? Compare (IteratorWrapper.key child) (IteratorWrapper.key (child_at cs s))
        then Some i else largest
    end
  else largest.

(** [for (int i = n_ - 1; i >= 0; i--)] *)
Definition FindLargest_in (cs : list IteratorWrapper.t) : option nat :=
  foldl (largest_step cs) None (reverse (seq 0 (length cs))).

Definition FindSmallest (m : MergingIterator) : MergingIterator :=
  mk (children_ m) (FindSmallest_in (children_ m)) (direction_ m).

Definition FindLargest (m : MergingIterator) : MergingIterator :=
  mk (children_ m) (FindLargest_in (children_ m)) (direction_ m).

Definition set_direction (d : Direction) (m : MergingIterator) : MergingIterator :=
  mk (children_ m) (current_ m) d.

Definition SeekToFirst (m : MergingIterator) : MergingIterator :=
  let m1 := mk (IteratorWrapper.SeekToFirst <$> children_ m) (current_ m) (direction_ m) in
  set_direction kForward (FindSmallest m1).

Definition SeekToLast (m : MergingIterator) : MergingIterator :=
  let m1 := mk (IteratorWrapper.SeekToLast <$> children_ m) (current_ m) (direction_ m) in
  set_direction kReverse (FindLargest m1).

Definition Seek (target : Slice) (m : MergingIterator) : MergingIterator :=
  let m1 := mk (IteratorWrapper.Seek target <$> children_ m) (current_ m) (direction_ m) in
  set_direction kForward (FindSmallest m1).

(** [key()] and [value()] assert [Valid()]. *)
Definition key (m : MergingIterator) : option Slice :=
  match current_ m with
  | Some c => Some (IteratorWrapper.key (child_at (children_ m) c))
  | None => None
  end.

Definition value (m : MergingIterator) : option Slice :=
  match current_ m with
  | Some c => Some (IteratorWrapper.value (child_at (children_ m) c))
  | None => None
  end.

(** The repositioning of the children other than [current_] when [Next] is
    called on an iterator that was moving backwards. *)
Definition reposition_forward (c : nat) (k : Slice) (cs : list IteratorWrapper.t)
  : list IteratorWrapper.t :=
  imap (λ i child,
          if decide (i = c) then child
          else
            let child1 := IteratorWrapper.Seek k child in
            if IteratorWrapper.Valid child1 && (Compare k (IteratorWrapper.key child1) =? 0)
            then IteratorWrapper.Next child1 else child1) cs.

Definition reposition_backward (c : nat) (k : Slice) (cs : list IteratorWrapper.t)
  : list IteratorWrapper.t :=
  imap (λ i child,
          if decide (i = c) then child
          else
            let child1 := IteratorWrapper.Seek k child in
            if IteratorWrapper.Valid child1
            then IteratorWrapper.Prev child1
            else IteratorWrapper.SeekToLast child1) cs.

(** [Next] and [Prev] assert [Valid()]: on an invalid iterator they yield
    nothing. *)
Definition Next (m : MergingIterator) : option MergingIterator :=
  match current_ m with
  | None => None
  | Some c =>
      let k := IteratorWrapper.key (child_at (children_ m) c) in
      let cs1 :=
        match direction_ m with
        | kForward => children_ m
        | kReverse => reposition_forward c k (children_ m)
        end in
      let cs2 := alter IteratorWrapper.Next c cs1 in
      Some (FindSmallest (mk cs2 (Some c) kForward))
  end.

Definition Prev (m : MergingIterator) : option MergingIterator :=
  match current_ m with
  | None => None
  | Some c =>
      let k := IteratorWrapper.key (child_at (children_ m) c) in
      let cs1 :=
        match direction_ m with
        | kReverse => children_ m
        | kForward => reposition_backward c k (children_ m)
        end in
      let cs2 := alter IteratorWrapper.Prev c cs1 in
      Some (FindLargest (mk cs2 (Some c) kReverse))
  end.

(** [status()] surfaces the first non-ok child status. *)
Definition status (m : MergingIterator) : Status :=
  foldl (λ s child, if ok s then IteratorWrapper.status child else s) OK (children_ m).

(** The constructor: every wrapper is set to its child, nothing is current. *)
Definition new (children : list Iter.t) : MergingIterator :=
  mk ((λ c, IteratorWrapper.Set_ (Some c)) <$> children) None kForward.

(** A caller's loop [for (it->SeekToFirst(); it->Valid(); it->Next())]
    collecting [(key, value)]; [fuel] bounds the number of rounds. *)
Fixpoint scan_forward (fuel : nat) (m : MergingIterator) : option (list (Slice * Slice)) :=
  if Valid m then
    match fuel with
    | O => None
    | S fuel' =>
        k ← key m;
        v ← value m;
        m' ← Next m;
        out ← scan_forward fuel' m';
        Some ((k, v) :: out)
    end
  else Some [].

Definition full_forward_scan (fuel : nat) (m : MergingIterator) : option (list (Slice * Slice)) :=
  scan_forward fuel (SeekToFirst m).

(** What [NewMergingIterator] returns: an empty iterator for no child, the
    child itself for one, a [MergingIterator] otherwise. *)
Inductive merged :=
| NoChild (empty : Iter.t)
| OneChild (child : Iter.t)
| Several (m : MergingIterator).

Definition NewMergingIterator (children : list Iter.t) : merged :=
  match children with
  | [] => NoChild Iter.NewEmptyIterator
  | [child] => OneChild child
  | _ => Several (new children)
  end.

Definition merged_forward_scan (fuel : nat) (it : merged) : option (list (Slice * Slice)) :=
  match it with
  | NoChild it | OneChild it => Iter.scan_forward fuel (Iter.SeekToFirst it)
  | Several m => full_forward_scan fuel m
  end.

(** Order on entries induced by the comparator on their keys. *)
Definition key_le (a b : Slice * Slice) : Prop := Compare a.1 b.1 <= 0.

(** Everything the children still have to deliver, child after child. *)
Definition all_remaining (cs : list IteratorWrapper.t) : list (Slice * Slice) :=
  concat (IteratorWrapper.remaining <$> cs).

(** The contents of all children: their multiset concatenation. *)
Definition all_entries (cs : list IteratorWrapper.t) : list (Slice * Slice) :=
  concat (IteratorWrapper.entries <$> cs).

End WithComparator.

Section Facts.
Context {comparator_ : Comparator} {order_ : ComparatorOrder comparator_}.

Lemma Compare_refl a : Compare a a = 0.
Proof.
  pose proof (Compare_flip a a) as H.
  destruct (Compare a a); simpl in H; try reflexivity; discriminate.
Qed.

Lemma Compare_ge_flip a b : ¬ (Compare a b < 0) → Compare b a <= 0.
Proof.
  intros Hge. pose proof (Compare_flip a b) as H.
  destruct (Compare a b), (Compare b a); simpl in H; try discriminate; lia.
Qed.

#[local] Instance key_le_trans : Transitive key_le.
Proof. intros a b c. unfold key_le. apply Compare_trans. Qed.

Lemma valid_remaining w :
  IteratorWrapper.Valid w = true →
  IteratorWrapper.remaining w =
    (IteratorWrapper.key w, IteratorWrapper.value w)
      :: IteratorWrapper.remaining (IteratorWrapper.Next w).
Proof.
  destruct w as [[it|]]; [|discriminate].
  unfold IteratorWrapper.Valid, IteratorWrapper.remaining, IteratorWrapper.key,
    IteratorWrapper.value, Iter.Valid, Iter.remaining, Iter.key, Iter.value; simpl.
  intros Hv. apply bool_decide_eq_true in Hv.
  destruct (lookup_lt_is_Some_2 _ _ Hv) as [[k v] Hkv].
  rewrite Hkv. by apply drop_S.
Qed.

Lemma invalid_remaining w :
  IteratorWrapper.Valid w = false → IteratorWrapper.remaining w = [].
Proof.
  destruct w as [[it|]]; [|reflexivity].
  unfold IteratorWrapper.Valid, IteratorWrapper.remaining, Iter.Valid, Iter.remaining; simpl.
  intros Hv. apply bool_decide_eq_false in Hv. apply drop_ge. lia.
Qed.

(** What the loop of [FindSmallest] has established after [n] rounds. *)
Definition smallest_upto (cs : list IteratorWrapper.t) (n : nat) (r : option nat) : Prop :=
  match r with
  | None => ∀ i, (i < n)%nat → IteratorWrapper.Valid (child_at cs i) = false
  | Some s =>
      (s < n)%nat ∧ IteratorWrapper.Valid (child_at cs s) = true ∧
      ∀ i, (i < n)%nat → IteratorWrapper.Valid (child_at cs i) = true →
           Compare (IteratorWrapper.key (child_at cs s)) (IteratorWrapper.key (child_at cs i)) <= 0
  end.

Lemma FindSmallest_loop_inv cs n :
  smallest_upto cs n (foldl (smallest_step cs) None (seq 0 n)).
Proof.
  induction n as [|n IH]; [intros i Hi; lia|].
  rewrite seq_S, foldl_app. simpl.
  set (r := foldl (smallest_step cs) None (seq 0 n)) in *.
  unfold smallest_step.
  destruct (IteratorWrapper.Valid (child_at cs n)) eqn:Hv.
  - destruct r as [s|]; simpl in IH.
    + destruct IH as (Hs & Hsv & Hmin).
      destruct (Z.ltb_spec (Compare (IteratorWrapper.key (child_at cs n))
                                    (IteratorWrapper.key (child_at cs s))) 0) as [Hlt|Hge].
      * split; [lia|]. split; [done|]. intros i Hi Hiv.
        destruct (decide (i = n)) as [->|Hne]; [rewrite Compare_refl; lia|].
        apply Compare_trans with (IteratorWrapper.key (child_at cs s)); [lia|].
        apply Hmin; [lia|done].
      * split; [lia|]. split; [done|]. intros i Hi Hiv.
        destruct (decide (i = n)) as [->|Hne]; [apply Compare_ge_flip; lia|].
        apply Hmin; [lia|done].
    + split; [lia|]. split; [done|]. intros i Hi Hiv.
      destruct (decide (i = n)) as [->|Hne]; [rewrite Compare_refl; lia|].
      rewrite IH in Hiv; [discriminate|lia].
  - destruct r as [s|]; simpl in IH |- *.
    + destruct IH as (Hs & Hsv & Hmin). split; [lia|]. split; [done|].
      intros i Hi Hiv. destruct (decide (i = n)) as [->|Hne]; [congruence|].
      apply Hmin; [lia|done].
    + intros i Hi. destruct (decide (i = n)) as [->|Hne]; [done|]. apply IH; lia.
Qed.

Lemma FindSmallest_in_spec cs :
  smallest_upto cs (length cs) (FindSmallest_in cs).
Proof. apply FindSmallest_loop_inv. Qed.

Lemma child_at_lookup cs i w : cs !! i = Some w → child_at cs i = w.
Proof. unfold child_at. by intros ->. Qed.

Lemma all_remaining_nil cs :
  (∀ i, (i < length cs)%nat → IteratorWrapper.Valid (child_at cs i) = false) →
  all_remaining cs = [].
Proof.
  intros Hall. unfold all_remaining.
  induction cs as [|w cs IH]; [reflexivity|]. simpl.
  rewrite (invalid_remaining w) by (apply (Hall 0%nat); simpl; lia).
  simpl. apply IH. intros i Hi. apply (Hall (S i)). simpl; lia.
Qed.

Lemma all_remaining_step cs s :
  IteratorWrapper.Valid (child_at cs s) = true →
  all_remaining cs ≡ₚ
    (IteratorWrapper.key (child_at cs s), IteratorWrapper.value (child_at cs s))
      :: all_remaining (alter IteratorWrapper.Next s cs).
Proof.
  unfold all_remaining. revert s.
  induction cs as [|w cs IH]; intros s Hv; [destruct s; discriminate|].
  destruct s as [|s]; simpl in *.
  - unfold child_at in *; simpl in *. by rewrite (valid_remaining w Hv).
  - unfold child_at in *; simpl in *. rewrite (IH s Hv).
    symmetry. apply Permutation_middle.
Qed.

Lemma smallest_below_all cs s :
  Forall (λ w, StronglySorted key_le (IteratorWrapper.remaining w)) cs →
  FindSmallest_in cs = Some s →
  Forall (key_le (IteratorWrapper.key (child_at cs s), IteratorWrapper.value (child_at cs s)))
         (all_remaining cs).
Proof.
  intros Hsorted Hs. pose proof (FindSmallest_in_spec cs) as Hspec.
  rewrite Hs in Hspec. destruct Hspec as (_ & _ & Hmin).
  unfold all_remaining. apply Forall_concat, Forall_fmap, Forall_lookup.
  intros i w Hw. simpl.
  pose proof (Forall_lookup_1 _ _ _ _ Hsorted Hw) as Hws. simpl in Hws.
  destruct (IteratorWrapper.Valid w) eqn:Hv.
  - assert (Hle : Compare (IteratorWrapper.key (child_at cs s)) (IteratorWrapper.key w) <= 0).
    { rewrite <- (child_at_lookup cs i w Hw). apply Hmin.
      - by apply lookup_lt_Some in Hw.
      - by rewrite (child_at_lookup cs i w Hw). }
    rewrite (valid_remaining w Hv) in Hws |- *.
    apply StronglySorted_inv in Hws as [_ Hhd].
    constructor; [exact Hle|].
    eapply Forall_impl; [exact Hhd|]. intros e He. unfold key_le in *; simpl in *.
    eapply Compare_trans; eauto.
  - rewrite (invalid_remaining w Hv). constructor.
Qed.

Lemma sorted_after_Next cs s :
  Forall (λ w, StronglySorted key_le (IteratorWrapper.remaining w)) cs →
  IteratorWrapper.Valid (child_at cs s) = true →
  Forall (λ w, StronglySorted key_le (IteratorWrapper.remaining w))
         (alter IteratorWrapper.Next s cs).
Proof.
  intros Hsorted Hv. apply Forall_lookup. intros i w Hw.
  destruct (decide (i = s)) as [->|Hne].
  - rewrite list_lookup_alter_eq in Hw.
    destruct (cs !! s) as [w0|] eqn:Hw0; simplify_eq/=.
    pose proof (Forall_lookup_1 _ _ _ _ Hsorted Hw0) as Hws. simpl in Hws.
    rewrite (child_at_lookup _ _ _ Hw0) in Hv.
    rewrite (valid_remaining w0 Hv) in Hws.
    by apply StronglySorted_inv in Hws as [? _].
  - rewrite list_lookup_alter_ne in Hw by done.
    exact (Forall_lookup_1 _ _ _ _ Hsorted Hw).
Qed.

Lemma scan_forward_spec fuel : ∀ cs,
  Forall (λ w, StronglySorted key_le (IteratorWrapper.remaining w)) cs →
  (length (all_remaining cs) ≤ fuel)%nat →
  ∃ out, scan_forward fuel (mk cs (FindSmallest_in cs) kForward) = Some out ∧
         out ≡ₚ all_remaining cs ∧ StronglySorted key_le out.
Proof.
  induction fuel as [|fuel IH]; intros cs Hsorted Hfuel.
  all: pose proof (FindSmallest_in_spec cs) as Hspec.
  all: destruct (FindSmallest_in cs) as [s|] eqn:Hs; simpl in Hspec.
  all: try (exists []; simpl; unfold Valid; simpl; split; [reflexivity|];
            rewrite (all_remaining_nil cs Hspec); split; [done|constructor]).
  - destruct Hspec as (_ & Hv & _).
    pose proof (all_remaining_step cs s Hv) as Hp.
    apply Permutation_length in Hp. simpl in Hp. lia.
  - pose proof (smallest_below_all cs s Hsorted Hs) as Hbelow.
    destruct Hspec as (_ & Hv & _).
    pose proof (all_remaining_step cs s Hv) as Hp.
    destruct (IH (alter IteratorWrapper.Next s cs)) as (out & Hout & Hperm & Hss).
    { by apply sorted_after_Next. }
    { apply Permutation_length in Hp. simpl in Hp. lia. }
    exists ((IteratorWrapper.key (child_at cs s), IteratorWrapper.value (child_at cs s)) :: out).
    split; [|split].
    + simpl. unfold Valid, key, value, Next, FindSmallest. simpl. by rewrite Hout.
    + by rewrite Hp, Hperm.
    + constructor; [done|].
      rewrite Hp in Hbelow. apply Forall_cons in Hbelow as [_ Hbelow].
      by rewrite Hperm.
Qed.

Lemma SeekToFirst_remaining cs :
  all_remaining (IteratorWrapper.SeekToFirst <$> cs) = all_entries cs.
Proof.
  unfold all_remaining, all_entries. rewrite <- list_fmap_compose. f_equal.
  apply list_fmap_ext. by intros _ [[it|]] _.
Qed.

Lemma full_forward_scan_spec (m : MergingIterator) (fuel : nat) :
  Forall (λ w, Sorted key_le (IteratorWrapper.entries w)) (children_ m) →
  (length (all_entries (children_ m)) ≤ fuel)%nat →
  ∃ out, full_forward_scan fuel m = Some out ∧
         out ≡ₚ all_entries (children_ m) ∧ Sorted key_le out.
Proof.
  intros Hsorted Hfuel.
  destruct (scan_forward_spec fuel (IteratorWrapper.SeekToFirst <$> children_ m))
    as (out & Hout & Hperm & Hss).
  - apply Forall_fmap. eapply Forall_impl; [exact Hsorted|].
    intros [[it|]] Hs; simpl in *; [|constructor].
    apply Sorted_StronglySorted; [apply key_le_trans|exact Hs].
  - by rewrite SeekToFirst_remaining.
  - exists out. split; [exact Hout|]. split.
    + by rewrite Hperm, SeekToFirst_remaining.
    + by apply StronglySorted_Sorted.
Qed.

Lemma Iter_scan_forward_remaining fuel : ∀ it,
  (length (Iter.remaining it) ≤ fuel)%nat →
  Iter.scan_forward fuel it = Some (Iter.remaining it).
Proof.
  induction fuel as [|fuel IH]; intros it Hfuel.
  - simpl. pose proof (invalid_remaining (IteratorWrapper.mk (Some it))) as Hinv.
    unfold IteratorWrapper.Valid, IteratorWrapper.remaining in Hinv. simpl in Hinv.
    destruct (Iter.Valid it) eqn:Hv; [|by rewrite Hinv].
    pose proof (valid_remaining (IteratorWrapper.mk (Some it)) Hv) as Hrem.
    unfold IteratorWrapper.remaining in Hrem. simpl in Hrem. rewrite Hrem in Hfuel.
    simpl in Hfuel. lia.
  - simpl. destruct (Iter.Valid it) eqn:Hv.
    + pose proof (valid_remaining (IteratorWrapper.mk (Some it)) Hv) as Hrem.
      unfold IteratorWrapper.remaining, IteratorWrapper.key, IteratorWrapper.value in Hrem.
      simpl in Hrem. rewrite Hrem in Hfuel |- *. simpl in Hfuel.
      rewrite IH by lia. reflexivity.
    + pose proof (invalid_remaining (IteratorWrapper.mk (Some it)) Hv) as Hinv.
      unfold IteratorWrapper.remaining in Hinv. simpl in Hinv. by rewrite Hinv.
Qed.

Lemma new_all_entries (children : list Iter.t) :
  all_entries (children_ (new children)) = concat (Iter.entries <$> children).
Proof.
  unfold all_entries, new. simpl. by rewrite <- list_fmap_compose.
Qed.

Lemma new_children_sorted (children : list Iter.t) :
  Forall (λ c, Sorted key_le (Iter.entries c)) children →
  Forall (λ w, Sorted key_le (IteratorWrapper.entries w)) (children_ (new children)).
Proof.
  intros H. unfold new. simpl. apply Forall_fmap.
  eapply Forall_impl; [exact H|]. by intros c Hc.
Qed.

(** The iterator [NewMergingIterator] hands out, whatever the number of
    children, scans to the sorted merge as well. *)
Lemma NewMergingIterator_forward_scan (children : list Iter.t) (fuel : nat) :
  Forall (λ c, Sorted key_le (Iter.entries c)) children →
  (length (concat (Iter.entries <$> children)) ≤ fuel)%nat →
  ∃ out, merged_forward_scan fuel (NewMergingIterator children) = Some out ∧
         out ≡ₚ concat (Iter.entries <$> children) ∧ Sorted key_le out.
Proof.
  intros Hsorted Hfuel.
  destruct children as [|c [|c' children]].
  - exists []. simpl. unfold Iter.Valid. simpl. split; [by destruct fuel|]. split; constructor.
  - exists (Iter.entries c). simpl in *. rewrite app_nil_r in *.
    split; [|split; [done|by apply Forall_inv in Hsorted]].
    apply (Iter_scan_forward_remaining fuel (Iter.SeekToFirst c)). exact Hfuel.
  - unfold NewMergingIterator, merged_forward_scan.
    rewrite <- new_all_entries in *.
    apply full_forward_scan_spec; [by apply new_children_sorted|done].
Qed.

(** C1. Under a comparator that orders keys totally, and over children whose
    sequences are each sorted by key, the caller's loop [SeekToFirst],
    then [Next] while [Valid], run on a merging iterator over those children
    (wherever the children and the iterator stood before) terminates within
    as many rounds as the children hold entries, and the [(key, value)] pairs
    it visits are a rearrangement of the concatenation of all the children's
    sequences (every duplicate kept), in ascending key order: their sorted
    merge. *)
Theorem merging_forward_scan_is_sorted_merge
  (children : list Iter.t) (current : option nat) (direction : Direction) (fuel : nat) :
  Forall (λ c, Sorted key_le (Iter.entries c)) children →
  (length (concat (Iter.entries <$> children)) ≤ fuel)%nat →
  ∃ out, full_forward_scan fuel (mk (children_ (new children)) current direction) = Some out ∧
         out ≡ₚ concat (Iter.entries <$> children) ∧ Sorted key_le out.
Proof.
  intros Hsorted Hfuel. rewrite <- new_all_entries in *.
  apply (full_forward_scan_spec (mk (children_ (new children)) current direction)); [|done].
  by apply new_children_sorted.
Qed.

End Facts.
End Merger.

(** The plain bytewise comparator orders keys totally. *)
Lemma bytes_compare_flip a : ∀ b, Z.sgn (bytes_compare b a) = - Z.sgn (bytes_compare a b).
Proof.
  induction a as [|x a IH]; intros [|y b]; simpl; try reflexivity.
  destruct (Z.ltb_spec (byte_to_Z x) (byte_to_Z y)), (Z.ltb_spec (byte_to_Z y) (byte_to_Z x));
    try reflexivity; try lia. apply IH.
Qed.

Lemma bytes_compare_trans a : ∀ b c,
  bytes_compare a b <= 0 → bytes_compare b c <= 0 → bytes_compare a c <= 0.
Proof.
  induction a as [|x a IH]; intros [|y b] [|z c]; simpl; try lia.
  destruct (Z.ltb_spec (byte_to_Z x) (byte_to_Z y)), (Z.ltb_spec (byte_to_Z y) (byte_to_Z x)),
    (Z.ltb_spec (byte_to_Z y) (byte_to_Z z)), (Z.ltb_spec (byte_to_Z z) (byte_to_Z y)),
    (Z.ltb_spec (byte_to_Z x) (byte_to_Z z)), (Z.ltb_spec (byte_to_Z z) (byte_to_Z x));
    try lia. apply IH.
Qed.

Lemma PlainBytewise_order : ComparatorOrder PlainBytewise.
Proof. split; [exact (λ a b, bytes_compare_flip a b)|exact bytes_compare_trans]. Qed.

Module MergerExamples.
Import Merger.
#[local] Existing Instance PlainBytewise.
#[local] Existing Instance PlainBytewise_order.

Definition child_A : Iter.t := Iter.mk [(bs "a", bs "1"); (bs "c", bs "3")] 0 OK.
Definition child_B : Iter.t := Iter.mk [(bs "b", bs "2"); (bs "d", bs "4")] 0 OK.
Definition child_C : Iter.t := Iter.mk [(bs "b", bs "9"); (bs "b", bs "8")] 1 OK.

Definition merged_AB : MergingIterator := new [child_A; child_B].
Definition merged_ABC : MergingIterator := new [child_A; child_B; child_C].

(** Scenario E3 of the spec, forward part: [a, b, c, d]. *)
Example scan_AB :
  full_forward_scan 4 merged_AB
  = Some [(bs "a", bs "1"); (bs "b", bs "2"); (bs "c", bs "3"); (bs "d", bs "4")].
Proof. reflexivity. Qed.

(** Scenario E3, backward part: after the four keys, [Prev] twice from [d]
    visits [c] then [b]. *)
Example prev_AB :
  let at_d := SeekToLast merged_AB in
  key at_d = Some (bs "d") ∧
  (at_c ← Prev at_d; key at_c) = Some (bs "c") ∧
  (at_c ← Prev at_d; at_b ← Prev at_c; key at_b) = Some (bs "b").
Proof. repeat split. Qed.

(** Equal keys of different children are all delivered, lowest child first. *)
Example scan_ABC :
  full_forward_scan 6 merged_ABC
  = Some [(bs "a", bs "1"); (bs "b", bs "2"); (bs "b", bs "9"); (bs "b", bs "8");
          (bs "c", bs "3"); (bs "d", bs "4")].
Proof. reflexivity. Qed.

(** The factory on no child and on one child. *)
Example scan_none_and_one :
  merged_forward_scan 0 (NewMergingIterator []) = Some [] ∧
  merged_forward_scan 2 (NewMergingIterator [child_C]) = Some [(bs "b", bs "9"); (bs "b", bs "8")].
Proof. split; reflexivity. Qed.

Lemma merging_forward_scan_witness :
  ∃ out, full_forward_scan 6 merged_ABC = Some out ∧
         out ≡ₚ concat (Iter.entries <$> [child_A; child_B; child_C]) ∧
         Sorted key_le out.
Proof.
  apply (merging_forward_scan_is_sorted_merge [child_A; child_B; child_C] None kForward 6).
  - repeat constructor; unfold key_le; simpl; lia.
  - simpl. lia.
Defined.

End MergerExamples.

(** ** Fixed-width and variable-width integers ([util/coding.h]) *)

Module Coding.

Definition u32 (v : Z) : Z := v mod 2 ^ 32.
Definition u64 (v : Z) : Z := v mod 2 ^ 64.

(** Modelled from the spec: [EncodeFixed32]/[PutFixed32]/[DecodeFixed32]
    ([util/coding.h] is not part of the sources at hand): "32-bit
    little-endian". *)
Definition EncodeFixed32 (v : Z) : list byte :=
  [byte_of_Z v; byte_of_Z (Z.shiftr v 8); byte_of_Z (Z.shiftr v 16); byte_of_Z (Z.shiftr v 24)].

Definition PutFixed32 (dst : list byte) (v : Z) : list byte := dst ++ EncodeFixed32 v.

(** Modelled from the spec: a 64-bit number in eight little-endian bytes. *)
Definition PutFixed64 (dst : list byte) (v : Z) : list byte :=
  dst ++ EncodeFixed32 (u32 v) ++ EncodeFixed32 (Z.shiftr v 32).

(** The byte at [p[i]], read as [uint8_t]. *)
Definition byte_at (p : list byte) (i : nat) : Z :=
  match p !! i with Some b => byte_to_Z b | None => 0 end.

(** Modelled from the spec: [DecodeFixed32], the number four little-endian
    bytes stand for. *)
Definition DecodeFixed32 (p : list byte) : Z :=
  Z.lor (byte_at p 0)
    (Z.lor (Z.shiftl (byte_at p 1) 8)
       (Z.lor (Z.shiftl (byte_at p 2) 16) (Z.shiftl (byte_at p 3) 24))).

(** Modelled from the spec: "unsigned varints" ([util/coding.cc] is not part
    of the sources at hand): seven bits per byte, low group first, the top
    bit set on every byte but the last. [n] bounds the number of groups. *)
Fixpoint EncodeVarint (n : nat) (v : Z) : list byte :=
  match n with
  | O => [byte_of_Z v]
  | S n' =>
      if v <? 128 then [byte_of_Z v]
      else byte_of_Z (Z.lor (Z.land v 127) 128) :: EncodeVarint n' (Z.shiftr v 7)
  end.

Definition PutVarint32 (dst : list byte) (v : Z) : list byte := dst ++ EncodeVarint 4 v.
Definition PutVarint64 (dst : list byte) (v : Z) : list byte := dst ++ EncodeVarint 9 v.

End Coding.

(** ** CRC-32C ([util/crc32c.h]) *)

Module crc32c.

(** Modelled from the spec: CRC-32C "with the standard mask rotation
    [((c >> 15) | (c << 17)) + 0xa282ead8]" ([util/crc32c.{h,cc}] are not part
    of the sources at hand).  The checksum is the reflected CRC with the
    Castagnoli polynomial, computed here bit by bit. *)
Definition kPolynomial : Z := 0x82f63b78.
Definition kMaskDelta : Z := 0xa282ead8.

(** Modelled from the spec: one bit, then one byte, of the reflected
    CRC-32C division. *)
Definition shift_bit (c : Z) : Z :=
  if Z.testbit c 0 then Z.lxor (Z.shiftr c 1) kPolynomial else Z.shiftr c 1.

Definition update (c : Z) (b : byte) : Z :=
  Nat.iter 8 shift_bit (Z.lxor c (byte_to_Z b)).

(** Modelled from the spec: [Extend(init_crc, data, n)], the CRC-32C of the
    concatenation of [A] and [data] where [init_crc] is the CRC-32C of [A];
    [Value(data, n)] is [Extend(0, data, n)]. *)
Definition Extend (init_crc : Z) (data : list byte) : Z :=
  Z.lxor (foldl update (Z.lxor init_crc 0xffffffff) data) 0xffffffff.

Definition Value (data : list byte) : Z := Extend 0 data.

(** Modelled from the spec: "the standard mask rotation
    [((c >> 15) | (c << 17)) + 0xa282ead8]", in 32 bits. *)
Definition Mask (crc : Z) : Z :=
  Coding.u32 (Z.lor (Z.shiftr crc 15) (Coding.u32 (Z.shiftl crc 17)) + kMaskDelta).

(** The check value of CRC-32C. *)
Example Value_check : Value (bs "123456789") = 0xe3069283.
Proof. vm_compute. reflexivity. Qed.

(** Extending a checksum by more data is the checksum of the whole. *)
Lemma Extend_app c a b : Extend (Extend c a) b = Extend c (a ++ b).
Proof.
  unfold Extend. rewrite foldl_app. do 2 f_equal.
  rewrite Z.lxor_assoc, Z.lxor_nilpotent, Z.lxor_0_r. reflexivity.
Qed.

End crc32c.

(** ** The filter-policy strategy ([leveldb/filter_policy.h]) *)

Module Policy.

(** [CreateFilter] appends a filter for the given keys to its destination;
    it is modelled by the bytes it appends. *)
Class FilterPolicy := {
  Name : string;
  CreateFilter : list Slice → list byte;
  KeyMayMatch : Slice → Slice → bool
}.

End Policy.

(** ** [table/filter_block.cc] *)

Module FilterBlock.

Definition kFilterBaseLg : Z := 11.
Definition kFilterBase : Z := Z.shiftl 1 kFilterBaseLg.

(** [Slice(base + start, length)] over the bytes [base] points at. *)
Definition slice_of (base : list byte) (start length : Z) : Slice :=
  take (Z.to_nat length) (drop (Z.to_nat start) base).

End FilterBlock.

Module FilterBlockBuilder.
Import Coding FilterBlock.

Record t := mk {
  policy_ : Policy.FilterPolicy;
  keys_ : list byte;
  start_ : list Z;
  result_ : list byte;
  tmp_keys_ : list Slice;
  filter_offsets_ : list Z
}.

(** The constructor keeps the policy and leaves every container empty. *)
Definition new (policy : Policy.FilterPolicy) : t := mk policy [] [] [] [] [].

Definition AddKey (key : Slice) (b : t) : t :=
  mk (policy_ b) (keys_ b ++ key) (start_ b ++ [size (keys_ b)]) (result_ b)
     (tmp_keys_ b) (filter_offsets_ b).

(** The list of keys rebuilt from the flattened [keys_], once the final
    length has been pushed onto [start_]. *)
Definition unflatten (keys : list byte) (start : list Z) (num_keys : nat) : list Slice :=
  (λ i : nat,
     let base := default 0 (start !! i) in
     let length := default 0 (start !! S i) - default 0 (start !! i) in
     slice_of keys base length) <$> seq 0 num_keys.

Definition GenerateFilter (b : t) : t :=
  let num_keys := length (start_ b) in
  if decide (num_keys = 0%nat) then
    mk (policy_ b) (keys_ b) (start_ b) (result_ b) (tmp_keys_ b)
       (filter_offsets_ b ++ [u32 (size (result_ b))])
  else
    let start1 := start_ b ++ [size (keys_ b)] in
    let tmp_keys := unflatten (keys_ b) start1 num_keys in
    let offsets := filter_offsets_ b ++ [u32 (size (result_ b))] in
    let result := result_ b ++ @Policy.CreateFilter (policy_ b) tmp_keys in
    mk (policy_ b) [] [] result [] offsets.

(** [while (filter_index > filter_offsets_.size()) GenerateFilter();]
    with a bound on the number of rounds. *)
Fixpoint StartBlock_loop (fuel : nat) (filter_index : Z) (b : t) : option t :=
  if Z.of_nat (length (filter_offsets_ b)) <? filter_index then
    match fuel with
    | O => None
    | S fuel' => StartBlock_loop fuel' filter_index (GenerateFilter b)
    end
  else Some b.

(** [StartBlock] asserts [filter_index >= filter_offsets_.size()]; the loop
    is given [filter_index] rounds, which is never too few. *)
Definition StartBlock (block_offset : Z) (b : t) : option t :=
  let filter_index := block_offset / kFilterBase in
  if filter_index <? Z.of_nat (length (filter_offsets_ b)) then None
  else StartBlock_loop (Z.to_nat filter_index) filter_index b.

Definition Finish (b : t) : t * Slice :=
  let b1 := if decide (start_ b = []) then b else GenerateFilter b in
  let array_offset := u32 (size (result_ b1)) in
  let result1 := foldl PutFixed32 (result_ b1) (filter_offsets_ b1) in
  let result2 := PutFixed32 result1 array_offset in
  let result3 := result2 ++ [byte_of_Z kFilterBaseLg] in
  (mk (policy_ b1) (keys_ b1) (start_ b1) result3 (tmp_keys_ b1) (filter_offsets_ b1), result3).

(** The keys added since the last filter was generated. *)
Definition pending_keys (b : t) : list Slice :=
  unflatten (keys_ b) (start_ b ++ [size (keys_ b)]) (length (start_ b)).

Lemma GenerateFilter_offsets b :
  filter_offsets_ (GenerateFilter b) = filter_offsets_ b ++ [u32 (size (result_ b))].
Proof. unfold GenerateFilter. by case_decide. Qed.

Lemma GenerateFilter_start b : start_ (GenerateFilter b) = [].
Proof.
  unfold GenerateFilter. case_decide as H; [|done].
  simpl. by apply length_zero_iff_nil.
Qed.

Lemma GenerateFilter_policy b : policy_ (GenerateFilter b) = policy_ b.
Proof. unfold GenerateFilter. by case_decide. Qed.

Lemma GenerateFilter_result b :
  result_ (GenerateFilter b) =
  result_ b ++ (if decide (start_ b = []) then []
                else @Policy.CreateFilter (policy_ b) (pending_keys b)).
Proof.
  unfold GenerateFilter, pending_keys. case_decide as H; simpl.
  - apply length_zero_iff_nil in H. rewrite decide_True by done. by rewrite app_nil_r.
  - rewrite decide_False; [done|]. intros E. by rewrite E in H.
Qed.

Lemma GenerateFilter_keys b : start_ b ≠ [] → keys_ (GenerateFilter b) = [].
Proof.
  intros Hne. unfold GenerateFilter. case_decide as H; [|done].
  by apply length_zero_iff_nil in H.
Qed.

Lemma GenerateFilter_no_keys b :
  start_ b = [] →
  GenerateFilter b = mk (policy_ b) (keys_ b) [] (result_ b) (tmp_keys_ b)
                        (filter_offsets_ b ++ [u32 (size (result_ b))]).
Proof. intros H. unfold GenerateFilter. rewrite H. reflexivity. Qed.


Lemma filter_index_shift block_offset :
  block_offset / kFilterBase = Z.shiftr block_offset kFilterBaseLg.
Proof. unfold kFilterBase, kFilterBaseLg. by rewrite Z.shiftr_div_pow2. Qed.


End FilterBlockBuilder.

Module FilterBlockReader.
Import Coding FilterBlock.

(** The reader keeps two pointers into the block: [data_] (the block's first
    byte, or null) and [offset_] (the offset array).  The model keeps the
    bytes [data_] points at, empty for null, and the distance
    [offset_ - data_]. *)
Record t := mk {
  policy_ : Policy.FilterPolicy;
  data_ : list byte;
  offset_ : Z;
  num_ : Z;
  base_lg_ : Z
}.

(** [base_lg_ = contents[n - 1]] reads a [char] into a [size_t]; the byte is
    taken as a number from 0 to 255 (the builder writes 11).  That is what
    the code reads for a byte below 128; where [char] is a signed type a byte
    from 128 up is read as a [size_t] near its maximum instead.  Either way
    such a [base_lg_] is 64 or more, where the shift of [KeyMayMatch] is
    undefined in C++. *)
Definition new (policy : Policy.FilterPolicy) (contents : Slice) : t :=
  let n := size contents in
  if n <? 5 then mk policy [] 0 0 0
  else
    let base_lg := byte_at contents (Z.to_nat (n - 1)) in
    let last_word := DecodeFixed32 (drop (Z.to_nat (n - 5)) contents) in
    if n - 5 <? last_word then mk policy [] 0 0 base_lg
    else mk policy contents last_word ((n - 5 - last_word) / 4) base_lg.

(** [start] and [limit] of filter [index], read from the offset array. *)
Definition filter_start (r : t) (index : Z) : Z :=
  DecodeFixed32 (drop (Z.to_nat (offset_ r + index * 4)) (data_ r)).
Definition filter_limit (r : t) (index : Z) : Z :=
  DecodeFixed32 (drop (Z.to_nat (offset_ r + index * 4 + 4)) (data_ r)).

(** [block_offset >> base_lg_] is the shift of integers; C++ defines it for
    [base_lg_] below 64 only. *)
Definition KeyMayMatch (r : t) (block_offset : Z) (key : Slice) : bool :=
  let index := Z.shiftr block_offset (base_lg_ r) in
  if index <? num_ r then
    let start := filter_start r index in
    let limit := filter_limit r index in
    if (start <=? limit) && (limit <=? offset_ r) then
      let filter := slice_of (data_ r) start (limit - start) in
      @Policy.KeyMayMatch (policy_ r) key filter
    else if start =? limit then
      false
    else true
  else true.

(** In a reader whose block passed the constructor's checks, a filter whose
    [start] equals its [limit] and lies within the filter data is handed to
    the policy as an empty slice: the answer is the policy's. *)
Lemma KeyMayMatch_empty_in_range (r : t) block_offset key :
  let index := Z.shiftr block_offset (base_lg_ r) in
  index < num_ r →
  filter_start r index = filter_limit r index →
  filter_limit r index <= offset_ r →
  KeyMayMatch r block_offset key = @Policy.KeyMayMatch (policy_ r) key [].
Proof.
  intros index Hlt Heq Hin. unfold KeyMayMatch. fold index.
  destruct (Z.ltb_spec index (num_ r)); [|lia].
  rewrite Heq, Z.leb_refl. destruct (Z.leb_spec (filter_limit r index) (offset_ r)); [|lia].
  simpl. by rewrite Z.sub_diag.
Qed.

(** The branch [else if (start == limit) return false] is only taken when
    the common value lies past the start of the offset array. *)
Lemma KeyMayMatch_empty_out_of_range (r : t) block_offset key :
  let index := Z.shiftr block_offset (base_lg_ r) in
  index < num_ r →
  filter_start r index = filter_limit r index →
  offset_ r < filter_limit r index →
  KeyMayMatch r block_offset key = false.
Proof.
  intros index Hlt Heq Hout. unfold KeyMayMatch. fold index.
  destruct (Z.ltb_spec index (num_ r)); [|lia].
  rewrite Heq, Z.leb_refl, Z.eqb_refl.
  by destruct (Z.leb_spec (filter_limit r index) (offset_ r)); [lia|].
Qed.

(** C10. A block shorter than five bytes, or one whose last word (the start
    of the offset array) exceeds its size less five, gives a reader with
    [num_ = 0], and that reader answers [true] for every block offset (an
    unsigned number) and every key. *)
Theorem malformed_block_matches_everything
  (policy : Policy.FilterPolicy) (contents : Slice) (block_offset : Z) (key : Slice) :
  0 ≤ block_offset →
  size contents < 5 ∨
    size contents - 5 < DecodeFixed32 (drop (Z.to_nat (size contents - 5)) contents) →
  num_ (new policy contents) = 0 ∧
  KeyMayMatch (new policy contents) block_offset key = true.
Proof.
  intros Hoff Hbad.
  assert (Hnum : num_ (new policy contents) = 0).
  { unfold new. destruct (Z.ltb_spec (size contents) 5) as [|Hn]; [done|].
    destruct (Z.ltb_spec (size contents - 5)
                (DecodeFixed32 (drop (Z.to_nat (size contents - 5)) contents))); [done|lia]. }
  split; [exact Hnum|]. unfold KeyMayMatch. rewrite Hnum.
  destruct (Z.ltb_spec (Z.shiftr block_offset (base_lg_ (new policy contents))) 0) as [Hneg|];
    [|done].
  pose proof (proj2 (Z.shiftr_nonneg block_offset (base_lg_ (new policy contents))) Hoff). lia.
Qed.

End FilterBlockReader.

(** *** Concrete filter blocks *)

Module FilterBlockExamples.
Import FilterBlock.

(** A policy that keeps one byte per filter and lets every key through: it
    has false positives only, as the strategy allows. *)
Definition MatchAll : Policy.FilterPolicy := {|
  Policy.Name := "MatchAll";
  Policy.CreateFilter := λ _, [Byte.x01];
  Policy.KeyMayMatch := λ _ _, true
|}.

(** A policy whose filter is the list of first bytes of its keys. *)
Definition FirstByte : Policy.FilterPolicy := {|
  Policy.Name := "FirstByte";
  Policy.CreateFilter := λ keys, (λ k, default Byte.x00 (head k)) <$> keys;
  Policy.KeyMayMatch := λ key filter, existsb (Byte.eqb (default Byte.x00 (head key))) filter
|}.

Definition foo : Slice := bs "foo".

(** [StartBlock(0); AddKey("foo"); StartBlock(5000); Finish()]: the second
    [StartBlock] emits the filter for ["foo"] and one empty filter. *)
Definition two_filters (policy : Policy.FilterPolicy) : option Slice :=
  b0 ← FilterBlockBuilder.StartBlock 0 (FilterBlockBuilder.new policy);
  b1 ← FilterBlockBuilder.StartBlock 5000 (FilterBlockBuilder.AddKey foo b0);
  Some (FilterBlockBuilder.Finish b1).2.

Definition block_MatchAll : Slice := byte_of_Z <$> [1; 0; 0; 0; 0; 1; 0; 0; 0; 1; 0; 0; 0; 11].

Example two_filters_MatchAll : two_filters MatchAll = Some block_MatchAll.
Proof. reflexivity. Qed.

(** C3. On the filter block the builder itself writes for
    [StartBlock(0); AddKey("foo"); StartBlock(5000); Finish()] under a policy
    that lets every key through, filter 1 is empty ([start = limit], within
    the filter data, index below [num_]); [KeyMayMatch(2048, "foo")]
    nevertheless returns [true], the policy's answer on the empty slice. *)
Theorem KeyMayMatch_empty_filter_asks_policy :
  let r := FilterBlockReader.new MatchAll block_MatchAll in
  let index := Z.shiftr 2048 (FilterBlockReader.base_lg_ r) in
  index = 1 ∧ FilterBlockReader.num_ r = 2 ∧
  FilterBlockReader.filter_start r index = 1 ∧
  FilterBlockReader.filter_limit r index = 1 ∧
  FilterBlockReader.offset_ r = 1 ∧
  FilterBlockReader.KeyMayMatch r 2048 foo = true.
Proof. repeat split. Qed.

(** The same query under a policy that rejects on an empty filter: the
    answer follows the policy. *)
Example KeyMayMatch_empty_filter_FirstByte :
  (blk ← two_filters FirstByte;
   Some (FilterBlockReader.KeyMayMatch (FilterBlockReader.new FirstByte blk) 2048 foo,
         FilterBlockReader.KeyMayMatch (FilterBlockReader.new FirstByte blk) 0 foo))
  = Some (false, true).
Proof. reflexivity. Qed.

Lemma malformed_block_witness :
  FilterBlockReader.num_ (FilterBlockReader.new FirstByte (byte_of_Z <$> [9; 0; 0; 0; 11])) = 0 ∧
  FilterBlockReader.KeyMayMatch
    (FilterBlockReader.new FirstByte (byte_of_Z <$> [9; 0; 0; 0; 11])) 4096 foo = true.
Proof.
  apply FilterBlockReader.malformed_block_matches_everything.
  - lia.
  - right. vm_compute. reflexivity.
Defined.

End FilterBlockExamples.

(** ** [table/two_level_iterator.cc] *)

Module TwoLevel.
Section WithBlockFunction.
Context {comparator_ : Comparator}.

(** [block_function_(arg_, options_, index_value)]: the iterator over the
    block an index value designates. *)
Variable block_function_ : Slice → Iter.t.

Record TwoLevelIterator := mk {
  status_ : Status;
  index_iter_ : IteratorWrapper.t;
  data_iter_ : IteratorWrapper.t;
  data_block_handle_ : list byte
}.

(** The constructor: [data_iter_] wraps a null pointer. *)
Definition new (index_iter : Iter.t) : TwoLevelIterator :=
  mk OK (IteratorWrapper.Set_ (Some index_iter)) (IteratorWrapper.Set_ None) [].

Definition Valid (t : TwoLevelIterator) : bool := IteratorWrapper.Valid (data_iter_ t).

(** [key()] and [value()] assert [Valid()]. *)
Definition key (t : TwoLevelIterator) : option Slice :=
  if Valid t then Some (IteratorWrapper.key (data_iter_ t)) else None.

Definition value (t : TwoLevelIterator) : option Slice :=
  if Valid t then Some (IteratorWrapper.value (data_iter_ t)) else None.

Definition status (t : TwoLevelIterator) : Status :=
  if negb (ok (IteratorWrapper.status (index_iter_ t))) then
    IteratorWrapper.status (index_iter_ t)
  else if bool_decide (is_Some (IteratorWrapper.iter (data_iter_ t)))
          && negb (ok (IteratorWrapper.status (data_iter_ t))) then
    IteratorWrapper.status (data_iter_ t)
  else status_ t.

Definition SaveError (s : Status) (t : TwoLevelIterator) : TwoLevelIterator :=
  if ok (status_ t) && negb (ok s)
  then mk s (index_iter_ t) (data_iter_ t) (data_block_handle_ t)
  else t.

Definition SetDataIterator (data_iter : option Iter.t) (t : TwoLevelIterator)
  : TwoLevelIterator :=
  let t1 := if bool_decide (is_Some (IteratorWrapper.iter (data_iter_ t)))
            then SaveError (IteratorWrapper.status (data_iter_ t)) t else t in
  mk (status_ t1) (index_iter_ t1) (IteratorWrapper.Set_ data_iter) (data_block_handle_ t1).

Definition InitDataBlock (t : TwoLevelIterator) : TwoLevelIterator :=
  if negb (IteratorWrapper.Valid (index_iter_ t)) then SetDataIterator None t
  else
    let handle := IteratorWrapper.value (index_iter_ t) in
    if bool_decide (is_Some (IteratorWrapper.iter (data_iter_ t)))
       && (bytes_compare handle (data_block_handle_ t) =? 0)
    then t
    else
      let iter := block_function_ handle in
      SetDataIterator (Some iter)
        (mk (status_ t) (index_iter_ t) (data_iter_ t) handle).

Definition with_index (f : IteratorWrapper.t → IteratorWrapper.t) (t : TwoLevelIterator) :=
  mk (status_ t) (f (index_iter_ t)) (data_iter_ t) (data_block_handle_ t).

Definition with_data (f : IteratorWrapper.t → IteratorWrapper.t) (t : TwoLevelIterator) :=
  mk (status_ t) (index_iter_ t) (f (data_iter_ t)) (data_block_handle_ t).

(** [while (data_iter_.iter() == nullptr || !data_iter_.Valid())], with a
    bound on the number of rounds. *)
Fixpoint SkipEmptyDataBlocksForward (fuel : nat) (t : TwoLevelIterator)
  : option TwoLevelIterator :=
  if negb (bool_decide (is_Some (IteratorWrapper.iter (data_iter_ t))))
     || negb (IteratorWrapper.Valid (data_iter_ t)) then
    if negb (IteratorWrapper.Valid (index_iter_ t)) then Some (SetDataIterator None t)
    else
      match fuel with
      | O => None
      | S fuel' =>
          let t1 := InitDataBlock (with_index IteratorWrapper.Next t) in
          SkipEmptyDataBlocksForward fuel' (with_data IteratorWrapper.SeekToFirst t1)
      end
  else Some t.

Definition SeekToFirst (fuel : nat) (t : TwoLevelIterator) : option TwoLevelIterator :=
  let t1 := InitDataBlock (with_index IteratorWrapper.SeekToFirst t) in
  SkipEmptyDataBlocksForward fuel (with_data IteratorWrapper.SeekToFirst t1).

Definition Seek (fuel : nat) (target : Slice) (t : TwoLevelIterator) : option TwoLevelIterator :=
  let t1 := InitDataBlock (with_index (IteratorWrapper.Seek target) t) in
  SkipEmptyDataBlocksForward fuel (with_data (IteratorWrapper.Seek target) t1).

Fixpoint SkipEmptyDataBlocksBackward (fuel : nat) (t : TwoLevelIterator)
  : option TwoLevelIterator :=
  if negb (bool_decide (is_Some (IteratorWrapper.iter (data_iter_ t))))
     || negb (IteratorWrapper.Valid (data_iter_ t)) then
    if negb (IteratorWrapper.Valid (index_iter_ t)) then Some (SetDataIterator None t)
    else
      match fuel with
      | O => None
      | S fuel' =>
          let t1 := InitDataBlock (with_index IteratorWrapper.Prev t) in
          SkipEmptyDataBlocksBackward fuel' (with_data IteratorWrapper.SeekToLast t1)
      end
  else Some t.

Definition SeekToLast (fuel : nat) (t : TwoLevelIterator) : option TwoLevelIterator :=
  let t1 := InitDataBlock (with_index IteratorWrapper.SeekToLast t) in
  SkipEmptyDataBlocksBackward fuel (with_data IteratorWrapper.SeekToLast t1).

(** [Next] and [Prev] assert [Valid()]. *)
Definition Next (fuel : nat) (t : TwoLevelIterator) : option TwoLevelIterator :=
  if Valid t then SkipEmptyDataBlocksForward fuel (with_data IteratorWrapper.Next t)
  else None.

Definition Prev (fuel : nat) (t : TwoLevelIterator) : option TwoLevelIterator :=
  if Valid t then SkipEmptyDataBlocksBackward fuel (with_data IteratorWrapper.Prev t)
  else None.

(** [Valid], [key] and [value] are those of the data iterator. *)
Lemma accessors_delegate (t : TwoLevelIterator) :
  Valid t = IteratorWrapper.Valid (data_iter_ t) ∧
  (Valid t = true →
   key t = Some (IteratorWrapper.key (data_iter_ t)) ∧
   value t = Some (IteratorWrapper.value (data_iter_ t))).
Proof. split; [reflexivity|]. unfold key, value. by intros ->. Qed.

(** The three cases of [status()], in the order the code tries them. *)
Lemma status_cases (t : TwoLevelIterator) :
  (ok (IteratorWrapper.status (index_iter_ t)) = false →
   status t = IteratorWrapper.status (index_iter_ t)) ∧
  (ok (IteratorWrapper.status (index_iter_ t)) = true →
   is_Some (IteratorWrapper.iter (data_iter_ t)) →
   ok (IteratorWrapper.status (data_iter_ t)) = false →
   status t = IteratorWrapper.status (data_iter_ t)) ∧
  (ok (IteratorWrapper.status (index_iter_ t)) = true →
   IteratorWrapper.iter (data_iter_ t) = None ∨ ok (IteratorWrapper.status (data_iter_ t)) = true →
   status t = status_ t).
Proof.
  unfold status. repeat split.
  - by intros ->.
  - intros -> Hsome Hbad. simpl. rewrite bool_decide_eq_true_2 by done. by rewrite Hbad.
  - intros -> [Hnone|Hok]; simpl.
    + rewrite bool_decide_eq_false_2; [done|]. rewrite Hnone. by intros [? ?].
    + rewrite Hok. simpl. by rewrite andb_false_r.
Qed.

(** C7, as the code has it. [Valid], [key] and [value] are the data
    iterator's.  [status()] is the index iterator's status when that is not
    ok; otherwise the data iterator's status when there is a data iterator and
    its status is not ok; otherwise the saved [status_].  So a non-ok status
    of the data iterator is what [status()] returns provided the index
    iterator's status is ok. *)
Theorem status_prefers_index_then_data (t : TwoLevelIterator) :
  Valid t = IteratorWrapper.Valid (data_iter_ t) ∧
  (Valid t = true →
   key t = Some (IteratorWrapper.key (data_iter_ t)) ∧
   value t = Some (IteratorWrapper.value (data_iter_ t))) ∧
  (ok (IteratorWrapper.status (index_iter_ t)) = false →
   status t = IteratorWrapper.status (index_iter_ t)) ∧
  (ok (IteratorWrapper.status (index_iter_ t)) = true →
   is_Some (IteratorWrapper.iter (data_iter_ t)) →
   ok (IteratorWrapper.status (data_iter_ t)) = false →
   status t = IteratorWrapper.status (data_iter_ t)) ∧
  (ok (IteratorWrapper.status (index_iter_ t)) = true →
   IteratorWrapper.iter (data_iter_ t) = None ∨ ok (IteratorWrapper.status (data_iter_ t)) = true →
   status t = status_ t).
Proof.
  destruct (accessors_delegate t) as [Hv Hkv]. destruct (status_cases t) as (H1 & H2 & H3).
  auto.
Qed.

End WithBlockFunction.

(** *** A table of two blocks *)

(** The data iterator fails with an I/O error while the index iterator
    reports corruption. *)
Definition both_failed : TwoLevelIterator :=
  mk OK
     (IteratorWrapper.Set_ (Some (Iter.mk [(bs "k", bs "h1")] 0 (Corruption "bad index block"))))
     (IteratorWrapper.Set_ (Some (Iter.mk [(bs "a", bs "1")] 0 (IOError "short read"))))
     (bs "h1").

(** C7, as the claim has it, fails: with both iterators in error, the data
    iterator's status is not ok, yet [status()] is the index iterator's. *)
Lemma status_not_always_data_status :
  is_Some (IteratorWrapper.iter (data_iter_ both_failed)) ∧
  ok (IteratorWrapper.status (data_iter_ both_failed)) = false ∧
  status both_failed ≠ IteratorWrapper.status (data_iter_ both_failed).
Proof. split; [by eexists|]. split; [reflexivity|]. discriminate. Qed.

Example both_failed_status : status both_failed = Corruption "bad index block".
Proof. reflexivity. Qed.

Definition index_ok_data_failed : TwoLevelIterator :=
  mk OK
     (IteratorWrapper.Set_ (Some (Iter.mk [(bs "k", bs "h1")] 0 OK)))
     (IteratorWrapper.Set_ (Some (Iter.mk [(bs "a", bs "1")] 0 (IOError "short read"))))
     (bs "h1").

Lemma status_prefers_index_witness :
  Valid index_ok_data_failed = true ∧
  key index_ok_data_failed = Some (bs "a") ∧
  status index_ok_data_failed = IOError "short read" ∧
  status both_failed = Corruption "bad index block".
Proof.
  destruct (status_prefers_index_then_data index_ok_data_failed) as (Hv & Hkv & _ & Hdata & _).
  destruct (status_prefers_index_then_data both_failed) as (_ & _ & Hindex & _).
  split; [exact Hv|]. split; [apply Hkv; reflexivity|].
  split; [apply Hdata; [reflexivity|by eexists|reflexivity]|].
  apply Hindex. reflexivity.
Defined.

(** Walking a table of two blocks through the two levels. *)
Definition blocks (handle : Slice) : Iter.t :=
  if bytes_compare handle (bs "h1") =? 0 then Iter.mk [(bs "a", bs "1"); (bs "b", bs "2")] 0 OK
  else if bytes_compare handle (bs "h2") =? 0 then Iter.mk [(bs "c", bs "3")] 0 OK
  else Iter.mk [] 0 (Corruption "bad block handle").

Definition two_blocks : TwoLevelIterator :=
  new (Iter.mk [(bs "b", bs "h1"); (bs "c", bs "h2")] 0 OK).

Example two_blocks_walk :
  (t1 ← SeekToFirst blocks 5 two_blocks;
   t2 ← Next blocks 5 t1;
   t3 ← Next blocks 5 t2;
   t4 ← Next blocks 5 t3;
   Some (key t1, key t2, key t3, Valid t4, status t4))
  = Some (Some (bs "a"), Some (bs "b"), Some (bs "c"), false, OK).
Proof. reflexivity. Qed.

Example two_blocks_walk_back :
  (t1 ← SeekToLast blocks 5 two_blocks;
   t2 ← Prev blocks 5 t1;
   t3 ← Prev blocks 5 t2;
   Some (key t1, key t2, key t3))
  = Some (Some (bs "c"), Some (bs "b"), Some (bs "a")).
Proof. reflexivity. Qed.

End TwoLevel.

(** ** [util/arena.{h,cc}] *)

Module ArenaAlloc.

(** The free store behind [new char[n]]: a request of [n] bytes yields the
    address of the new array. *)
Class FreeStore := {
  store : Type;
  new_char_array : Z → store → Z * store
}.

Section WithPlatform.
(** [sizeof(void* )], which is also taken as the width of [size_t] and
    [uintptr_t]. *)
Variable sizeof_voidp : Z.
Context {free_store : FreeStore}.

Definition kBlockSize : Z := 4096.

Definition size_t (v : Z) : Z := v mod 2 ^ (8 * sizeof_voidp).

(** Pointers are addresses; the null pointer is 0. [heap_] is the free
    store the arena allocates its blocks from. *)
Record Arena := mk {
  alloc_ptr_ : Z;
  alloc_bytes_remaining_ : Z;
  blocks_ : list Z;
  memory_usage_ : Z;
  heap_ : store
}.

Definition new (h : store) : Arena := mk 0 0 [] 0 h.

Definition MemoryUsage (a : Arena) : Z := memory_usage_ a.

Definition AllocateNewBlock (block_bytes : Z) (a : Arena) : Z * Arena :=
  let (result, h) := new_char_array block_bytes (heap_ a) in
  (result,
   mk (alloc_ptr_ a) (alloc_bytes_remaining_ a) (blocks_ a ++ [result])
      (size_t (memory_usage_ a + size_t (block_bytes + sizeof_voidp))) h).

Definition AllocateFallback (bytes : Z) (a : Arena) : Z * Arena :=
  if kBlockSize / 4 <? bytes then
    AllocateNewBlock bytes a
  else
    let (block, a1) := AllocateNewBlock kBlockSize a in
    let result := block in
    (result,
     mk (block + bytes) (kBlockSize - bytes) (blocks_ a1) (memory_usage_ a1) (heap_ a1)).

(** [Allocate] asserts [bytes > 0]. *)
Definition Allocate (bytes : Z) (a : Arena) : option (Z * Arena) :=
  if bytes <=? 0 then None
  else if bytes <=? alloc_bytes_remaining_ a then
    let result := alloc_ptr_ a in
    Some (result,
          mk (alloc_ptr_ a + bytes) (alloc_bytes_remaining_ a - bytes)
             (blocks_ a) (memory_usage_ a) (heap_ a))
  else Some (AllocateFallback bytes a).

Definition align : Z := if 8 <? sizeof_voidp then sizeof_voidp else 8.

Definition AllocateAligned (bytes : Z) (a : Arena) : Z * Arena :=
  let current_mod := Z.land (alloc_ptr_ a) (align - 1) in
  let slop := if current_mod =? 0 then 0 else align - current_mod in
  let needed := size_t (bytes + slop) in
  if needed <=? alloc_bytes_remaining_ a then
    let result := alloc_ptr_ a + slop in
    (result,
     mk (alloc_ptr_ a + needed) (alloc_bytes_remaining_ a - needed)
        (blocks_ a) (memory_usage_ a) (heap_ a))
  else AllocateFallback bytes a.

(** A sequence of allocations, each served in the state the previous one
    left. *)
Inductive request := Plain (bytes : Z) | Aligned (bytes : Z).

Fixpoint serve (reqs : list request) (a : Arena) : option (list Z * Arena) :=
  match reqs with
  | [] => Some ([], a)
  | Plain bytes :: reqs' =>
      '(p, a1) ← Allocate bytes a;
      '(ps, a2) ← serve reqs' a1;
      Some (p :: ps, a2)
  | Aligned bytes :: reqs' =>
      let (p, a1) := AllocateAligned bytes a in
      '(ps, a2) ← serve reqs' a1;
      Some (p :: ps, a2)
  end.

(** [static_assert((align & (align - 1)) == 0)]: the pointer size is a power
    of two. *)
Hypothesis pointer_size_pow2 : ∃ k, 0 ≤ k ∧ sizeof_voidp = 2 ^ k.

(** The free store hands out storage aligned for every object that fits it;
    the arena only ever asks for more than a quarter of a block. *)
Hypothesis new_is_aligned :
  ∀ n h, kBlockSize / 4 < n → (new_char_array n h).1 mod align = 0.

Lemma align_pow2 : ∃ k, 0 ≤ k ∧ align = 2 ^ k.
Proof.
  unfold align. destruct (Z.ltb_spec 8 sizeof_voidp); [exact pointer_size_pow2|].
  exists 3. split; [lia|reflexivity].
Qed.

Lemma align_pos : 0 < align.
Proof. unfold align. destruct (Z.ltb_spec 8 sizeof_voidp); lia. Qed.

Lemma land_align p : Z.land p (align - 1) = p mod align.
Proof.
  destruct align_pow2 as (k & Hk & ->).
  rewrite <- Z.land_ones by done. f_equal. rewrite Z.ones_equiv. lia.
Qed.

Lemma bumped_is_aligned p :
  (p + (if Z.land p (align - 1) =? 0 then 0 else align - Z.land p (align - 1))) mod align = 0.
Proof.
  pose proof align_pos as Hpos. rewrite land_align.
  destruct (Z.eqb_spec (p mod align) 0) as [H0|Hne].
  - by rewrite Z.add_0_r.
  - replace (p + (align - p mod align)) with ((p / align + 1) * align).
    + apply Z_mod_mult.
    + pose proof (Z.div_mod p align). lia.
Qed.

Lemma AllocateFallback_aligned bytes a :
  (AllocateFallback bytes a).1 mod align = 0.
Proof.
  unfold AllocateFallback, AllocateNewBlock.
  destruct (Z.ltb_spec (kBlockSize / 4) bytes) as [Hbig|Hsmall].
  - pose proof (new_is_aligned bytes (heap_ a) Hbig) as H.
    by destruct (new_char_array bytes (heap_ a)).
  - pose proof (new_is_aligned kBlockSize (heap_ a)) as H.
    destruct (new_char_array kBlockSize (heap_ a)). simpl in *. apply H. reflexivity.
Qed.

Lemma AllocateAligned_aligned bytes a :
  (AllocateAligned bytes a).1 mod align = 0.
Proof.
  unfold AllocateAligned.
  destruct (Z.leb_spec
              (size_t (bytes + (if Z.land (alloc_ptr_ a) (align - 1) =? 0 then 0
                                else align - Z.land (alloc_ptr_ a) (align - 1))))
              (alloc_bytes_remaining_ a)).
  - apply bumped_is_aligned.
  - apply AllocateFallback_aligned.
Qed.

(** Along any sequence of allocations, every address an aligned request
    received is aligned. *)
Lemma serve_aligned reqs : ∀ a ps a',
  serve reqs a = Some (ps, a') →
  ∀ (i : nat) bytes p,
    reqs !! i = Some (Aligned bytes) → ps !! i = Some p → p mod align = 0.
Proof.
  induction reqs as [|req reqs IH]; intros a ps a' Hserve i bytes p Hreq Hp; [done|].
  simpl in Hserve. destruct req as [n|n].
  - destruct (Allocate n a) as [[p0 a1]|]; [|done]. simpl in Hserve.
    destruct (serve reqs a1) as [[ps1 a2]|] eqn:Hrest; [|done]. simpl in Hserve.
    injection Hserve as <- <-. destruct i as [|i]; [done|].
    by apply (IH a1 ps1 a2 Hrest i bytes p).
  - pose proof (AllocateAligned_aligned n a) as Hal.
    destruct (AllocateAligned n a) as [p0 a1]. simpl in Hal.
    destruct (serve reqs a1) as [[ps1 a2]|] eqn:Hrest; [|done]. simpl in Hserve.
    injection Hserve as <- <-. destruct i as [|i].
    + simpl in Hp. by injection Hp as <-.
    + by apply (IH a1 ps1 a2 Hrest i bytes p).
Qed.

(** C9. In any state of the arena, hence after any sequence of allocations,
    [AllocateAligned(bytes)] with [bytes > 0] returns an address that is a
    multiple of [align = max(sizeof(void* ), 8)], equivalently one whose bits
    below [align] are zero (the low three bits when pointers take eight
    bytes), both when the request is carved from the current block and when
    it falls back to a fresh block of the free store. *)
Theorem AllocateAligned_returns_aligned (bytes : Z) (a : Arena) :
  0 < bytes →
  let result := (AllocateAligned bytes a).1 in
  let slop := if Z.land (alloc_ptr_ a) (align - 1) =? 0 then 0
              else align - Z.land (alloc_ptr_ a) (align - 1) in
  result mod align = 0 ∧ Z.land result (align - 1) = 0 ∧
  (size_t (bytes + slop) ≤ alloc_bytes_remaining_ a → result = alloc_ptr_ a + slop) ∧
  (alloc_bytes_remaining_ a < size_t (bytes + slop) → result = (AllocateFallback bytes a).1).
Proof.
  intros _ result slop. subst result.
  split; [apply AllocateAligned_aligned|].
  split; [rewrite land_align; apply AllocateAligned_aligned|].
  unfold AllocateAligned. fold slop.
  destruct (Z.leb_spec (size_t (bytes + slop)) (alloc_bytes_remaining_ a)); split; intros; (done || lia).
Qed.

End WithPlatform.

(** *** A free store for examples *)

(** Blocks are laid out one after the other, each starting on a 16-byte
    boundary; the state counts the 16-byte units handed out so far. *)
Definition bump_store : FreeStore := {|
  store := Z;
  new_char_array := λ n units, (16 * units, units + (n + 15) / 16)
|}.

Lemma bump_store_aligned n (h : store (FreeStore := bump_store)) :
  kBlockSize / 4 < n → (new_char_array (FreeStore := bump_store) n h).1 mod align 8 = 0.
Proof.
  intros _. simpl. unfold align. simpl.
  replace (16 * h) with (2 * h * 8) by lia. apply Z_mod_mult.
Qed.

Lemma eight_is_pow2 : ∃ k, 0 ≤ k ∧ 8 = 2 ^ k.
Proof. exists 3. split; [lia|reflexivity]. Qed.

Definition fresh : Arena (free_store := bump_store) := new (free_store := bump_store) 256.

(** An unaligned request of 3 bytes, then aligned requests: the first comes
    from the current block after 5 bytes of padding, the second is too large
    for the block and gets its own. *)
Example serve_three :
  fst <$> serve 8 (free_store := bump_store) [Plain 3; Aligned 10; Aligned 5000] fresh
  = Some [4096; 4104; 8192].
Proof. reflexivity. Qed.

(** The arena after [Allocate(3)] on a fresh arena. *)
Definition after_three : Arena (free_store := bump_store) :=
  mk (free_store := bump_store) 4099 4093 [4096] 4104 512.

Example serve_one :
  serve 8 (free_store := bump_store) [Plain 3] fresh = Some ([4096], after_three).
Proof. reflexivity. Qed.

Lemma AllocateAligned_witness :
  (AllocateAligned 8 (free_store := bump_store) 10 after_three).1 mod align 8 = 0 ∧
  Z.land (AllocateAligned 8 (free_store := bump_store) 10 after_three).1 (align 8 - 1) = 0 ∧
  (AllocateAligned 8 (free_store := bump_store) 5000 after_three).1 mod align 8 = 0.
Proof.
  assert (H3 : 0 < 10) by lia. assert (H4 : 0 < 5000) by lia.
  destruct (AllocateAligned_returns_aligned 8 (free_store := bump_store)
              eight_is_pow2 bump_store_aligned 10 after_three H3) as (Ha & Hb & _).
  destruct (AllocateAligned_returns_aligned 8 (free_store := bump_store)
              eight_is_pow2 bump_store_aligned 5000 after_three H4) as (Hc & _).
  split; [exact Ha|]. split; [exact Hb|exact Hc].
Defined.

End ArenaAlloc.

(** ** Block handles and the footer ([table/format.h]) *)

Module BlockHandle.
Import Coding.

(** Modelled from the spec: "Block handle. [{offset: varint64, size:
    varint64}]" ([table/format.{h,cc}] are not part of the sources at hand).
    A handle that was never set holds all-ones in both fields. *)
Record t := mk { offset_ : Z; size_ : Z }.

Definition unset : t := mk (2 ^ 64 - 1) (2 ^ 64 - 1).

Definition set_offset (offset : Z) (h : t) : t := mk offset (size_ h).
Definition set_size (size : Z) (h : t) : t := mk (offset_ h) size.

(** Modelled from the spec: [EncodeTo] appends the offset and the size, each
    as a varint64. *)
Definition EncodeTo (dst : list byte) (h : t) : list byte :=
  PutVarint64 (PutVarint64 dst (offset_ h)) (size_ h).

End BlockHandle.

Module Footer.
Import Coding.

(** Modelled from the spec: "Footer. Exactly 48 bytes at end of file:
    [metaindex_handle (≤ 20 bytes, varint-encoded, zero-padded) ||
    index_handle (≤ 20 bytes, same) || magic (8 bytes, fixed constant =
    0xdb4775248b80fb57)]". *)
Record t := mk { metaindex_handle_ : BlockHandle.t; index_handle_ : BlockHandle.t }.

Definition kTableMagicNumber : Z := 0xdb4775248b80fb57.

Definition pad_to (n : nat) (l : list byte) : list byte :=
  take n (l ++ replicate n Byte.x00).

(** Modelled from the spec: [EncodeTo] appends the 48 bytes of the footer. *)
Definition EncodeTo (dst : list byte) (f : t) : list byte :=
  PutFixed64
    (dst ++ pad_to 20 (BlockHandle.EncodeTo [] (metaindex_handle_ f))
         ++ pad_to 20 (BlockHandle.EncodeTo [] (index_handle_ f)))
    kTableMagicNumber.

End Footer.

(** ** The options the builder reads ([leveldb/options.h]) *)

Inductive CompressionType := kNoCompression | kSnappyCompression.

(** The byte stored for a compression type: [0x0] and [0x1]. *)
Definition type_byte (type : CompressionType) : byte :=
  match type with kNoCompression => Byte.x00 | kSnappyCompression => Byte.x01 end.

Record Options := mkOptions {
  comparator : Comparator;
  filter_policy : option Policy.FilterPolicy;
  block_size : Z;
  block_restart_interval : Z;
  compression : CompressionType
}.

(** ** [table/block_builder.h] *)

Module BlockBuilder.
Import Coding.

(** The fields are those of the header.  The member functions are
    modelled from the spec (section 4.1, "Builder"): [table/block_builder.cc]
    is not part of the sources at hand. *)
Record t := mk {
  buffer_ : list byte;
  restarts_ : list Z;
  counter_ : Z;
  finished_ : bool;
  last_key_ : list byte
}.

(** Modelled from the spec: "[Reset] empties state"; the first restart point
    is offset 0 ("[restart_offsets[0] = 0]"). *)
Definition Reset (b : t) : t := mk [] [0] 0 false [].

(** Modelled from the spec: a new builder is in the state [Reset] leaves. *)
Definition new : t := mk [] [0] 0 false [].

(** "Return true iff no entries have been added since the last Reset()" *)
Definition empty (b : t) : bool := bool_decide (buffer_ b = []).

(** Modelled from the spec: "the payload size including the to-be-appended
    restart array": the records, four bytes per restart point, four bytes
    for their number. *)
Definition CurrentSizeEstimate (b : t) : Z :=
  size (buffer_ b) + Z.of_nat (length (restarts_ b)) * 4 + 4.

Fixpoint shared_prefix (a b : list byte) : nat :=
  match a, b with
  | x :: a', y :: b' => if Byte.eqb x y then S (shared_prefix a' b') else O
  | _, _ => O
  end.

(** Modelled from the spec: "[Add(key, value)] requires [key > last_key] by
    comparator.  Every [block_restart_interval] records the builder emits a
    restart: it forces [shared_len = 0], pushes the current offset into the
    restart array, resets the intra-group counter"; a record is
    "[shared_len | non_shared_len | value_len | key_delta | value], all
    integer fields as unsigned varints"; after [Finish], "further [Add] is
    rejected until [Reset]".  A rejected call yields nothing. *)
Definition Add (options_ : Options) (key value : Slice) (b : t) : option t :=
  if finished_ b then None
  else if negb (empty b) && negb (0 <? @Compare (comparator options_) key (last_key_ b)) then None
  else
    let restart := negb (counter_ b <? block_restart_interval options_) in
    let shared := if restart then 0 else Z.of_nat (shared_prefix (last_key_ b) key) in
    let restarts := if restart then restarts_ b ++ [u32 (size (buffer_ b))] else restarts_ b in
    let counter := if restart then 0 else counter_ b in
    let non_shared := size key - shared in
    let buffer1 := PutVarint32 (buffer_ b) shared in
    let buffer2 := PutVarint32 buffer1 non_shared in
    let buffer3 := PutVarint32 buffer2 (size value) in
    let buffer4 := buffer3 ++ drop (Z.to_nat shared) key ++ value in
    Some (mk buffer4 restarts (counter + 1) false key).

(** Modelled from the spec: "[Finish] appends restart offsets and count,
    returns the payload slice". *)
Definition Finish (b : t) : t * Slice :=
  let buffer1 := foldl PutFixed32 (buffer_ b) (restarts_ b) in
  let buffer2 := PutFixed32 buffer1 (Z.of_nat (length (restarts_ b))) in
  (mk buffer2 (restarts_ b) (counter_ b) true (last_key_ b), buffer2).

Lemma Reset_empty b : empty (Reset b) = true.
Proof. reflexivity. Qed.

Lemma EncodeVarint_nonempty n v : Coding.EncodeVarint n v ≠ [].
Proof. destruct n; simpl; [done|]. by destruct (v <? 128). Qed.

Lemma Add_not_empty options_ key value b b' :
  Add options_ key value b = Some b' → empty b' = false.
Proof.
  unfold Add. destruct (finished_ b); [done|].
  destruct (negb (empty b) && _); [done|].
  intros [= <-]. unfold empty. simpl. apply bool_decide_eq_false.
  unfold PutVarint32. rewrite <- !app_assoc.
  intros H. apply app_eq_nil in H as [_ H]. apply app_eq_nil in H as [H _].
  by apply EncodeVarint_nonempty in H.
Qed.

End BlockBuilder.

(** ** The file and the compressor the builder writes through *)

(** [WritableFile] ([leveldb/env.h]): [Append] and [Flush] return a status
    and leave the file in a new state. *)
Module Env.

Class WritableFile := {
  file_state : Type;
  Append : Slice → file_state → Status * file_state;
  Flush : file_state → Status * file_state
}.

End Env.

(** [port::Snappy_Compress]: the compressed form, or nothing when the
    call returns [false]. *)
Class Port := {
  Snappy_Compress : Slice → option Slice
}.

(** ** [table/table_builder.cc] *)

Module TableBuilder.
Import Coding.

Definition kBlockTrailerSize : Z := 5.

Section WithEnv.
Context {writable_file : Env.WritableFile} {port : Port}.

(** [TableBuilder::Rep].  [blocks_flushed] is not a member of the struct: it
    counts the data blocks [Flush] has written with success, so that
    properties can speak of them. *)
Record Rep := mkRep {
  options : Options;
  index_block_options : Options;
  file : Env.file_state;
  offset : Z;
  status : Status;
  data_block : BlockBuilder.t;
  index_block : BlockBuilder.t;
  last_key : list byte;
  num_entries : Z;
  closed : bool;
  filter_block : option FilterBlockBuilder.t;
  pending_index_entry : bool;
  pending_handle : BlockHandle.t;
  compressed_output : list byte;
  blocks_flushed : nat
}.

Definition set_options (o io : Options) (r : Rep) : Rep :=
  mkRep o io (file r) (offset r) (status r) (data_block r) (index_block r)
        (last_key r) (num_entries r) (closed r) (filter_block r) (pending_index_entry r)
        (pending_handle r) (compressed_output r) (blocks_flushed r).
Definition set_file (s : Status) (f : Env.file_state) (r : Rep) : Rep :=
  mkRep (options r) (index_block_options r) f (offset r) s (data_block r) (index_block r)
        (last_key r) (num_entries r) (closed r) (filter_block r) (pending_index_entry r)
        (pending_handle r) (compressed_output r) (blocks_flushed r).
Definition set_offset (o : Z) (r : Rep) : Rep :=
  mkRep (options r) (index_block_options r) (file r) o (status r) (data_block r) (index_block r)
        (last_key r) (num_entries r) (closed r) (filter_block r) (pending_index_entry r)
        (pending_handle r) (compressed_output r) (blocks_flushed r).
Definition set_data_block (b : BlockBuilder.t) (r : Rep) : Rep :=
  mkRep (options r) (index_block_options r) (file r) (offset r) (status r) b (index_block r)
        (last_key r) (num_entries r) (closed r) (filter_block r) (pending_index_entry r)
        (pending_handle r) (compressed_output r) (blocks_flushed r).
Definition set_index_block (b : BlockBuilder.t) (r : Rep) : Rep :=
  mkRep (options r) (index_block_options r) (file r) (offset r) (status r) (data_block r) b
        (last_key r) (num_entries r) (closed r) (filter_block r) (pending_index_entry r)
        (pending_handle r) (compressed_output r) (blocks_flushed r).
Definition set_last_key (k : list byte) (r : Rep) : Rep :=
  mkRep (options r) (index_block_options r) (file r) (offset r) (status r) (data_block r)
        (index_block r) k (num_entries r) (closed r) (filter_block r) (pending_index_entry r)
        (pending_handle r) (compressed_output r) (blocks_flushed r).
Definition set_num_entries (n : Z) (r : Rep) : Rep :=
  mkRep (options r) (index_block_options r) (file r) (offset r) (status r) (data_block r)
        (index_block r) (last_key r) n (closed r) (filter_block r) (pending_index_entry r)
        (pending_handle r) (compressed_output r) (blocks_flushed r).
Definition set_closed (c : bool) (r : Rep) : Rep :=
  mkRep (options r) (index_block_options r) (file r) (offset r) (status r) (data_block r)
        (index_block r) (last_key r) (num_entries r) c (filter_block r) (pending_index_entry r)
        (pending_handle r) (compressed_output r) (blocks_flushed r).
Definition set_filter_block (fb : option FilterBlockBuilder.t) (r : Rep) : Rep :=
  mkRep (options r) (index_block_options r) (file r) (offset r) (status r) (data_block r)
        (index_block r) (last_key r) (num_entries r) (closed r) fb (pending_index_entry r)
        (pending_handle r) (compressed_output r) (blocks_flushed r).
Definition set_pending_index_entry (p : bool) (r : Rep) : Rep :=
  mkRep (options r) (index_block_options r) (file r) (offset r) (status r) (data_block r)
        (index_block r) (last_key r) (num_entries r) (closed r) (filter_block r) p
        (pending_handle r) (compressed_output r) (blocks_flushed r).
Definition set_pending_handle (h : BlockHandle.t) (r : Rep) : Rep :=
  mkRep (options r) (index_block_options r) (file r) (offset r) (status r) (data_block r)
        (index_block r) (last_key r) (num_entries r) (closed r) (filter_block r)
        (pending_index_entry r) h (compressed_output r) (blocks_flushed r).
Definition set_compressed_output (c : list byte) (r : Rep) : Rep :=
  mkRep (options r) (index_block_options r) (file r) (offset r) (status r) (data_block r)
        (index_block r) (last_key r) (num_entries r) (closed r) (filter_block r)
        (pending_index_entry r) (pending_handle r) c (blocks_flushed r).
Definition count_flushed (r : Rep) : Rep :=
  mkRep (options r) (index_block_options r) (file r) (offset r) (status r) (data_block r)
        (index_block r) (last_key r) (num_entries r) (closed r) (filter_block r)
        (pending_index_entry r) (pending_handle r) (compressed_output r) (S (blocks_flushed r)).

Definition index_options_of (opt : Options) : Options :=
  mkOptions (comparator opt) (filter_policy opt) (block_size opt) 1 (compression opt).

(** [Rep::Rep] followed by the body of [TableBuilder::TableBuilder], which
    starts the first filter at offset 0. *)
Definition new (opt : Options) (f : Env.file_state) : option Rep :=
  let r := mkRep opt (index_options_of opt) f 0 OK BlockBuilder.new BlockBuilder.new
                 [] 0 false (FilterBlockBuilder.new <$> filter_policy opt) false
                 BlockHandle.unset [] 0 in
  match filter_block r with
  | Some fb => fb' ← FilterBlockBuilder.StartBlock 0 fb; Some (set_filter_block (Some fb') r)
  | None => Some r
  end.

(** Comparators are compared by address in [ChangeOptions]; [same_comparator]
    stands for that test. *)
Definition ChangeOptions (same_comparator : bool) (opt : Options) (r : Rep) : Status * Rep :=
  if negb same_comparator then
    (InvalidArgument "changing comparator while building table", r)
  else (OK, set_options opt (index_options_of opt) r).

Definition ok_ (r : Rep) : bool := ok (status r).

Definition WriteRawBlock (block_contents : Slice) (type : CompressionType) (r : Rep)
  : Rep * BlockHandle.t :=
  let handle := BlockHandle.mk (offset r) (size block_contents) in
  let (s1, f1) := Env.Append block_contents (file r) in
  let r1 := set_file s1 f1 r in
  if ok s1 then
    let trailer0 := type_byte type in
    let crc := crc32c.Value block_contents in
    let crc := crc32c.Extend crc [trailer0] in
    let trailer := trailer0 :: EncodeFixed32 (crc32c.Mask crc) in
    let (s2, f2) := Env.Append trailer f1 in
    let r2 := set_file s2 f2 r1 in
    if ok s2 then
      (set_offset (u64 (offset r2 + size block_contents + kBlockTrailerSize)) r2, handle)
    else (r2, handle)
  else (r1, handle).

(** [WriteBlock(block, handle)] asserts [ok()].  The block it is given
    ([&r->data_block], [&r->index_block] or a local) comes back reset, next
    to the handle that was filled in. *)
Definition WriteBlock (block : BlockBuilder.t) (r : Rep)
  : option (Rep * BlockBuilder.t * BlockHandle.t) :=
  if negb (ok_ r) then None
  else
    let (block1, raw) := BlockBuilder.Finish block in
    let type := compression (options r) in
    let '(r1, block_contents, type) :=
      match type with
      | kNoCompression => (r, raw, type)
      | kSnappyCompression =>
          match Snappy_Compress raw with
          | Some compressed =>
              let r1 := set_compressed_output compressed r in
              if size compressed <? size raw - size raw / 8
              then (r1, compressed, type)
              else (r1, raw, kNoCompression)
          | None => (r, raw, kNoCompression)
          end
      end in
    let (r2, handle) := WriteRawBlock block_contents type r1 in
    let r3 := set_compressed_output [] r2 in
    Some (r3, BlockBuilder.Reset block1, handle).

(** [Flush] asserts [!closed] and, past the early returns,
    [!pending_index_entry]. *)
Definition Flush (r : Rep) : option Rep :=
  if closed r then None
  else if negb (ok_ r) then Some r
  else if BlockBuilder.empty (data_block r) then Some r
  else if pending_index_entry r then None
  else
    '(r1, block, handle) ← WriteBlock (data_block r) r;
    let r2 := set_pending_handle handle (set_data_block block r1) in
    let r3 :=
      if ok_ r2 then
        let r' := count_flushed (set_pending_index_entry true r2) in
        let (s, f) := Env.Flush (file r') in
        set_file s f r'
      else r2 in
    match filter_block r3 with
    | Some fb =>
        fb' ← FilterBlockBuilder.StartBlock (offset r3) fb;
        Some (set_filter_block (Some fb') r3)
    | None => Some r3
    end.

(** [Add] asserts [!closed], that keys arrive in increasing order, and that
    a pending index entry finds the data block empty. *)
Definition Add (key value : Slice) (r : Rep) : option Rep :=
  if closed r then None
  else if negb (ok_ r) then Some r
  else if (0 <? num_entries r)
          && negb (0 <? @Compare (comparator (options r)) key (last_key r)) then None
  else
    r1 ← (if pending_index_entry r then
            if negb (BlockBuilder.empty (data_block r)) then None
            else
              let separator :=
                @FindShortestSeparator (comparator (options r)) (last_key r) key in
              let handle_encoding := BlockHandle.EncodeTo [] (pending_handle r) in
              ib ← BlockBuilder.Add (index_block_options r) separator handle_encoding
                     (index_block r);
              Some (set_pending_index_entry false
                      (set_index_block ib (set_last_key separator r)))
          else Some r);
    let r2 :=
      match filter_block r1 with
      | Some fb => set_filter_block (Some (FilterBlockBuilder.AddKey key fb)) r1
      | None => r1
      end in
    let r3 := set_num_entries (num_entries r2 + 1) (set_last_key key r2) in
    db ← BlockBuilder.Add (options r3) key value (data_block r3);
    let r4 := set_data_block db r3 in
    let estimated_block_size := BlockBuilder.CurrentSizeEstimate (data_block r4) in
    if block_size (options r4) <=? estimated_block_size then Flush r4 else Some r4.

(** The four parts of [Finish] after the final [Flush], each guarded by
    [ok()].  The handles are the locals [filter_block_handle],
    [metaindex_block_handle] and [index_block_handle]. *)

(** [// Write filter block] *)
Definition Finish_filter_block (r : Rep) : Rep * BlockHandle.t :=
  match filter_block r with
  | Some fb =>
      if ok_ r then
        let (fb', contents) := FilterBlockBuilder.Finish fb in
        WriteRawBlock contents kNoCompression (set_filter_block (Some fb') r)
      else (r, BlockHandle.unset)
  | None => (r, BlockHandle.unset)
  end.

Definition filter_key (policy : Policy.FilterPolicy) : Slice :=
  list_byte_of_string ("filter." ++ @Policy.Name policy).

(** [// Write metaindex block].  The name of the policy is read through
    [r->options.filter_policy], a pointer that must not be null when there
    is a filter block. *)
Definition Finish_metaindex_block (filter_block_handle : BlockHandle.t) (r : Rep)
  : option (Rep * BlockHandle.t) :=
  if ok_ r then
    let meta_index_block := BlockBuilder.new in
    meta_index_block ←
      match filter_block r with
      | Some _ =>
          policy ← filter_policy (options r);
          let key := filter_key policy in
          let handle_encoding := BlockHandle.EncodeTo [] filter_block_handle in
          BlockBuilder.Add (options r) key handle_encoding meta_index_block
      | None => Some meta_index_block
      end;
    '(r', _, h) ← WriteBlock meta_index_block r;
    Some (r', h)
  else Some (r, BlockHandle.unset).

(** [// Write index block] *)
Definition Finish_index_block (r : Rep) : option (Rep * BlockHandle.t) :=
  if ok_ r then
    r1 ← (if pending_index_entry r then
            let successor := @FindShortSuccessor (comparator (options r)) (last_key r) in
            let handle_encoding := BlockHandle.EncodeTo [] (pending_handle r) in
            ib ← BlockBuilder.Add (index_block_options r) successor handle_encoding
                   (index_block r);
            Some (set_pending_index_entry false
                    (set_index_block ib (set_last_key successor r)))
          else Some r);
    '(r', ib', h) ← WriteBlock (index_block r1) r1;
    Some (set_index_block ib' r', h)
  else Some (r, BlockHandle.unset).

(** [// Write footer] *)
Definition Finish_footer (metaindex_block_handle index_block_handle : BlockHandle.t) (r : Rep)
  : Rep :=
  if ok_ r then
    let footer := Footer.mk metaindex_block_handle index_block_handle in
    let footer_encoding := Footer.EncodeTo [] footer in
    let (s, f) := Env.Append footer_encoding (file r) in
    let r1 := set_file s f r in
    if ok s then set_offset (u64 (offset r1 + size footer_encoding)) r1 else r1
  else r.

(** [Finish] returns [r->status]; the state it leaves carries it. *)
Definition Finish (r : Rep) : option Rep :=
  r0 ← Flush r;
  let r1 := set_closed true r0 in
  let (r2, filter_block_handle) := Finish_filter_block r1 in
  '(r3, metaindex_block_handle) ← Finish_metaindex_block filter_block_handle r2;
  '(r4, index_block_handle) ← Finish_index_block r3;
  Some (Finish_footer metaindex_block_handle index_block_handle r4).

(** [Abandon] asserts [!closed]. *)
Definition Abandon (r : Rep) : option Rep :=
  if closed r then None else Some (set_closed true r).

Definition NumEntries (r : Rep) : Z := u64 (num_entries r).
Definition FileSize (r : Rep) : Z := offset r.

(** Calls on a builder, and a run of them from a given state. *)
Inductive call :=
| CallAdd (key value : Slice)
| CallFlush
| CallFinish.

Definition step (c : call) (r : Rep) : option Rep :=
  match c with
  | CallAdd key value => Add key value r
  | CallFlush => Flush r
  | CallFinish => Finish r
  end.

Fixpoint run (calls : list call) (r : Rep) : option Rep :=
  match calls with
  | [] => Some r
  | c :: calls' => r' ← step c r; run calls' r'
  end.

(** The trailer of a block as the format describes it: the type byte, then
    the masked CRC-32C of the payload followed by the type byte, in four
    little-endian bytes. *)
Definition block_trailer (contents : Slice) (type : CompressionType) : list byte :=
  type_byte type
    :: EncodeFixed32 (crc32c.Mask (crc32c.Value (contents ++ [type_byte type]))).

(** What [WriteRawBlock] does to the builder, append by append. *)
Lemma WriteRawBlock_spec (contents : Slice) (type : CompressionType) (r : Rep) :
  let r' := (WriteRawBlock contents type r).1 in
  let handle := (WriteRawBlock contents type r).2 in
  let first := Env.Append contents (file r) in
  let second := Env.Append (block_trailer contents type) first.2 in
  handle = BlockHandle.mk (offset r) (size contents) ∧
  size (block_trailer contents type) = 5 ∧
  (ok first.1 = false →
   file r' = first.2 ∧ status r' = first.1 ∧ offset r' = offset r) ∧
  (ok first.1 = true →
   file r' = second.2 ∧ status r' = second.1 ∧
   (ok second.1 = false → offset r' = offset r) ∧
   (ok second.1 = true →
    offset r' = u64 (offset r + size contents + 5) ∧
    (0 ≤ offset r → offset r + size contents + 5 < 2 ^ 64 →
     offset r' = offset r + size contents + 5))).
Proof.
  unfold WriteRawBlock, block_trailer, crc32c.Value. rewrite crc32c.Extend_app. simpl.
  destruct (Env.Append contents (file r)) as [s1 f1]. simpl.
  destruct (ok s1) eqn:Hs1; simpl.
  - destruct (Env.Append _ f1) as [s2 f2]. simpl.
    destruct (ok s2) eqn:Hs2; simpl; repeat split; try done.
    intros Hnonneg Hfit. unfold u64, kBlockTrailerSize.
    apply Z.mod_small. unfold size in *. lia.
  - repeat split; done.
Qed.

(** C2. [WriteRawBlock(contents, type, handle)], from file offset [f], sets
    the handle to [{f, contents.size}] and appends [contents] to the file;
    once that append has succeeded it appends the trailer, five bytes made of
    the type byte and the little-endian masked CRC-32C of [contents] followed
    by the type byte; once both appends have succeeded the offset is
    [f + contents.size + 5] (in 64 bits).  A failed append leaves the offset
    at [f] and its status in the builder.  The status the builder held before
    the call plays no part. *)
Theorem WriteRawBlock_appends_block_and_trailer
  (contents : Slice) (type : CompressionType) (r : Rep) :
  let r' := (WriteRawBlock contents type r).1 in
  let handle := (WriteRawBlock contents type r).2 in
  let first := Env.Append contents (file r) in
  let second := Env.Append (block_trailer contents type) first.2 in
  handle = BlockHandle.mk (offset r) (size contents) ∧
  size (block_trailer contents type) = 5 ∧
  (ok first.1 = false →
   file r' = first.2 ∧ status r' = first.1 ∧ offset r' = offset r) ∧
  (ok first.1 = true →
   file r' = second.2 ∧ status r' = second.1 ∧
   (ok second.1 = false → offset r' = offset r) ∧
   (ok second.1 = true →
    offset r' = u64 (offset r + size contents + 5) ∧
    (0 ≤ offset r → offset r + size contents + 5 < 2 ^ 64 →
     offset r' = offset r + size contents + 5))).
Proof. apply WriteRawBlock_spec. Qed.

(** [WriteRawBlock] touches the file, the status and the offset only. *)
Lemma WriteRawBlock_frame (contents : Slice) (type : CompressionType) (r : Rep) :
  let r' := (WriteRawBlock contents type r).1 in
  r' = set_offset (offset r') (set_file (status r') (file r') r).
Proof.
  unfold WriteRawBlock. destruct (Env.Append contents (file r)) as [s1 f1].
  destruct (ok s1); [|done].
  destruct (Env.Append _ f1) as [s2 f2]. by destruct (ok s2).
Qed.

Lemma WriteRawBlock_compressed_output (contents : Slice) (type : CompressionType) c (r : Rep) :
  WriteRawBlock contents type (set_compressed_output c r) =
  (set_compressed_output c (WriteRawBlock contents type r).1,
   (WriteRawBlock contents type r).2).
Proof.
  unfold WriteRawBlock. simpl. destruct (Env.Append contents (file r)) as [s1 f1].
  destruct (ok s1); [|done].
  destruct (Env.Append _ f1) as [s2 f2]. by destruct (ok s2).
Qed.

(** The result of [WriteBlock] when the block went to [WriteRawBlock] as
    [contents] with compression type [type]. *)
Definition written_as (block : BlockBuilder.t) (r : Rep)
  (contents : Slice) (type : CompressionType)
  : option (Rep * BlockBuilder.t * BlockHandle.t) :=
  Some (set_compressed_output [] (WriteRawBlock contents type r).1,
        BlockBuilder.Reset (BlockBuilder.Finish block).1,
        (WriteRawBlock contents type r).2).

Lemma WriteBlock_snappy (block : BlockBuilder.t) (r : Rep) :
  compression (options r) = kSnappyCompression →
  ok_ r = true →
  let raw := (BlockBuilder.Finish block).2 in
  WriteBlock block r =
  match Snappy_Compress raw with
  | Some c => if size c <? size raw - size raw / 8
              then written_as block r c kSnappyCompression
              else written_as block r raw kNoCompression
  | None => written_as block r raw kNoCompression
  end.
Proof.
  intros Hsnappy Hok raw. unfold WriteBlock, written_as. rewrite Hok, Hsnappy. cbn [negb].
  subst raw. destruct (BlockBuilder.Finish block) as [block1 raw]. cbn [fst snd].
  destruct (Snappy_Compress raw) as [c|].
  - destruct (size c <? size raw - size raw / 8);
      rewrite WriteRawBlock_compressed_output; reflexivity.
  - destruct (WriteRawBlock raw kNoCompression r). reflexivity.
Qed.

(** C6. With Snappy compression selected, [WriteBlock] hands the block to
    [WriteRawBlock] either as the compressed bytes with type
    [kSnappyCompression], or as the raw bytes with type [kNoCompression]
    (type byte 0); the former exactly when [Snappy_Compress] succeeded and
    its output is strictly shorter than [raw.size - raw.size / 8]. *)
Theorem WriteBlock_compression_threshold (block : BlockBuilder.t) (r : Rep) :
  compression (options r) = kSnappyCompression →
  ok_ r = true →
  let raw := (BlockBuilder.Finish block).2 in
  let worthwhile c := Snappy_Compress raw = Some c ∧ size c < size raw - size raw / 8 in
  ((∃ c, worthwhile c) ∨ WriteBlock block r = written_as block r raw kNoCompression) ∧
  (∀ c, worthwhile c → WriteBlock block r = written_as block r c kSnappyCompression) ∧
  (¬ (∃ c, worthwhile c) → WriteBlock block r = written_as block r raw kNoCompression) ∧
  type_byte kNoCompression = Byte.x00.
Proof.
  intros Hsnappy Hok raw worthwhile.
  pose proof (WriteBlock_snappy block r Hsnappy Hok) as H. fold raw in H.
  assert (Hcases : (∃ c, worthwhile c) ∨ ¬ (∃ c, worthwhile c)).
  { unfold worthwhile. destruct (Snappy_Compress raw) as [c|].
    - destruct (Z.ltb_spec (size c) (size raw - size raw / 8)).
      + left. by exists c.
      + right. intros (c' & [= <-] & ?). lia.
    - right. by intros (c' & ? & ?). }
  assert (Hno : ¬ (∃ c, worthwhile c) →
                WriteBlock block r = written_as block r raw kNoCompression).
  { intros Hnot. rewrite H. destruct (Snappy_Compress raw) as [c|] eqn:Hc; [|done].
    destruct (Z.ltb_spec (size c) (size raw - size raw / 8)); [|done].
    exfalso. apply Hnot. exists c. by split. }
  split; [destruct Hcases; auto|]. split; [|by split].
  intros c [Hc Hlt]. rewrite H, Hc.
  by destruct (Z.ltb_spec (size c) (size raw - size raw / 8)); [|lia].
Qed.

(** C8. On a builder whose recorded status is not ok, [Add] and [Flush]
    change nothing: whenever they return, it is with the very state they
    were called in (entries, last key, offset, data block, index block,
    filter builder and file included), and on a builder that is not closed,
    as both calls require, they do return. *)
Theorem Add_and_Flush_rejected_after_error (key value : Slice) (r : Rep) :
  ok (status r) = false →
  (closed r = false → Add key value r = Some r ∧ Flush r = Some r) ∧
  (∀ r', Add key value r = Some r' ∨ Flush r = Some r' → r' = r).
Proof.
  intros Hbad. unfold Add, Flush, ok_. rewrite Hbad. simpl.
  destruct (closed r); split; try done.
  - by intros r' [?|?].
  - intros r' [?|?]; congruence.
Qed.

(** The equivalence of the spec: an index entry is pending exactly when the
    data block is empty and some data block has been written. *)
Definition pending_iff (r : Rep) : Prop :=
  pending_index_entry r = true ↔
  BlockBuilder.empty (data_block r) = true ∧ (0 < blocks_flushed r)%nat.

(** What holds between calls: while the builder is open and its status ok,
    the equivalence; once it is closed with status ok, no entry is pending. *)
Definition between_calls (r : Rep) : Prop :=
  ok_ r = true →
  if closed r then pending_index_entry r = false else pending_iff r.

Lemma WriteBlock_frame block r r' block' handle :
  WriteBlock block r = Some (r', block', handle) →
  BlockBuilder.empty block' = true ∧
  closed r' = closed r ∧
  pending_index_entry r' = pending_index_entry r ∧
  blocks_flushed r' = blocks_flushed r ∧
  data_block r' = data_block r ∧
  filter_block r' = filter_block r.
Proof.
  unfold WriteBlock. destruct (negb (ok_ r)); [done|].
  destruct (BlockBuilder.Finish block) as [block1 raw].
  set (choice := match compression (options r) with
                 | kNoCompression => _ | kSnappyCompression => _ end).
  assert (Hr1 : ∃ c, choice.1.1 = set_compressed_output c r).
  { subst choice. destruct (compression (options r)).
    - exists (compressed_output r). by destruct r.
    - destruct (Snappy_Compress raw) as [c|].
      + exists c. by destruct (size c <? size raw - size raw / 8).
      + exists (compressed_output r). by destruct r. }
  destruct choice as [[r1 contents] type]. simpl in Hr1. destruct Hr1 as [c ->].
  pose proof (WriteRawBlock_frame contents type (set_compressed_output c r)) as Hframe.
  simpl in Hframe.
  destruct (WriteRawBlock contents type (set_compressed_output c r)) as [r2 h].
  simpl in Hframe. intros [= <- <- <-]. rewrite Hframe. by repeat split.
Qed.

Lemma Flush_between_calls r r' :
  closed r = false → between_calls r → Flush r = Some r' →
  closed r' = false ∧ between_calls r'.
Proof.
  intros Hopen Hinv. unfold Flush. rewrite Hopen.
  destruct (ok_ r) eqn:Hok; simpl; [|by intros [= <-]].
  destruct (BlockBuilder.empty (data_block r)) eqn:Hempty; [by intros [= <-]|].
  destruct (pending_index_entry r) eqn:Hpending; [done|].
  destruct (WriteBlock (data_block r) r) as [[[r1 block] handle]|] eqn:Hwrite; [|done].
  apply WriteBlock_frame in Hwrite as (Hblock & Hclosed & _ & Hflushed & _ & _).
  simpl.
  set (r2 := set_pending_handle handle (set_data_block block r1)).
  set (r3 := if ok_ r2 then _ else r2).
  assert (Hr3 : closed r3 = false ∧ between_calls r3).
  { subst r3. destruct (ok_ r2) eqn:Hok2.
    - destruct (Env.Flush _) as [s f]. unfold between_calls, pending_iff. simpl.
      split; [congruence|]. intros _. rewrite Hopen in Hclosed. rewrite Hclosed.
      split; [|done]. intros _. split; [done|lia].
    - split; [subst r2; simpl; congruence|].
      unfold between_calls. by rewrite Hok2. }
  destruct Hr3 as [Hopen3 Hinv3].
  destruct (filter_block r3) as [fb|]; [|by intros [= <-]].
  destruct (FilterBlockBuilder.StartBlock (offset r3) fb) as [fb'|]; [|done].
  simpl. intros [= <-]. split; [exact Hopen3|]. exact Hinv3.
Qed.

Lemma Add_between_calls key value r r' :
  closed r = false → between_calls r → Add key value r = Some r' →
  closed r' = false ∧ between_calls r'.
Proof.
  intros Hopen Hinv. unfold Add. rewrite Hopen.
  destruct (ok_ r) eqn:Hok; simpl; [|by intros [= <-]].
  destruct ((0 <? num_entries r) && _); [done|].
  set (first := if pending_index_entry r then _ else Some r).
  assert (Hfirst : ∀ r1, first = Some r1 →
            closed r1 = false ∧ pending_index_entry r1 = false ∧ ok_ r1 = true).
  { subst first. intros r1. destruct (pending_index_entry r) eqn:Hpending.
    - destruct (negb (BlockBuilder.empty (data_block r))); [done|].
      destruct (BlockBuilder.Add _ _ _ _) as [ib|]; [|done].
      simpl. by intros [= <-].
    - by intros [= <-]. }
  destruct first as [r1|]; [|done]. destruct (Hfirst r1 eq_refl) as (Hopen1 & Hpending1 & Hok1).
  simpl.
  set (r2 := match filter_block r1 with Some _ => _ | None => r1 end).
  assert (Hr2 : closed r2 = false ∧ pending_index_entry r2 = false ∧ ok_ r2 = true).
  { subst r2. by destruct (filter_block r1). }
  destruct Hr2 as (Hopen2 & Hpending2 & Hok2).
  set (r3 := set_num_entries (num_entries r2 + 1) (set_last_key key r2)).
  destruct (BlockBuilder.Add (options r2) key value (data_block r2)) as [db|] eqn:Hdb; [|done].
  apply BlockBuilder.Add_not_empty in Hdb. simpl.
  set (r4 := set_data_block db r3).
  assert (Hr4 : closed r4 = false ∧ between_calls r4).
  { split; [done|]. unfold between_calls, pending_iff. simpl.
    rewrite Hopen2, Hpending2, Hdb. intros _. split; [done|]. by intros [? _]. }
  destruct Hr4 as [Hopen4 Hinv4].
  destruct (block_size (options r2) <=? BlockBuilder.CurrentSizeEstimate db).
  - by apply Flush_between_calls.
  - by intros [= <-].
Qed.

Lemma Finish_filter_block_closed r :
  closed (Finish_filter_block r).1 = closed r.
Proof.
  unfold Finish_filter_block. destruct (filter_block r) as [fb|]; [|done].
  destruct (ok_ r); [|done].
  destruct (FilterBlockBuilder.Finish fb) as [fb' contents].
  by rewrite WriteRawBlock_frame.
Qed.

Lemma Finish_metaindex_block_closed h r r' h' :
  Finish_metaindex_block h r = Some (r', h') → closed r' = closed r.
Proof.
  unfold Finish_metaindex_block. destruct (ok_ r); [|by intros [= <- _]].
  destruct (match filter_block r with Some _ => _ | None => _ end) as [meta|]; [|done].
  simpl. destruct (WriteBlock meta r) as [[[r1 b1] h1]|] eqn:Hw; [|done].
  apply WriteBlock_frame in Hw as (_ & Hc & _). simpl. by intros [= <- _].
Qed.

Lemma Finish_index_block_clears r r' h' :
  Finish_index_block r = Some (r', h') →
  closed r' = closed r ∧ (ok_ r' = true → pending_index_entry r' = false).
Proof.
  unfold Finish_index_block. destruct (ok_ r) eqn:Hok.
  - set (r1opt := if pending_index_entry r then _ else Some r).
    assert (H1 : ∀ r1, r1opt = Some r1 →
              closed r1 = closed r ∧ pending_index_entry r1 = false).
    { subst r1opt. intros r1. destruct (pending_index_entry r) eqn:Hp.
      - destruct (BlockBuilder.Add _ _ _ _); [|done]. simpl. by intros [= <-].
      - by intros [= <-]. }
    destruct r1opt as [r1|]; [|done]. destruct (H1 r1 eq_refl) as [Hc1 Hp1]. simpl.
    destruct (WriteBlock (index_block r1) r1) as [[[r2 ib] h]|] eqn:Hw; [|done].
    apply WriteBlock_frame in Hw as (_ & Hc & Hp & _). simpl.
    intros [= <- _]. simpl. split; [congruence|]. intros _. congruence.
  - intros [= <- _]. split; [done|]. congruence.
Qed.

Lemma Finish_footer_frame mh ih r :
  closed (Finish_footer mh ih r) = closed r ∧
  pending_index_entry (Finish_footer mh ih r) = pending_index_entry r ∧
  (ok_ (Finish_footer mh ih r) = true → ok_ r = true).
Proof.
  unfold Finish_footer. destruct (ok_ r) eqn:Hok; [|repeat split; congruence].
  destruct (Env.Append _ (file r)) as [s f]. by destruct (ok s).
Qed.

Lemma Finish_between_calls r r' :
  Finish r = Some r' → closed r' = true ∧ between_calls r'.
Proof.
  unfold Finish. destruct (Flush r) as [r0|]; [|done]. simpl.
  pose proof (Finish_filter_block_closed (set_closed true r0)) as H2.
  destruct (Finish_filter_block (set_closed true r0)) as [r2 fh]. simpl in H2.
  destruct (Finish_metaindex_block fh r2) as [[r3 mh]|] eqn:H3; [|done].
  apply Finish_metaindex_block_closed in H3. simpl.
  destruct (Finish_index_block r3) as [[r4 ih]|] eqn:H4; [|done].
  apply Finish_index_block_clears in H4 as [Hc4 Hp4]. simpl.
  destruct (Finish_footer_frame mh ih r4) as (Hc & Hp & Hok).
  intros [= <-]. split; [congruence|].
  unfold between_calls. intros Hok'. rewrite Hc, Hc4, H3, H2, Hp. by apply Hp4, Hok.
Qed.

Lemma step_between_calls c r r' :
  closed r = false → between_calls r → step c r = Some r' → between_calls r'.
Proof.
  intros Hopen Hinv. destruct c as [key value| |]; simpl; intros Hstep.
  - by apply (Add_between_calls key value r r').
  - by apply (Flush_between_calls r r').
  - by apply (Finish_between_calls r r').
Qed.

Lemma step_needs_open c r : closed r = true → step c r = None.
Proof.
  intros Hclosed. destruct c; simpl; unfold Add, Flush, Finish, Flush; by rewrite Hclosed.
Qed.

Lemma run_between_calls calls : ∀ r r',
  between_calls r → run calls r = Some r' → between_calls r'.
Proof.
  induction calls as [|c calls IH]; intros r r' Hinv; simpl; [by intros [= <-]|].
  destruct (closed r) eqn:Hclosed; [by rewrite step_needs_open|].
  destruct (step c r) as [r1|] eqn:Hstep; [|done]. simpl.
  apply IH. by apply (step_between_calls c r r1).
Qed.

Lemma new_between_calls opt f r : new opt f = Some r → between_calls r.
Proof.
  unfold new. simpl. intros Hnew.
  assert (closed r = false ∧ pending_index_entry r = false ∧ blocks_flushed r = 0%nat)
    as (Hc & Hp & Hf).
  { destruct (FilterBlockBuilder.new <$> filter_policy opt) as [fb|].
    - destruct (FilterBlockBuilder.StartBlock 0 fb); [|done]. simpl in Hnew.
      by injection Hnew as <-.
    - by injection Hnew as <-. }
  unfold between_calls, pending_iff. rewrite Hc, Hp, Hf. intros _.
  split; [done|]. intros [_ ?]. lia.
Qed.

(** C4, as the code has it.  After any calls of [Add], [Flush] and [Finish]
    on a new builder that leave its status ok: while the builder is open (no
    [Finish] yet), an index entry is pending if and only if the data block is
    empty and at least one data block has been written; once [Finish] has
    closed it, no index entry is pending. *)
Theorem pending_index_entry_between_calls
  (opt : Options) (f : Env.file_state) (calls : list call) (r0 r : Rep) :
  new opt f = Some r0 →
  run calls r0 = Some r →
  ok (status r) = true →
  (closed r = false → pending_iff r) ∧
  (closed r = true → pending_index_entry r = false).
Proof.
  intros Hnew Hrun Hok.
  pose proof (run_between_calls calls r0 r (new_between_calls opt f r0 Hnew) Hrun Hok) as H.
  split; intros Hc; by rewrite Hc in H.
Qed.

End WithEnv.
End TableBuilder.

(** ** A file in memory and toy compressors, for concrete runs *)

Module MemEnv.

(** A file that keeps what was appended and refuses an append that would
    take it past [capacity]. *)
Record MemFile := mk { written : list byte; capacity : Z }.

Definition mem_file : Env.WritableFile := {|
  Env.file_state := MemFile;
  Env.Append := λ data f,
    if size (written f) + size data <=? capacity f
    then (OK, mk (written f ++ data) (capacity f))
    else (IOError "no space left", f);
  Env.Flush := λ f, (OK, f)
|}.

(** A build without the Snappy library: the call returns [false]. *)
Definition no_snappy : Port := {| Snappy_Compress := λ _, None |}.

(** A compressor, for the sake of the size test only: it keeps one byte of
    every run of equal bytes. *)
Fixpoint squeeze (l : list byte) : list byte :=
  match l with
  | [] => []
  | x :: l' =>
      match l' with
      | y :: _ => if Byte.eqb x y then squeeze l' else x :: squeeze l'
      | [] => [x]
      end
  end.

Definition squeezing : Port := {| Snappy_Compress := λ raw, Some (squeeze raw) |}.

Definition plain_options : Options := mkOptions PlainBytewise None 4096 16 kNoCompression.

(** Scenario E1 of the spec: keys ["a"] to ["z"], each with value ["v" + key],
    and [block_size = 30]. *)
Definition small_blocks : Options := mkOptions PlainBytewise None 30 16 kNoCompression.

Definition letters : list Slice :=
  (λ n, [byte_of_Z (97 + Z.of_nat n)]) <$> seq 0 26.

Definition add_letters : list TableBuilder.call :=
  (λ k, TableBuilder.CallAdd k (bs "v" ++ k)) <$> letters.

Definition empty_file : MemFile := mk [] 1000000.

(** A file with room for ten bytes. *)
Definition tiny_file : MemFile := mk [] 10.

Definition build_on (f : MemFile) (port : Port) (opt : Options)
  (calls : list TableBuilder.call)
  : option (TableBuilder.Rep (writable_file := mem_file)) :=
  r0 ← TableBuilder.new (writable_file := mem_file) opt f;
  TableBuilder.run (writable_file := mem_file) (port := port) calls r0.

Definition build := build_on empty_file.

(** Status, number of entries, number of data blocks written, and whether
    the file offset is the size of the file. *)
Definition summary (r : TableBuilder.Rep (writable_file := mem_file)) : Status * Z * nat * bool :=
  (TableBuilder.status r, TableBuilder.NumEntries r, TableBuilder.blocks_flushed r,
   TableBuilder.FileSize r =? size (written (TableBuilder.file r))).

Example E1_blocks :
  summary <$> build no_snappy small_blocks (add_letters ++ [TableBuilder.CallFinish])
  = Some (OK, 26, 7%nat, true).
Proof. vm_compute. reflexivity. Qed.

Definition fresh_rep (opt : Options) : TableBuilder.Rep (writable_file := mem_file) :=
  TableBuilder.mkRep (writable_file := mem_file) opt (TableBuilder.index_options_of opt)
    empty_file 0 OK BlockBuilder.new BlockBuilder.new [] 0 false None false
    BlockHandle.unset [] 0.

(** What one block leaves in the file, in the handle and in the offset. *)
Definition raw_block_effect (r : TableBuilder.Rep (writable_file := mem_file) * BlockHandle.t)
  : list byte * BlockHandle.t * Z :=
  (written (TableBuilder.file r.1), r.2, TableBuilder.offset r.1).

(** The bytes of one block as they reach the file: payload, type byte,
    masked checksum. *)
Example raw_block_on_file :
  raw_block_effect
    (TableBuilder.WriteRawBlock (bs "payload") kNoCompression (fresh_rep plain_options))
  = (bs "payload" ++ Byte.x00 :: Coding.EncodeFixed32 0x6aed30fb, BlockHandle.mk 0 7, 12).
Proof. vm_compute. reflexivity. Qed.

Lemma WriteRawBlock_witness :
  let r := fresh_rep plain_options in
  let r' := (TableBuilder.WriteRawBlock (bs "payload") kNoCompression r).1 in
  written (TableBuilder.file r')
  = bs "payload" ++ TableBuilder.block_trailer (bs "payload") kNoCompression ∧
  TableBuilder.offset r' = 12.
Proof.
  intros r r'.
  destruct (TableBuilder.WriteRawBlock_appends_block_and_trailer
              (bs "payload") kNoCompression r) as (_ & _ & _ & Hok).
  destruct (Hok eq_refl) as (Hfile & _ & _ & Hoffset).
  destruct (Hoffset eq_refl) as [_ Hexact].
  split.
  - fold r' in Hfile. rewrite Hfile. reflexivity.
  - fold r' in Hexact. rewrite Hexact; [reflexivity|done|done].
Defined.

(** C4, as the claim has it, fails after [Finish]: once ["a"] has been added
    and the table finished with status ok, the data block is empty and one
    data block has been written, yet no index entry is pending. *)
Lemma pending_iff_fails_after_Finish :
  ∃ r, build no_snappy plain_options
         [TableBuilder.CallAdd (bs "a") (bs "1"); TableBuilder.CallFinish] = Some r ∧
       ok (TableBuilder.status r) = true ∧
       TableBuilder.pending_index_entry r = false ∧
       BlockBuilder.empty (TableBuilder.data_block r) = true ∧
       TableBuilder.blocks_flushed r = 1%nat ∧
       ¬ TableBuilder.pending_iff r.
Proof.
  eexists. split; [vm_compute; reflexivity|].
  split; [reflexivity|]. split; [reflexivity|]. split; [reflexivity|]. split; [reflexivity|].
  unfold TableBuilder.pending_iff. simpl. intros [_ H].
  discriminate H. split; [reflexivity|lia].
Qed.

Lemma pending_index_entry_witness :
  ∃ r_open r_closed,
    build no_snappy small_blocks (take 8 add_letters) = Some r_open ∧
    build no_snappy small_blocks (add_letters ++ [TableBuilder.CallFinish]) = Some r_closed ∧
    TableBuilder.pending_iff r_open ∧
    TableBuilder.pending_index_entry r_open = true ∧
    TableBuilder.pending_index_entry r_closed = false.
Proof.
  eexists _, _. split; [vm_compute; reflexivity|]. split; [vm_compute; reflexivity|].
  split; [|split; reflexivity].
  eapply (TableBuilder.pending_index_entry_between_calls (writable_file := mem_file)
            (port := no_snappy) small_blocks empty_file (take 8 add_letters)).
  - reflexivity.
  - vm_compute. reflexivity.
  - reflexivity.
  - reflexivity.
Defined.

(** A block of long runs under the run-squeezing compressor. *)
Definition squeezed_options : Options := mkOptions PlainBytewise None 4096 16 kSnappyCompression.

Definition runs_block : BlockBuilder.t :=
  default BlockBuilder.new
    (BlockBuilder.Add squeezed_options (bs "aaaaaaaaaaaaaaaa") (bs "bbbbbbbbbbbbbbbb")
       BlockBuilder.new).

Lemma WriteBlock_compression_witness :
  let raw := (BlockBuilder.Finish runs_block).2 in
  size raw = 43 ∧ size (squeeze raw) = 7 ∧
  TableBuilder.WriteBlock (port := squeezing) runs_block (fresh_rep squeezed_options)
  = TableBuilder.written_as runs_block (fresh_rep squeezed_options) (squeeze raw)
      kSnappyCompression ∧
  TableBuilder.WriteBlock (port := no_snappy) runs_block (fresh_rep squeezed_options)
  = TableBuilder.written_as runs_block (fresh_rep squeezed_options) raw kNoCompression.
Proof.
  intros raw. split; [reflexivity|]. split; [reflexivity|]. split.
  - apply (TableBuilder.WriteBlock_compression_threshold (port := squeezing)
             runs_block (fresh_rep squeezed_options) eq_refl eq_refl).
    split; [reflexivity|]. vm_compute. reflexivity.
  - apply (TableBuilder.WriteBlock_compression_threshold (port := no_snappy)
             runs_block (fresh_rep squeezed_options) eq_refl eq_refl).
    intros (c & Hc & _). discriminate Hc.
Defined.

(** With room for ten bytes only, the first block cannot be written: the
    builder records the error. *)
Lemma Add_and_Flush_rejected_witness :
  ∃ r, build_on tiny_file no_snappy small_blocks (take 4 add_letters) = Some r ∧
       TableBuilder.status r = IOError "no space left" ∧
       TableBuilder.Add (port := no_snappy) (bs "e") (bs "ve") r = Some r ∧
       TableBuilder.Flush (port := no_snappy) r = Some r.
Proof.
  eexists. split; [vm_compute; reflexivity|]. split; [reflexivity|].
  eapply (TableBuilder.Add_and_Flush_rejected_after_error (writable_file := mem_file)
            (port := no_snappy) (bs "e") (bs "ve")); reflexivity.
Defined.

End MemEnv.

(** ** More on [table/table_builder.cc]: what a run of calls keeps *)

Module TableBuilderFacts.
Import Coding TableBuilder.

Section WithEnv.
Context {writable_file : Env.WritableFile} {port : Port}.

(** [WriteBlock] changes the file, the status and the offset, and leaves the
    compression scratch buffer empty; nothing else. *)
Lemma WriteBlock_changes block r r' block' handle :
  WriteBlock block r = Some (r', block', handle) →
  r' = set_compressed_output [] (set_offset (offset r') (set_file (status r') (file r') r)).
Proof.
  unfold WriteBlock. destruct (negb (ok_ r)); [done|].
  destruct (BlockBuilder.Finish block) as [block1 raw].
  set (choice := match compression (options r) with
                 | kNoCompression => _ | kSnappyCompression => _ end).
  assert (Hr1 : ∃ c, choice.1.1 = set_compressed_output c r).
  { subst choice. destruct (compression (options r)).
    - exists (compressed_output r). by destruct r.
    - destruct (Snappy_Compress raw) as [c|].
      + exists c. by destruct (size c <? size raw - size raw / 8).
      + exists (compressed_output r). by destruct r. }
  destruct choice as [[r1 contents] type]. simpl in Hr1. destruct Hr1 as [c ->].
  pose proof (WriteRawBlock_frame contents type (set_compressed_output c r)) as Hframe.
  simpl in Hframe.
  destruct (WriteRawBlock contents type (set_compressed_output c r)) as [r2 h].
  simpl in Hframe. intros [= <- <- <-]. rewrite Hframe. reflexivity.
Qed.

(** The payload and type [WriteBlock] settles on. *)
Lemma WriteBlock_written block r r' block' handle :
  WriteBlock block r = Some (r', block', handle) →
  ∃ contents type,
    r' = set_compressed_output [] (WriteRawBlock contents type r).1 ∧
    handle = (WriteRawBlock contents type r).2.
Proof.
  unfold WriteBlock. destruct (negb (ok_ r)); [done|].
  destruct (BlockBuilder.Finish block) as [block1 raw].
  set (choice := match compression (options r) with
                 | kNoCompression => _ | kSnappyCompression => _ end).
  assert (Hr1 : ∃ c, choice.1.1 = set_compressed_output c r).
  { subst choice. destruct (compression (options r)).
    - exists (compressed_output r). by destruct r.
    - destruct (Snappy_Compress raw) as [c|].
      + exists c. by destruct (size c <? size raw - size raw / 8).
      + exists (compressed_output r). by destruct r. }
  destruct choice as [[r1 contents] type]. simpl in Hr1. destruct Hr1 as [c ->].
  rewrite WriteRawBlock_compressed_output. intros [= <- <- <-].
  exists contents, type. split; reflexivity.
Qed.

(** *** An error is never cleared *)

Lemma Flush_keeps_error r r' : ok_ r = false → Flush r = Some r' → r' = r.
Proof.
  intros Hbad. unfold Flush. rewrite Hbad. destruct (closed r); [done|]. by intros [= <-].
Qed.

Lemma Finish_stages_on_error r h m i :
  ok_ r = false →
  Finish_filter_block r = (r, BlockHandle.unset) ∧
  Finish_metaindex_block h r = Some (r, BlockHandle.unset) ∧
  Finish_index_block r = Some (r, BlockHandle.unset) ∧
  Finish_footer m i r = r.
Proof.
  intros Hbad.
  unfold Finish_filter_block, Finish_metaindex_block, Finish_index_block, Finish_footer.
  rewrite Hbad. by destruct (filter_block r).
Qed.

Lemma Finish_on_error r :
  ok_ r = false → Finish r = if closed r then None else Some (set_closed true r).
Proof.
  intros Hbad. unfold Finish, Flush. rewrite Hbad. destruct (closed r); [done|]. simpl.
  assert (Hbad' : ok_ (set_closed true r) = false) by exact Hbad.
  destruct (Finish_stages_on_error (set_closed true r) BlockHandle.unset
              BlockHandle.unset BlockHandle.unset Hbad') as (H1 & H2 & H3 & H4).
  rewrite H1, H2. cbn -[Finish_index_block Finish_footer set_closed].
  rewrite H3. cbn -[Finish_footer set_closed]. by rewrite H4.
Qed.

(** X1. [Finish] on a builder whose recorded status is not ok closes it and
    does nothing else: no block, no footer is appended, the offset and the
    status stay (the status is what [Finish] returns).  On a builder already
    closed, the assertion fails. *)
Theorem Finish_after_error_only_closes (r : Rep) :
  ok (status r) = false →
  Finish r = (if closed r then None else Some (set_closed true r)) ∧
  (∀ r', Finish r = Some r' →
         file r' = file r ∧ offset r' = offset r ∧ status r' = status r ∧ closed r' = true).
Proof.
  intros Hbad. rewrite (Finish_on_error r Hbad). split; [done|].
  destruct (closed r); [done|]. by intros r' [= <-].
Qed.

Lemma step_keeps_error c r r' : ok_ r = false → step c r = Some r' → ok_ r' = false.
Proof.
  intros Hbad. destruct c as [key value| |]; simpl.
  - unfold Add. rewrite Hbad. destruct (closed r); [done|]. by intros [= <-].
  - intros H. by rewrite (Flush_keeps_error r r' Hbad H).
  - rewrite (Finish_on_error r Hbad). destruct (closed r); [done|]. by intros [= <-].
Qed.

Lemma run_keeps_error calls : ∀ r r', ok_ r = false → run calls r = Some r' → ok_ r' = false.
Proof.
  induction calls as [|c calls IH]; intros r r' Hbad; simpl; [by intros [= <-]|].
  destruct (step c r) as [r1|] eqn:Hstep; [|done]. simpl.
  apply IH. by apply (step_keeps_error c r r1).
Qed.

(** X2. Errors are sticky over whole runs: if the status is not ok at some
    point, it is not ok after any further calls of [Add], [Flush] and
    [Finish]. *)
Theorem status_error_is_sticky (calls : list call) (r r' : Rep) :
  ok (status r) = false → run calls r = Some r' → ok (status r') = false.
Proof. apply run_keeps_error. Qed.

(** *** What [Flush] and [Finish] leave alone *)

Lemma WriteRawBlock_ok contents type r :
  ok_ (WriteRawBlock contents type r).1 = true →
  let first := Env.Append contents (file r) in
  let second := Env.Append (block_trailer contents type) first.2 in
  ok first.1 = true ∧ ok second.1 = true ∧
  file (WriteRawBlock contents type r).1 = second.2 ∧
  offset (WriteRawBlock contents type r).1 = u64 (offset r + size contents + 5) ∧
  (WriteRawBlock contents type r).2 = BlockHandle.mk (offset r) (size contents).
Proof.
  intros Hok first second.
  destruct (WriteRawBlock_spec contents type r) as (Hh & _ & Hfail & Hgood).
  fold first in Hfail, Hgood. fold second in Hgood. unfold ok_ in Hok.
  destruct (ok first.1) eqn:H1.
  - destruct (Hgood eq_refl) as (Hf & Hs & Hfail2 & Hgood2).
    destruct (ok second.1) eqn:H2.
    + destruct (Hgood2 eq_refl) as [Ho _]. by repeat split.
    + rewrite Hs, H2 in Hok. discriminate.
  - destruct (Hfail eq_refl) as (_ & Hs & _). rewrite Hs, H1 in Hok. discriminate.
Qed.

(** The state [Flush] passes to the filter builder, when it writes. *)
Lemma Flush_writes r r' :
  closed r = false → ok_ r = true → BlockBuilder.empty (data_block r) = false →
  Flush r = Some r' →
  ∃ r1 block handle s f,
    WriteBlock (data_block r) r = Some (r1, block, handle) ∧
    BlockBuilder.empty block = true ∧
    let r2 := set_pending_handle handle (set_data_block block r1) in
    let r3 := if ok_ r2
              then set_file s f (count_flushed (set_pending_index_entry true r2))
              else r2 in
    (ok_ r2 = true → (s, f) = Env.Flush (file r2)) ∧
    (r' = r3 ∨ ∃ fb, r' = set_filter_block fb r3).
Proof.
  intros Hopen Hok Hfull. unfold Flush. rewrite Hopen, Hok, Hfull. simpl.
  destruct (pending_index_entry r); [done|].
  destruct (WriteBlock (data_block r) r) as [[[r1 block] handle]|] eqn:Hw; [|done].
  pose proof (WriteBlock_frame _ _ _ _ _ Hw) as (Hblock & _).
  cbn -[set_pending_handle set_data_block set_file count_flushed set_pending_index_entry
        set_filter_block].
  set (r2 := set_pending_handle handle (set_data_block block r1)).
  destruct (ok_ r2) eqn:Hok2.
  - destruct (Env.Flush (file (count_flushed (set_pending_index_entry true r2))))
      as [s f] eqn:Hflush.
    intros Hrest. exists r1, block, handle, s, f. split; [done|]. split; [done|].
    cbn zeta. fold r2. rewrite Hok2. split; [by intros _|].
    simpl in Hflush. rewrite Hflush in Hrest.
    destruct (filter_block _) as [fb|]; [|left; by injection Hrest as <-].
    destruct (FilterBlockBuilder.StartBlock _ fb) as [fb'|]; [|done].
    right. exists (Some fb'). by injection Hrest as <-.
  - intros Hrest. exists r1, block, handle, OK, (file r). split; [done|]. split; [done|].
    cbn zeta. fold r2. rewrite Hok2. split; [done|].
    destruct (filter_block r2) as [fb|]; [|left; by injection Hrest as <-].
    destruct (FilterBlockBuilder.StartBlock _ fb) as [fb'|]; [|done].
    right. exists (Some fb'). by injection Hrest as <-.
Qed.

(** Fields no call of [Flush] changes. *)
Lemma Flush_keeps r r' :
  Flush r = Some r' →
  options r' = options r ∧ index_block_options r' = index_block_options r ∧
  num_entries r' = num_entries r ∧ last_key r' = last_key r ∧
  index_block r' = index_block r ∧ closed r' = closed r.
Proof.
  intros Hflush.
  destruct (closed r) eqn:Hopen; [unfold Flush in Hflush; by rewrite Hopen in Hflush|].
  destruct (ok_ r) eqn:Hok;
    [|unfold Flush in Hflush; rewrite Hopen, Hok in Hflush; by injection Hflush as <-].
  destruct (BlockBuilder.empty (data_block r)) eqn:Hfull;
    [unfold Flush in Hflush; rewrite Hopen, Hok, Hfull in Hflush; by injection Hflush as <-|].
  destruct (Flush_writes r r' Hopen Hok Hfull Hflush)
    as (r1 & block & handle & s & f & Hw & _ & _ & Hr').
  apply WriteBlock_changes in Hw.
  assert (Hcore : options r1 = options r ∧ index_block_options r1 = index_block_options r ∧
                  num_entries r1 = num_entries r ∧ last_key r1 = last_key r ∧
                  index_block r1 = index_block r ∧ closed r1 = closed r).
  { rewrite Hw. by repeat split. }
  destruct Hcore as (H1 & H2 & H3 & H4 & H5 & H6).
  destruct (ok_ (set_pending_handle handle (set_data_block block r1)));
    destruct Hr' as [->|[fb ->]]; simpl; rewrite ?H1, ?H2, ?H3, ?H4, ?H5, ?H6, ?Hopen; done.
Qed.

(** After [Flush] on a builder whose status was ok, the data block is
    empty. *)
Lemma Flush_empties r r' :
  ok_ r = true → Flush r = Some r' → BlockBuilder.empty (data_block r') = true.
Proof.
  intros Hok Hflush.
  destruct (closed r) eqn:Hopen; [unfold Flush in Hflush; by rewrite Hopen in Hflush|].
  destruct (BlockBuilder.empty (data_block r)) eqn:Hfull;
    [unfold Flush in Hflush; rewrite Hopen, Hok, Hfull in Hflush; by injection Hflush as <-|].
  destruct (Flush_writes r r' Hopen Hok Hfull Hflush)
    as (r1 & block & handle & s & f & _ & Hblock & _ & Hr').
  destruct (ok_ (set_pending_handle handle (set_data_block block r1)));
    by destruct Hr' as [->|[fb ->]].
Qed.

(** Fields the parts of [Finish] after the final [Flush] leave alone. *)
Definition same_data (r r' : Rep) : Prop :=
  options r' = options r ∧ index_block_options r' = index_block_options r ∧
  data_block r' = data_block r ∧ num_entries r' = num_entries r ∧
  blocks_flushed r' = blocks_flushed r ∧ pending_handle r' = pending_handle r.

Lemma same_data_trans r1 r2 r3 : same_data r1 r2 → same_data r2 r3 → same_data r1 r3.
Proof. unfold same_data. intros (?&?&?&?&?&?) (?&?&?&?&?&?). repeat split; congruence. Qed.

Lemma WriteRawBlock_same_data contents type r :
  same_data r (WriteRawBlock contents type r).1.
Proof. rewrite WriteRawBlock_frame. by repeat split. Qed.

Lemma WriteBlock_same_data block r r' block' handle :
  WriteBlock block r = Some (r', block', handle) → same_data r r'.
Proof. intros Hw. apply WriteBlock_changes in Hw. rewrite Hw. by repeat split. Qed.

Lemma Finish_filter_block_same_data r : same_data r (Finish_filter_block r).1.
Proof.
  unfold Finish_filter_block. destruct (filter_block r) as [fb|]; [|by repeat split].
  destruct (ok_ r); [|by repeat split].
  destruct (FilterBlockBuilder.Finish fb) as [fb' contents].
  apply (same_data_trans r (set_filter_block (Some fb') r)); [by repeat split|].
  apply WriteRawBlock_same_data.
Qed.

Lemma Finish_metaindex_block_same_data h r r' h' :
  Finish_metaindex_block h r = Some (r', h') → same_data r r'.
Proof.
  unfold Finish_metaindex_block. destruct (ok_ r); [|intros [= <- _]; by repeat split].
  destruct (match filter_block r with Some _ => _ | None => _ end) as [meta|]; [|done].
  simpl. destruct (WriteBlock meta r) as [[[r1 b1] h1]|] eqn:Hw; [|done].
  simpl. intros [= <- _]. by apply WriteBlock_same_data in Hw.
Qed.

Lemma Finish_index_block_same_data r r' h' :
  Finish_index_block r = Some (r', h') → same_data r r'.
Proof.
  unfold Finish_index_block. destruct (ok_ r); [|intros [= <- _]; by repeat split].
  set (r1opt := if pending_index_entry r then _ else Some r).
  assert (H1 : ∀ r1, r1opt = Some r1 → same_data r r1).
  { subst r1opt. intros r1. destruct (pending_index_entry r).
    - destruct (BlockBuilder.Add _ _ _ _); [|done]. simpl. intros [= <-]. by repeat split.
    - intros [= <-]. by repeat split. }
  destruct r1opt as [r1|]; [|done]. specialize (H1 r1 eq_refl). simpl.
  destruct (WriteBlock (index_block r1) r1) as [[[r2 ib] h]|] eqn:Hw; [|done].
  simpl. intros [= <- _]. apply WriteBlock_same_data in Hw.
  apply (same_data_trans r r1); [done|].
  apply (same_data_trans r1 r2); [done|]. by repeat split.
Qed.

Lemma Finish_footer_same_data m i r : same_data r (Finish_footer m i r).
Proof.
  unfold Finish_footer. destruct (ok_ r); [|by repeat split].
  destruct (Env.Append _ (file r)) as [s f]. destruct (ok s); by repeat split.
Qed.

Lemma Finish_same_data r r' :
  Finish r = Some r' → ∃ r0, Flush r = Some r0 ∧ same_data r0 r'.
Proof.
  unfold Finish. destruct (Flush r) as [r0|]; [|done]. simpl.
  pose proof (Finish_filter_block_same_data (set_closed true r0)) as H2.
  destruct (Finish_filter_block (set_closed true r0)) as [r2 fh]. simpl in H2.
  destruct (Finish_metaindex_block fh r2) as [[r3 mh]|] eqn:H3; [|done].
  apply Finish_metaindex_block_same_data in H3. simpl.
  destruct (Finish_index_block r3) as [[r4 ih]|] eqn:H4; [|done].
  apply Finish_index_block_same_data in H4. simpl.
  intros [= <-]. exists r0. split; [done|].
  apply (same_data_trans r0 (set_closed true r0)); [by repeat split|].
  apply (same_data_trans _ r2); [done|].
  apply (same_data_trans _ r3); [done|].
  apply (same_data_trans _ r4); [done|]. apply Finish_footer_same_data.
Qed.

(** What [Add] does on a builder that is open with status ok: the entry is
    counted and put in the data block, which is then flushed or left below
    the block size. *)
Lemma Add_accepts key value r r' :
  ok_ r = true → Add key value r = Some r' →
  ∃ r4, num_entries r4 = num_entries r + 1 ∧ options r4 = options r ∧
        index_block_options r4 = index_block_options r ∧
        closed r4 = false ∧ ok_ r4 = true ∧
        BlockBuilder.empty (data_block r4) = false ∧
        offset r4 = offset r ∧ file r4 = file r ∧
        pending_handle r4 = pending_handle r ∧ blocks_flushed r4 = blocks_flushed r ∧
        last_key r4 = key ∧
        if block_size (options r4) <=? BlockBuilder.CurrentSizeEstimate (data_block r4)
        then Flush r4 = Some r' else r' = r4.
Proof.
  intros Hok. unfold Add. destruct (closed r) eqn:Hopen; [done|]. rewrite Hok. simpl.
  destruct ((0 <? num_entries r) && _); [done|].
  set (first := if pending_index_entry r then _ else Some r).
  assert (Hfirst : ∀ r1, first = Some r1 →
            num_entries r1 = num_entries r ∧ options r1 = options r ∧
            index_block_options r1 = index_block_options r ∧
            closed r1 = false ∧ ok_ r1 = true ∧ offset r1 = offset r ∧ file r1 = file r ∧
            pending_handle r1 = pending_handle r ∧ blocks_flushed r1 = blocks_flushed r ∧
            data_block r1 = data_block r).
  { subst first. intros r1. destruct (pending_index_entry r).
    - destruct (negb (BlockBuilder.empty (data_block r))); [done|].
      destruct (BlockBuilder.Add _ _ _ _) as [ib|]; [|done].
      simpl. intros [= <-]. by repeat split.
    - intros [= <-]. by repeat split. }
  destruct first as [r1|]; [|done].
  destruct (Hfirst r1 eq_refl) as (Hn & Ho & Hio & Hc & Hk & Hoff & Hf & Hph & Hbf & Hdb).
  cbn -[set_data_block set_num_entries set_last_key set_filter_block Flush].
  set (r2 := match filter_block r1 with Some _ => _ | None => r1 end).
  assert (Hr2 : num_entries r2 = num_entries r1 ∧ options r2 = options r1 ∧
                index_block_options r2 = index_block_options r1 ∧
                closed r2 = closed r1 ∧ ok_ r2 = ok_ r1 ∧ offset r2 = offset r1 ∧
                file r2 = file r1 ∧ pending_handle r2 = pending_handle r1 ∧
                blocks_flushed r2 = blocks_flushed r1 ∧ data_block r2 = data_block r1).
  { subst r2. by destruct (filter_block r1). }
  destruct Hr2 as (Hn2 & Ho2 & Hio2 & Hc2 & Hk2 & Hoff2 & Hf2 & Hph2 & Hbf2 & Hdb2).
  set (r3 := set_num_entries (num_entries r2 + 1) (set_last_key key r2)).
  destruct (BlockBuilder.Add (options r2) key value (data_block r2)) as [db|] eqn:Hadd; [|done].
  apply BlockBuilder.Add_not_empty in Hadd.
  cbn -[set_data_block set_num_entries set_last_key set_filter_block Flush].
  intros Hrest. exists (set_data_block db r3).
  subst r3. simpl. rewrite Hn2, Hn, Ho2, Ho, Hio2, Hio, Hc2, Hc, Hoff2, Hoff, Hf2, Hf,
    Hph2, Hph, Hbf2, Hbf. unfold ok_ in *. simpl. rewrite Hk2, Hk.
  repeat split; try done.
  rewrite Ho2, Ho, Hn2, Hn in Hrest.
  destruct (block_size (options r) <=? BlockBuilder.CurrentSizeEstimate db); [done|].
  by injection Hrest as <-.
Qed.

(** *** Counting entries *)

Fixpoint count_adds (calls : list call) : Z :=
  match calls with
  | [] => 0
  | CallAdd _ _ :: calls' => 1 + count_adds calls'
  | _ :: calls' => count_adds calls'
  end.

Lemma step_counts c r r' :
  ok_ r = true → step c r = Some r' →
  num_entries r' = num_entries r + count_adds [c] ∧ options r' = options r.
Proof.
  intros Hok. destruct c as [key value| |]; simpl; intros Hstep.
  - destruct (Add_accepts key value r r' Hok Hstep) as (r4 & Hn & Ho & _ & _ & _ & _ & _ & _ & _ & _ & _ & Hrest).
    destruct (block_size (options r4) <=? _).
    + apply Flush_keeps in Hrest as (Ho' & _ & Hn' & _). rewrite Hn', Ho', Hn, Ho. split; [lia|done].
    + subst r'. rewrite Hn, Ho. split; [lia|done].
  - apply Flush_keeps in Hstep as (Ho' & _ & Hn' & _). rewrite Hn', Ho'. split; [lia|done].
  - apply Finish_same_data in Hstep as (r0 & Hflush & (Ho1 & _ & _ & Hn1 & _)).
    apply Flush_keeps in Hflush as (Ho' & _ & Hn' & _).
    rewrite Hn1, Hn', Ho1, Ho'. split; [lia|done].
Qed.

Lemma run_counts calls : ∀ r r',
  run calls r = Some r' → ok_ r' = true →
  num_entries r' = num_entries r + count_adds calls ∧ options r' = options r.
Proof.
  induction calls as [|c calls IH]; intros r r'; simpl.
  - intros [= <-] _. split; [lia|done].
  - destruct (step c r) as [r1|] eqn:Hstep; [|done]. simpl. intros Hrun Hok'.
    destruct (ok_ r) eqn:Hok.
    + destruct (step_counts c r r1 Hok Hstep) as [Hn Ho].
      destruct (IH r1 r' Hrun Hok') as [Hn' Ho']. rewrite Hn', Hn, Ho', Ho.
      split; [|done]. simpl. destruct c; lia.
    + pose proof (step_keeps_error c r r1 Hok Hstep) as Hbad.
      pose proof (run_keeps_error calls r1 r' Hbad Hrun). congruence.
Qed.

Lemma new_fields opt f r :
  new opt f = Some r →
  options r = opt ∧ file r = f ∧ offset r = 0 ∧ status r = OK ∧ num_entries r = 0 ∧
  closed r = false ∧ pending_index_entry r = false ∧ blocks_flushed r = 0%nat ∧
  data_block r = BlockBuilder.new.
Proof.
  unfold new. simpl.
  destruct (FilterBlockBuilder.new <$> filter_policy opt) as [fb|].
  - destruct (FilterBlockBuilder.StartBlock 0 fb); [|done]. simpl. by intros [= <-].
  - by intros [= <-].
Qed.

(** X3. If the status is ok after a run of calls on a new builder, every
    [Add] of the run was accepted: [NumEntries()] is the number of [Add]
    calls made. *)
Theorem NumEntries_counts_adds
  (opt : Options) (f : Env.file_state) (calls : list call) (r0 r : Rep) :
  new opt f = Some r0 →
  run calls r0 = Some r →
  ok (status r) = true →
  num_entries r = count_adds calls ∧ NumEntries r = u64 (count_adds calls).
Proof.
  intros Hnew Hrun Hok.
  destruct (new_fields opt f r0 Hnew) as (_ & _ & _ & _ & Hn0 & _).
  destruct (run_counts calls r0 r Hrun Hok) as [Hn _].
  unfold NumEntries. rewrite Hn, Hn0. by split.
Qed.

(** *** The block size is a flush threshold *)

Definition below_block_size (r : Rep) : Prop :=
  BlockBuilder.empty (data_block r) = true ∨
  BlockBuilder.CurrentSizeEstimate (data_block r) < block_size (options r).

Lemma step_below_block_size c r r' :
  ok_ r = true → step c r = Some r' → below_block_size r'.
Proof.
  intros Hok. destruct c as [key value| |]; simpl; intros Hstep.
  - destruct (Add_accepts key value r r' Hok Hstep)
      as (r4 & _ & _ & _ & _ & Hok4 & _ & _ & _ & _ & _ & _ & Hrest).
    destruct (Z.leb_spec (block_size (options r4))
                (BlockBuilder.CurrentSizeEstimate (data_block r4))).
    + left. by apply (Flush_empties r4 r').
    + subst r'. by right.
  - left. by apply (Flush_empties r r').
  - apply Finish_same_data in Hstep as (r0 & Hflush & (_ & _ & Hdb & _)).
    left. rewrite Hdb. by apply (Flush_empties r r0).
Qed.

Lemma run_below_block_size calls : ∀ r r',
  (ok_ r = true → below_block_size r) →
  run calls r = Some r' → ok_ r' = true → below_block_size r'.
Proof.
  induction calls as [|c calls IH]; intros r r' Hinv; simpl.
  - intros [= <-]. exact Hinv.
  - destruct (step c r) as [r1|] eqn:Hstep; [|done]. simpl. intros Hrun Hok'.
    apply (IH r1 r'); [|done|done]. intros Hok1.
    destruct (ok_ r) eqn:Hok; [by apply (step_below_block_size c r r1)|].
    pose proof (step_keeps_error c r r1 Hok Hstep). congruence.
Qed.

(** X4. Between calls, while the status is ok, the data block being built is
    either empty or estimated below [block_size]: [Add] flushes it as soon as
    the estimate reaches the block size. *)
Theorem data_block_stays_below_block_size
  (opt : Options) (f : Env.file_state) (calls : list call) (r0 r : Rep) :
  new opt f = Some r0 →
  run calls r0 = Some r →
  ok (status r) = true →
  BlockBuilder.empty (data_block r) = true ∨
  BlockBuilder.CurrentSizeEstimate (data_block r) < block_size opt.
Proof.
  intros Hnew Hrun Hok.
  destruct (new_fields opt f r0 Hnew) as (Ho & _ & _ & _ & _ & _ & _ & _ & Hdb).
  destruct (run_counts calls r0 r Hrun Hok) as [_ Ho'].
  rewrite <- Ho, <- Ho'.
  apply (run_below_block_size calls r0 r); [|done|done].
  intros _. left. by rewrite Hdb.
Qed.

(** *** Where the pending handle points *)

Definition handle_ends_at_offset (r : Rep) : Prop :=
  offset r =
  u64 (BlockHandle.offset_ (pending_handle r) + BlockHandle.size_ (pending_handle r) + 5).

Definition last_block_invariant (r : Rep) : Prop :=
  closed r = false → ok_ r = true → (0 < blocks_flushed r)%nat → handle_ends_at_offset r.

Lemma Flush_last_block r r' :
  last_block_invariant r → Flush r = Some r' → last_block_invariant r'.
Proof.
  intros Hinv Hflush.
  destruct (closed r) eqn:Hopen; [unfold Flush in Hflush; by rewrite Hopen in Hflush|].
  destruct (ok_ r) eqn:Hok;
    [|unfold Flush in Hflush; rewrite Hopen, Hok in Hflush; by injection Hflush as <-].
  destruct (BlockBuilder.empty (data_block r)) eqn:Hfull;
    [unfold Flush in Hflush; rewrite Hopen, Hok, Hfull in Hflush; by injection Hflush as <-|].
  destruct (Flush_writes r r' Hopen Hok Hfull Hflush)
    as (r1 & block & handle & s & f & Hw & _ & _ & Hr').
  apply WriteBlock_written in Hw as (contents & type & -> & ->).
  destruct (ok_ (set_pending_handle _ (set_data_block block _))) eqn:Hok2.
  - assert (Hok1 : ok_ (WriteRawBlock contents type r).1 = true) by exact Hok2.
    destruct (WriteRawBlock_ok contents type r Hok1) as (_ & _ & _ & Hoff & Hh).
    intros _ _ _. unfold handle_ends_at_offset.
    destruct Hr' as [->|[fb ->]]; simpl; by rewrite Hoff, Hh.
  - intros _ Hok' _. exfalso. unfold ok_ in *.
    destruct Hr' as [->|[fb ->]]; simpl in *; congruence.
Qed.

Lemma step_last_block c r r' :
  last_block_invariant r → step c r = Some r' → last_block_invariant r'.
Proof.
  intros Hinv. destruct c as [key value| |]; simpl; intros Hstep.
  - destruct (ok_ r) eqn:Hok.
    + destruct (Add_accepts key value r r' Hok Hstep)
        as (r4 & _ & _ & _ & Hc4 & Hok4 & _ & Hoff & _ & Hph & Hbf & _ & Hrest).
      assert (Hopen : closed r = false).
      { unfold Add in Hstep. by destruct (closed r). }
      assert (Hinv4 : last_block_invariant r4).
      { intros _ _ Hflushed. unfold handle_ends_at_offset. rewrite Hoff, Hph.
        apply Hinv; [done|done|by rewrite <- Hbf]. }
      destruct (block_size (options r4) <=? _); [by apply (Flush_last_block r4)|by subst].
    + unfold Add in Hstep. rewrite Hok in Hstep. destruct (closed r); [done|].
      by injection Hstep as <-.
  - by apply (Flush_last_block r).
  - apply Finish_between_calls in Hstep as [Hclosed _]. intros Hopen. congruence.
Qed.

Lemma run_last_block calls : ∀ r r',
  last_block_invariant r → run calls r = Some r' → last_block_invariant r'.
Proof.
  induction calls as [|c calls IH]; intros r r' Hinv; simpl; [by intros [= <-]|].
  destruct (step c r) as [r1|] eqn:Hstep; [|done]. simpl.
  apply IH. by apply (step_last_block c r).
Qed.

(** X5. While the builder is open with status ok and a data block has been
    flushed, [pending_handle] describes a block that ends where the trailer of
    the last block written begins: the file offset is its offset plus its
    size plus the five bytes of the trailer (in 64 bits). *)
Theorem pending_handle_ends_at_offset
  (opt : Options) (f : Env.file_state) (calls : list call) (r0 r : Rep) :
  new opt f = Some r0 →
  run calls r0 = Some r →
  closed r = false → ok (status r) = true → (0 < blocks_flushed r)%nat →
  offset r =
  u64 (BlockHandle.offset_ (pending_handle r) + BlockHandle.size_ (pending_handle r) + 5).
Proof.
  intros Hnew Hrun.
  apply (run_last_block calls r0 r); [|done].
  destruct (new_fields opt f r0 Hnew) as (_ & _ & _ & _ & _ & _ & _ & Hbf & _).
  intros _ _. rewrite Hbf. lia.
Qed.

End WithEnv.

(** *** The offset is the number of bytes written *)

(** A file whose length can be told: an append that succeeds adds the bytes
    it was given, and flushing adds none. *)
Class MeasuredFile (writable_file : Env.WritableFile) := {
  file_length : Env.file_state → Z;
  Append_length : ∀ data f,
    ok (Env.Append data f).1 = true →
    file_length (Env.Append data f).2 = file_length f + size data;
  Flush_length : ∀ f, file_length (Env.Flush f).2 = file_length f
}.

Section WithMeasuredFile.
Context {writable_file : Env.WritableFile} {port : Port}.
Context {measured : MeasuredFile writable_file}.

(** [base] is the length the file had when the builder was created. *)
Definition tracks (base : Z) (r : Rep) : Prop :=
  offset r = u64 (file_length (file r) - base).

Definition tracks_if_ok (base : Z) (r : Rep) : Prop := ok_ r = true → tracks base r.

Lemma u64_add_l a b : u64 (u64 a + b) = u64 (a + b).
Proof. unfold u64. apply Zplus_mod_idemp_l. Qed.

Lemma block_trailer_size contents type : size (block_trailer contents type) = 5.
Proof. reflexivity. Qed.

Lemma WriteRawBlock_tracks base contents type r :
  tracks base r → tracks_if_ok base (WriteRawBlock contents type r).1.
Proof.
  intros Ht Hok. destruct (WriteRawBlock_ok contents type r Hok) as (H1 & H2 & Hf & Ho & _).
  unfold tracks. rewrite Hf, Ho, Ht, <- Z.add_assoc, u64_add_l.
  rewrite (Append_length _ _ H2), (Append_length _ _ H1), block_trailer_size.
  f_equal. lia.
Qed.

Lemma WriteBlock_tracks base block r r' block' handle :
  tracks_if_ok base r → WriteBlock block r = Some (r', block', handle) →
  tracks_if_ok base r'.
Proof.
  intros Ht Hw.
  assert (Hok : ok_ r = true).
  { unfold WriteBlock in Hw. by destruct (ok_ r). }
  apply WriteBlock_written in Hw as (contents & type & -> & _).
  exact (WriteRawBlock_tracks base contents type r (Ht Hok)).
Qed.

Lemma Flush_tracks base r r' :
  tracks_if_ok base r → Flush r = Some r' → tracks_if_ok base r'.
Proof.
  intros Ht Hflush.
  destruct (closed r) eqn:Hopen; [unfold Flush in Hflush; by rewrite Hopen in Hflush|].
  destruct (ok_ r) eqn:Hok;
    [|unfold Flush in Hflush; rewrite Hopen, Hok in Hflush; by injection Hflush as <-].
  destruct (BlockBuilder.empty (data_block r)) eqn:Hfull;
    [unfold Flush in Hflush; rewrite Hopen, Hok, Hfull in Hflush; by injection Hflush as <-|].
  destruct (Flush_writes r r' Hopen Hok Hfull Hflush)
    as (r1 & block & handle & s & f & Hw & _ & Hsf & Hr').
  pose proof (WriteBlock_tracks base _ _ _ _ _ (λ _, Ht Hok) Hw) as Ht1.
  destruct (ok_ (set_pending_handle handle (set_data_block block r1))) eqn:Hok2.
  - specialize (Hsf eq_refl). simpl in Hsf.
    assert (Hlen : file_length f = file_length (file r1)).
    { pose proof (Flush_length (file r1)) as Hl. by rewrite <- Hsf in Hl. }
    intros _. unfold tracks.
    destruct Hr' as [->|[fb ->]]; simpl; rewrite Hlen; by apply Ht1.
  - intros Hok'. exfalso. unfold ok_ in *.
    destruct Hr' as [->|[fb ->]]; simpl in *; congruence.
Qed.

Lemma Finish_filter_block_tracks base r :
  tracks_if_ok base r → tracks_if_ok base (Finish_filter_block r).1.
Proof.
  intros Ht. unfold Finish_filter_block. destruct (filter_block r) as [fb|]; [|done].
  destruct (ok_ r) eqn:Hok; [|done].
  destruct (FilterBlockBuilder.Finish fb) as [fb' contents].
  apply WriteRawBlock_tracks. exact (Ht Hok).
Qed.

Lemma Finish_metaindex_block_tracks base h r r' h' :
  tracks_if_ok base r → Finish_metaindex_block h r = Some (r', h') → tracks_if_ok base r'.
Proof.
  intros Ht. unfold Finish_metaindex_block. destruct (ok_ r) eqn:Hok; [|by intros [= <- _]].
  destruct (match filter_block r with Some _ => _ | None => _ end) as [meta|]; [|done].
  simpl. destruct (WriteBlock meta r) as [[[r1 b1] h1]|] eqn:Hw; [|done].
  simpl. intros [= <- _]. by apply (WriteBlock_tracks base meta r r1 b1 h1).
Qed.

Lemma Finish_index_block_tracks base r r' h' :
  tracks_if_ok base r → Finish_index_block r = Some (r', h') → tracks_if_ok base r'.
Proof.
  intros Ht. unfold Finish_index_block. destruct (ok_ r) eqn:Hok; [|by intros [= <- _]].
  set (r1opt := if pending_index_entry r then _ else Some r).
  assert (H1 : ∀ r1, r1opt = Some r1 → tracks_if_ok base r1).
  { subst r1opt. intros r1. destruct (pending_index_entry r).
    - destruct (BlockBuilder.Add _ _ _ _); [|done]. simpl. by intros [= <-].
    - by intros [= <-]. }
  destruct r1opt as [r1|]; [|done]. specialize (H1 r1 eq_refl). simpl.
  destruct (WriteBlock (index_block r1) r1) as [[[r2 ib] h]|] eqn:Hw; [|done].
  simpl. intros [= <- _].
  exact (WriteBlock_tracks base _ _ _ _ _ H1 Hw).
Qed.

Lemma Finish_footer_tracks base m i r :
  tracks_if_ok base r → tracks_if_ok base (Finish_footer m i r).
Proof.
  intros Ht. unfold Finish_footer. destruct (ok_ r) eqn:Hok; [|done].
  pose proof (Append_length (Footer.EncodeTo [] (Footer.mk m i)) (file r)) as Hlen.
  destruct (Env.Append _ (file r)) as [s f]. simpl in Hlen.
  destruct (ok s) eqn:Hs; [|intros Hok'; unfold ok_ in Hok'; simpl in Hok'; congruence].
  intros _. unfold tracks. simpl. rewrite (Hlen eq_refl), (Ht Hok), u64_add_l.
  f_equal. lia.
Qed.

Lemma step_tracks base c r r' :
  tracks_if_ok base r → step c r = Some r' → tracks_if_ok base r'.
Proof.
  intros Ht. destruct c as [key value| |]; simpl; intros Hstep.
  - destruct (ok_ r) eqn:Hok.
    + destruct (Add_accepts key value r r' Hok Hstep)
        as (r4 & _ & _ & _ & _ & _ & _ & Hoff & Hf & _ & _ & _ & Hrest).
      assert (Ht4 : tracks_if_ok base r4).
      { intros _. unfold tracks. rewrite Hoff, Hf. by apply Ht. }
      destruct (block_size (options r4) <=? _); [by apply (Flush_tracks base r4)|by subst].
    + intros Hok'. pose proof (step_keeps_error (CallAdd key value) r r' Hok Hstep).
      congruence.
  - by apply (Flush_tracks base r).
  - unfold Finish in Hstep. destruct (Flush r) as [r0|] eqn:Hflush; [|done]. simpl in Hstep.
    pose proof (Flush_tracks base r r0 Ht Hflush) as Ht0.
    assert (Ht1 : tracks_if_ok base (set_closed true r0)) by exact Ht0.
    pose proof (Finish_filter_block_tracks base _ Ht1) as Ht2.
    destruct (Finish_filter_block (set_closed true r0)) as [r2 fh]. simpl in Ht2.
    destruct (Finish_metaindex_block fh r2) as [[r3 mh]|] eqn:H3; [|done].
    pose proof (Finish_metaindex_block_tracks base _ _ _ _ Ht2 H3) as Ht3. simpl in Hstep.
    destruct (Finish_index_block r3) as [[r4 ih]|] eqn:H4; [|done].
    pose proof (Finish_index_block_tracks base _ _ _ Ht3 H4) as Ht4. simpl in Hstep.
    injection Hstep as <-. by apply Finish_footer_tracks.
Qed.

Lemma run_tracks base calls : ∀ r r',
  tracks_if_ok base r → run calls r = Some r' → tracks_if_ok base r'.
Proof.
  induction calls as [|c calls IH]; intros r r' Ht; simpl; [by intros [= <-]|].
  destruct (step c r) as [r1|] eqn:Hstep; [|done]. simpl.
  apply IH. by apply (step_tracks base c r).
Qed.

(** X6. On a file whose successful appends add exactly the bytes given, the
    builder's offset, which [FileSize()] returns, is the number of bytes the
    builder has added to the file (in 64 bits), after any calls of [Add],
    [Flush] and [Finish] that leave the status ok. *)
Theorem FileSize_is_bytes_written
  (opt : Options) (f : Env.file_state) (calls : list call) (r0 r : Rep) :
  new opt f = Some r0 →
  run calls r0 = Some r →
  ok (status r) = true →
  FileSize r = u64 (file_length (file r) - file_length f).
Proof.
  intros Hnew Hrun Hok.
  destruct (new_fields opt f r0 Hnew) as (_ & Hf & Ho & _).
  apply (run_tracks (file_length f) calls r0 r); [|done|done].
  intros _. unfold tracks. rewrite Hf, Ho, Z.sub_diag. reflexivity.
Qed.

End WithMeasuredFile.
End TableBuilderFacts.

Module TableBuilderExamples.
Import MemEnv TableBuilder TableBuilderFacts.

Definition mem_length (f : MemFile) : Z := size (written f).

(** The file in memory can tell its length. *)
Lemma mem_file_Append_length data (f : MemFile) :
  ok (Env.Append (WritableFile := mem_file) data f).1 = true →
  mem_length (Env.Append (WritableFile := mem_file) data f).2 = mem_length f + size data.
Proof.
  simpl. destruct (size (written f) + size data <=? capacity f); [|done].
  intros _. unfold mem_length, size. simpl. rewrite length_app. lia.
Qed.

Definition mem_file_measured : MeasuredFile mem_file :=
  @Build_MeasuredFile mem_file mem_length mem_file_Append_length (λ f, eq_refl).

(** The state a run leaves, or a fresh builder if the run was cut short. *)
Definition after (f : MemFile) (calls : list call) : Rep (writable_file := mem_file) :=
  default (fresh_rep small_blocks) (build_on f no_snappy small_blocks calls).

(** No room for the first block: the builder is in error. *)
Definition failed_rep : Rep (writable_file := mem_file) := after tiny_file (take 4 add_letters).

Lemma Finish_after_error_witness :
  ok (status failed_rep) = false ∧
  Finish (port := no_snappy) failed_rep = Some (set_closed true failed_rep).
Proof.
  assert (H : ok (status failed_rep) = false) by reflexivity.
  split; [exact H|].
  destruct (Finish_after_error_only_closes (writable_file := mem_file) (port := no_snappy) failed_rep H) as [Heq _].
  rewrite Heq. reflexivity.
Defined.

Lemma status_error_witness :
  ∃ r', run (port := no_snappy) [CallAdd (bs "e") (bs "ve"); CallFlush; CallFinish] failed_rep
        = Some r' ∧ ok (status r') = false.
Proof.
  eexists. split; [vm_compute; reflexivity|].
  eapply (status_error_is_sticky (writable_file := mem_file) (port := no_snappy)
            [CallAdd (bs "e") (bs "ve"); CallFlush; CallFinish] failed_rep).
  - reflexivity.
  - vm_compute. reflexivity.
Defined.

Lemma build_after (calls : list call) r :
  build no_snappy small_blocks calls = Some r →
  ∃ r0, new (writable_file := mem_file) small_blocks empty_file = Some r0 ∧
        run (port := no_snappy) calls r0 = Some r.
Proof.
  unfold build, build_on.
  destruct (new (writable_file := mem_file) small_blocks empty_file) as [r0|]; [|done].
  simpl. eauto.
Qed.

Definition all_letters : Rep (writable_file := mem_file) :=
  after empty_file (add_letters ++ [CallFinish]).

Lemma NumEntries_witness : NumEntries all_letters = 26.
Proof.
  destruct (build_after (add_letters ++ [CallFinish]) all_letters) as (r0 & Hnew & Hrun);
    [vm_compute; reflexivity|].
  destruct (NumEntries_counts_adds (writable_file := mem_file) (port := no_snappy) small_blocks empty_file
              (add_letters ++ [CallFinish]) r0 all_letters Hnew Hrun eq_refl) as [_ H].
  rewrite H. reflexivity.
Defined.

Definition seven_letters : Rep (writable_file := mem_file) :=
  after empty_file (take 7 add_letters).

Lemma data_block_below_block_size_witness :
  BlockBuilder.CurrentSizeEstimate (data_block seven_letters) = 26 ∧
  (BlockBuilder.empty (data_block seven_letters) = true ∨
   BlockBuilder.CurrentSizeEstimate (data_block seven_letters) < 30).
Proof.
  split; [reflexivity|].
  destruct (build_after (take 7 add_letters) seven_letters) as (r0 & Hnew & Hrun);
    [vm_compute; reflexivity|].
  exact (data_block_stays_below_block_size (writable_file := mem_file) (port := no_snappy) small_blocks empty_file
           (take 7 add_letters) r0 seven_letters Hnew Hrun eq_refl).
Defined.

Definition nine_letters : Rep (writable_file := mem_file) :=
  after empty_file (take 9 add_letters).

Lemma pending_handle_witness :
  pending_handle nine_letters = BlockHandle.mk 37 32 ∧
  offset nine_letters =
  Coding.u64 (BlockHandle.offset_ (pending_handle nine_letters)
              + BlockHandle.size_ (pending_handle nine_letters) + 5).
Proof.
  split; [reflexivity|].
  destruct (build_after (take 9 add_letters) nine_letters) as (r0 & Hnew & Hrun);
    [vm_compute; reflexivity|].
  apply (pending_handle_ends_at_offset (writable_file := mem_file) (port := no_snappy) small_blocks empty_file
           (take 9 add_letters) r0 nine_letters Hnew Hrun); [reflexivity|reflexivity|].
  vm_compute. lia.
Defined.

Lemma FileSize_witness :
  FileSize all_letters = Coding.u64 (mem_length (file all_letters) - mem_length empty_file).
Proof.
  destruct (build_after (add_letters ++ [CallFinish]) all_letters) as (r0 & Hnew & Hrun);
    [vm_compute; reflexivity|].
  exact (FileSize_is_bytes_written (writable_file := mem_file) (port := no_snappy) (measured := mem_file_measured)
           small_blocks empty_file (add_letters ++ [CallFinish]) r0 all_letters
           Hnew Hrun eq_refl).
Defined.

End TableBuilderExamples.

(** ** More on [table/merger.cc] *)

Module MergerFacts.
Import Merger.

Section Status.
Context {comparator_ : Comparator}.

Lemma status_loop_stops s cs :
  ok s = false →
  foldl (λ s child, if ok s then IteratorWrapper.status child else s) s cs = s.
Proof.
  intros Hbad. induction cs as [|w cs IH]; simpl; [done|]. by rewrite Hbad.
Qed.

Lemma ok_is_OK s : ok s = true → s = OK.
Proof. by destruct s. Qed.

Lemma status_loop cs : ∀ s,
  ok s = true →
  (Forall (λ w, ok (IteratorWrapper.status w) = true) cs →
   foldl (λ s child, if ok s then IteratorWrapper.status child else s) s cs = OK) ∧
  (∀ (i : nat) w, cs !! i = Some w → ok (IteratorWrapper.status w) = false →
     (∀ (j : nat) w', (j < i)%nat → cs !! j = Some w' → ok (IteratorWrapper.status w') = true) →
     foldl (λ s child, if ok s then IteratorWrapper.status child else s) s cs
     = IteratorWrapper.status w).
Proof.
  induction cs as [|w0 cs IH]; intros s Hok; simpl.
  - split; [intros _; by apply ok_is_OK|]. by intros i w.
  - rewrite Hok. split.
    + intros Hall. apply Forall_cons in Hall as [H0 Hall]. by apply (IH _ H0).
    + intros i w Hi Hbad Hbefore. destruct i as [|i]; simpl in Hi.
      * injection Hi as ->. by apply status_loop_stops.
      * assert (H0 : ok (IteratorWrapper.status w0) = true).
        { apply (Hbefore 0%nat w0); [lia|done]. }
        apply (proj2 (IH _ H0) i w Hi Hbad).
        intros j w' Hj Hw'. apply (Hbefore (S j) w'); [lia|done].
Qed.

Lemma status_loop_OK cs : ∀ s,
  ok s = true →
  foldl (λ s child, if ok s then IteratorWrapper.status child else s) s cs = OK →
  Forall (λ w, ok (IteratorWrapper.status w) = true) cs.
Proof.
  induction cs as [|w0 cs IH]; intros s Hok; simpl; [by constructor|].
  rewrite Hok. intros HOK.
  destruct (ok (IteratorWrapper.status w0)) eqn:H0.
  - constructor; [done|]. by apply (IH _ H0).
  - rewrite (status_loop_stops _ cs H0) in HOK. by rewrite HOK in H0.
Qed.

(** X7. [status()] of a merging iterator is ok exactly when every child's
    status is ok, and otherwise is the status of the first child, in the
    order of the array, whose status is not ok. *)
Theorem status_is_first_child_error (m : MergingIterator) :
  (Forall (λ w, ok (IteratorWrapper.status w) = true) (children_ m) ↔ status m = OK) ∧
  (∀ (i : nat) w,
     children_ m !! i = Some w → ok (IteratorWrapper.status w) = false →
     (∀ (j : nat) w', (j < i)%nat → children_ m !! j = Some w' →
                      ok (IteratorWrapper.status w') = true) →
     status m = IteratorWrapper.status w).
Proof.
  destruct (status_loop (children_ m) OK eq_refl) as [Hall Hfirst].
  split; [|exact Hfirst]. split; [exact Hall|].
  by apply status_loop_OK.
Qed.

End Status.

Section Order.
Context {comparator_ : Comparator} {order_ : ComparatorOrder comparator_}.

Lemma Compare_lt_le_trans a b c : Compare a b < 0 → Compare b c <= 0 → Compare a c < 0.
Proof.
  intros Hab Hbc. destruct (Z.lt_ge_cases (Compare a c) 0) as [|Hge]; [done|].
  assert (Hca : Compare c a <= 0) by (apply Compare_ge_flip; lia).
  pose proof (Compare_trans b c a Hbc Hca) as Hba.
  pose proof (Compare_flip a b) as Hflip.
  destruct (Compare a b), (Compare b a); simpl in Hflip; try discriminate; lia.
Qed.

Lemma Compare_le_lt_trans a b c : Compare a b <= 0 → Compare b c < 0 → Compare a c < 0.
Proof.
  intros Hab Hbc. destruct (Z.lt_ge_cases (Compare a c) 0) as [|Hge]; [done|].
  assert (Hca : Compare c a <= 0) by (apply Compare_ge_flip; lia).
  pose proof (Compare_trans c a b Hca Hab) as Hcb.
  pose proof (Compare_flip b c) as Hflip.
  destruct (Compare b c), (Compare c b); simpl in Hflip; try discriminate; lia.
Qed.

Lemma Compare_gt_flip a b : 0 < Compare a b → Compare b a < 0.
Proof.
  intros H. pose proof (Compare_flip a b) as Hflip.
  destruct (Compare a b), (Compare b a); simpl in Hflip; try discriminate; lia.
Qed.

Lemma Compare_le_flip a b : Compare a b <= 0 → 0 <= Compare b a.
Proof.
  intros H. pose proof (Compare_flip a b) as Hflip.
  destruct (Compare a b), (Compare b a); simpl in Hflip; try discriminate; lia.
Qed.

Local Abbreviation key_at cs i := (IteratorWrapper.key (child_at cs i)).
Local Abbreviation valid_at cs i := (IteratorWrapper.Valid (child_at cs i) = true).

(** What the loop of [FindSmallest] has established after [n] rounds, ties
    included. *)
Definition first_smallest_upto (cs : list IteratorWrapper.t) (n : nat) (r : option nat) : Prop :=
  match r with
  | None => ∀ i, (i < n)%nat → IteratorWrapper.Valid (child_at cs i) = false
  | Some s =>
      (s < n)%nat ∧ valid_at cs s ∧
      (∀ i, (i < n)%nat → valid_at cs i → Compare (key_at cs s) (key_at cs i) <= 0) ∧
      (∀ i, (i < s)%nat → valid_at cs i → Compare (key_at cs s) (key_at cs i) < 0)
  end.

Lemma FindSmallest_loop_first cs n :
  first_smallest_upto cs n (foldl (smallest_step cs) None (seq 0 n)).
Proof.
  induction n as [|n IH]; [intros i Hi; lia|].
  rewrite seq_S, foldl_app. simpl.
  set (r := foldl (smallest_step cs) None (seq 0 n)) in *.
  unfold smallest_step.
  destruct (IteratorWrapper.Valid (child_at cs n)) eqn:Hv.
  - destruct r as [s|]; simpl in IH.
    + destruct IH as (Hs & Hsv & Hmin & Hfirst).
      destruct (Z.ltb_spec (Compare (key_at cs n) (key_at cs s)) 0) as [Hlt|Hge].
      * split; [lia|]. split; [done|]. split.
        -- intros i Hi Hiv.
           destruct (decide (i = n)) as [->|Hne]; [rewrite Compare_refl; lia|].
           apply Compare_trans with (key_at cs s); [lia|]. apply Hmin; [lia|done].
        -- intros i Hi Hiv. apply Compare_lt_le_trans with (key_at cs s); [done|].
           apply Hmin; [lia|done].
      * split; [lia|]. split; [done|]. split; [|done].
        intros i Hi Hiv.
        destruct (decide (i = n)) as [->|Hne]; [apply Compare_ge_flip; lia|].
        apply Hmin; [lia|done].
    + split; [lia|]. split; [done|]. split.
      * intros i Hi Hiv.
        destruct (decide (i = n)) as [->|Hne]; [rewrite Compare_refl; lia|].
        rewrite IH in Hiv; [discriminate|lia].
      * intros i Hi Hiv. rewrite IH in Hiv; [discriminate|lia].
  - destruct r as [s|]; simpl in IH |- *.
    + destruct IH as (Hs & Hsv & Hmin & Hfirst). split; [lia|]. split; [done|].
      split; [|done].
      intros i Hi Hiv. destruct (decide (i = n)) as [->|Hne]; [congruence|].
      apply Hmin; [lia|done].
    + intros i Hi. destruct (decide (i = n)) as [->|Hne]; [done|]. apply IH; lia.
Qed.

(** What the loop of [FindLargest], which runs from the last child down, has
    established when it has dealt with the children from [k] on. *)
Definition last_largest_from (cs : list IteratorWrapper.t) (k : nat) (r : option nat) : Prop :=
  match r with
  | None => ∀ i, (k ≤ i)%nat → IteratorWrapper.Valid (child_at cs i) = false
  | Some l =>
      (k ≤ l)%nat ∧ valid_at cs l ∧
      (∀ i, (k ≤ i)%nat → valid_at cs i → Compare (key_at cs i) (key_at cs l) <= 0) ∧
      (∀ i, (l < i)%nat → valid_at cs i → Compare (key_at cs i) (key_at cs l) < 0)
  end.

Lemma largest_step_from cs k r :
  last_largest_from cs (S k) r → last_largest_from cs k (largest_step cs r k).
Proof.
  intros IH. unfold largest_step.
  destruct (IteratorWrapper.Valid (child_at cs k)) eqn:Hv.
  - destruct r as [l|]; simpl in IH.
    + destruct IH as (Hl & Hlv & Hmax & Hlast).
      destruct (Z.ltb_spec 0 (Compare (key_at cs k) (key_at cs l))) as [Hgt|Hle].
      * assert (Hlk : Compare (key_at cs l) (key_at cs k) < 0) by by apply Compare_gt_flip.
        split; [lia|]. split; [done|]. split.
        -- intros i Hi Hiv.
           destruct (decide (i = k)) as [->|Hne]; [rewrite Compare_refl; lia|].
           apply Compare_trans with (key_at cs l); [apply Hmax; [lia|done]|lia].
        -- intros i Hi Hiv. apply Compare_le_lt_trans with (key_at cs l); [|done].
           apply Hmax; [lia|done].
      * split; [lia|]. split; [done|]. split; [|done].
        intros i Hi Hiv. destruct (decide (i = k)) as [->|Hne]; [lia|].
        apply Hmax; [lia|done].
    + split; [lia|]. split; [done|]. split.
      * intros i Hi Hiv.
        destruct (decide (i = k)) as [->|Hne]; [rewrite Compare_refl; lia|].
        rewrite IH in Hiv; [discriminate|lia].
      * intros i Hi Hiv. rewrite IH in Hiv; [discriminate|lia].
  - destruct r as [l|]; simpl in IH |- *.
    + destruct IH as (Hl & Hlv & Hmax & Hlast). split; [lia|]. split; [done|].
      split; [|done].
      intros i Hi Hiv. destruct (decide (i = k)) as [->|Hne]; [congruence|].
      apply Hmax; [lia|done].
    + intros i Hi. destruct (decide (i = k)) as [->|Hne]; [done|]. apply IH; lia.
Qed.

Lemma FindLargest_loop_last cs k : ∀ r,
  last_largest_from cs k r →
  last_largest_from cs 0 (foldl (largest_step cs) r (reverse (seq 0 k))).
Proof.
  induction k as [|k IH]; intros r Hr; [done|].
  rewrite seq_S, reverse_app. simpl. apply IH. by apply largest_step_from.
Qed.

Lemma child_at_beyond cs (i : nat) :
  (length cs ≤ i)%nat → IteratorWrapper.Valid (child_at cs i) = false.
Proof. intros Hi. unfold child_at. by rewrite lookup_ge_None_2. Qed.

Lemma FindLargest_in_spec cs : last_largest_from cs 0 (FindLargest_in cs).
Proof.
  apply FindLargest_loop_last. intros i Hi. by apply child_at_beyond.
Qed.

(** X8. [FindSmallest] makes [current_] the child with the smallest key
    among the valid children, and among children with equal keys the one
    lowest in the array; [FindLargest] makes it the child with the largest
    key, and among equals the one highest in the array.  Either leaves the
    iterator invalid exactly when no child is valid. *)
Theorem FindSmallest_FindLargest_pick (m : MergingIterator) :
  let cs := children_ m in
  children_ (FindSmallest m) = cs ∧ children_ (FindLargest m) = cs ∧
  match current_ (FindSmallest m) with
  | None => ∀ w, w ∈ cs → IteratorWrapper.Valid w = false
  | Some s =>
      (s < length cs)%nat ∧ valid_at cs s ∧
      (∀ i, valid_at cs i → Compare (key_at cs s) (key_at cs i) <= 0) ∧
      (∀ i, (i < s)%nat → valid_at cs i → Compare (key_at cs s) (key_at cs i) < 0)
  end ∧
  match current_ (FindLargest m) with
  | None => ∀ w, w ∈ cs → IteratorWrapper.Valid w = false
  | Some l =>
      (l < length cs)%nat ∧ valid_at cs l ∧
      (∀ i, valid_at cs i → Compare (key_at cs i) (key_at cs l) <= 0) ∧
      (∀ i, (l < i)%nat → valid_at cs i → Compare (key_at cs i) (key_at cs l) < 0)
  end.
Proof.
  intros cs. split; [done|]. split; [done|]. simpl. fold cs.
  pose proof (FindSmallest_loop_first cs (length cs)) as Hs.
  pose proof (FindLargest_in_spec cs) as Hl.
  fold (FindSmallest_in cs) in Hs.
  assert (Hin : ∀ i, valid_at cs i → (i < length cs)%nat).
  { intros i Hv. destruct (decide (i < length cs)%nat); [done|].
    rewrite child_at_beyond in Hv by lia. discriminate. }
  split.
  - destruct (FindSmallest_in cs) as [s|]; simpl in Hs.
    + destruct Hs as (H1 & H2 & H3 & H4). split; [done|]. split; [done|]. split; [|done].
      intros i Hv. apply H3; [by apply Hin|done].
    + intros w Hw. apply list_elem_of_lookup in Hw as [i Hi].
      rewrite <- (child_at_lookup cs i w Hi). apply Hs. by apply lookup_lt_Some in Hi.
  - destruct (FindLargest_in cs) as [l|]; simpl in Hl.
    + destruct Hl as (H1 & H2 & H3 & H4). split; [by apply Hin|]. split; [done|].
      split; [|done]. intros i Hv. apply H3; [lia|done].
    + intros w Hw. apply list_elem_of_lookup in Hw as [i Hi].
      rewrite <- (child_at_lookup cs i w Hi). apply Hl. lia.
Qed.

(** *** [Seek], then forward *)

(** Entries whose key is at or past [target]. *)
Definition at_or_past (target : Slice) (e : Slice * Slice) : Prop := 0 <= Compare e.1 target.

#[export] Instance at_or_past_dec target e : Decision (at_or_past target e).
Proof. unfold at_or_past. apply _. Defined.

Lemma filter_all {A} (P : A → Prop) `{!∀ x, Decision (P x)} (l : list A) :
  Forall P l → filter P l = l.
Proof.
  induction 1 as [|x l Hx Hl IH]; [done|]. rewrite filter_cons_True by done. by rewrite IH.
Qed.

Lemma filter_concat {A} (P : A → Prop) `{!∀ x, Decision (P x)} (ls : list (list A)) :
  filter P (concat ls) = concat (filter P <$> ls).
Proof.
  induction ls as [|l ls IH]; [done|]. simpl. by rewrite filter_app, IH.
Qed.

Lemma lower_bound_drop target l :
  StronglySorted key_le l →
  drop (Iter.lower_bound target l) l = filter (at_or_past target) l.
Proof.
  induction 1 as [|[k v] l Hl IH Hhd]; [done|]. simpl.
  destruct (Z.ltb_spec (Compare k target) 0) as [Hlt|Hge].
  - simpl. rewrite filter_cons_False; [done|]. unfold at_or_past. simpl. lia.
  - simpl. symmetry. apply filter_all. constructor; [done|].
    eapply Forall_impl; [exact Hhd|]. intros [k' v'] Hle. unfold at_or_past, key_le in *.
    simpl in *. destruct (Z.lt_ge_cases (Compare k' target) 0) as [Hlt|]; [|lia].
    pose proof (Compare_le_lt_trans k k' target Hle Hlt). lia.
Qed.

Lemma Seek_remaining target (cs : list IteratorWrapper.t) :
  Forall (λ w, StronglySorted key_le (IteratorWrapper.entries w)) cs →
  all_remaining (IteratorWrapper.Seek target <$> cs)
  = filter (at_or_past target) (all_entries cs).
Proof.
  intros Hsorted. unfold all_remaining, all_entries.
  rewrite filter_concat, <- !list_fmap_compose. f_equal.
  apply Forall_fmap_ext_1. eapply Forall_impl; [exact Hsorted|].
  intros [[it|]] Hs; simpl in *; [|done].
  unfold Iter.remaining. simpl. by apply lower_bound_drop.
Qed.

Lemma scan_forward_head fuel m out :
  scan_forward fuel m = Some out → key m = fst <$> head out.
Proof.
  destruct fuel; simpl; unfold Valid.
  - unfold key. destruct (current_ m); [done|]. by intros [= <-].
  - destruct (current_ m) as [c|] eqn:Hc; [|unfold key; rewrite Hc; by intros [= <-]].
    destruct (key m) as [k|]; [|done]. simpl.
    destruct (value m) as [v|]; [|done]. simpl.
    destruct (Next m) as [m'|]; [|done]. simpl.
    destruct (scan_forward fuel m') as [out'|]; [|done]. simpl. by intros [= <-].
Qed.

Lemma sorted_entries_strongly (cs : list IteratorWrapper.t) :
  Forall (λ w, Sorted key_le (IteratorWrapper.entries w)) cs →
  Forall (λ w, StronglySorted key_le (IteratorWrapper.entries w)) cs.
Proof.
  intros H. eapply Forall_impl; [exact H|].
  intros w. apply Sorted_StronglySorted, key_le_trans.
Qed.

Lemma remaining_sorted (w : IteratorWrapper.t) :
  StronglySorted key_le (IteratorWrapper.entries w) →
  StronglySorted key_le (IteratorWrapper.remaining w).
Proof.
  destruct w as [[it|]]; simpl; [|constructor]. unfold Iter.remaining.
  rewrite <- (take_drop (Iter.pos it) (Iter.entries it)) at 1.
  apply StronglySorted_app_1_r.
Qed.

(** X9. [Seek(target)] followed by [Next] while [Valid] visits exactly the
    entries of the children whose key is at or past [target], in ascending key
    order; in particular right after [Seek] the iterator is valid exactly
    when there is such an entry, and then [key()] is the smallest such
    key. *)
Theorem Seek_then_forward_scan
  (children : list Iter.t) (current : option nat) (direction : Direction)
  (target : Slice) (fuel : nat) :
  Forall (λ c, Sorted key_le (Iter.entries c)) children →
  (length (concat (Iter.entries <$> children)) ≤ fuel)%nat →
  let m := Seek target (mk (children_ (new children)) current direction) in
  ∃ out, scan_forward fuel m = Some out ∧
         out ≡ₚ filter (at_or_past target) (concat (Iter.entries <$> children)) ∧
         Sorted key_le out ∧
         key m = fst <$> head out.
Proof.
  intros Hsorted Hfuel m.
  pose proof (sorted_entries_strongly _ (new_children_sorted children Hsorted)) as Hss.
  pose proof (Seek_remaining target _ Hss) as Hrem.
  rewrite new_all_entries in Hrem.
  destruct (scan_forward_spec fuel (IteratorWrapper.Seek target <$> children_ (new children)))
    as (out & Hout & Hperm & Hsout).
  - apply Forall_fmap. eapply Forall_impl; [exact Hss|].
    intros w Hw. simpl. apply remaining_sorted. by destruct w as [[it|]].
  - rewrite Hrem. etrans; [apply length_filter|done].
  - exists out. split; [exact Hout|]. split; [by rewrite Hperm, Hrem|].
    split; [by apply StronglySorted_Sorted|]. by apply (scan_forward_head fuel).
Qed.

(** *** Backwards: [SeekToLast], then [Prev] *)

(** A caller's loop [for (it->SeekToLast(); it->Valid(); it->Prev())]
    collecting [(key, value)]; [fuel] bounds the number of rounds. *)
Fixpoint scan_backward (fuel : nat) (m : MergingIterator) : option (list (Slice * Slice)) :=
  if Valid m then
    match fuel with
    | O => None
    | S fuel' =>
        k ← key m;
        v ← value m;
        m' ← Prev m;
        out ← scan_backward fuel' m';
        Some ((k, v) :: out)
    end
  else Some [].

Definition full_backward_scan (fuel : nat) (m : MergingIterator)
  : option (list (Slice * Slice)) :=
  scan_backward fuel (SeekToLast m).

(** What a backward scan from the current position still has to visit, in
    the order of the sequence. *)
Definition before (w : IteratorWrapper.t) : list (Slice * Slice) :=
  match IteratorWrapper.iter w with
  | Some it => if Iter.Valid it then take (S (Iter.pos it)) (Iter.entries it) else []
  | None => []
  end.

Definition all_before (cs : list IteratorWrapper.t) : list (Slice * Slice) :=
  concat (before <$> cs).

Lemma valid_before w :
  IteratorWrapper.Valid w = true →
  before w = before (IteratorWrapper.Prev w) ++ [(IteratorWrapper.key w, IteratorWrapper.value w)].
Proof.
  destruct w as [[[es p st]|]]; [|discriminate].
  unfold IteratorWrapper.Valid, before, IteratorWrapper.key, IteratorWrapper.value,
    IteratorWrapper.Prev, Iter.Prev, Iter.Valid, Iter.key, Iter.value. simpl.
  intros Hv. rewrite Hv. apply bool_decide_eq_true in Hv.
  destruct (lookup_lt_is_Some_2 _ _ Hv) as [[k v] Hkv]. rewrite Hkv.
  destruct p as [|p]; simpl.
  - rewrite bool_decide_eq_false_2 by lia. simpl.
    destruct es as [|e es]; simpl in *; [done|]. rewrite take_0. by injection Hkv as ->.
  - rewrite bool_decide_eq_true_2 by lia. by apply take_S_r.
Qed.

Lemma invalid_before w : IteratorWrapper.Valid w = false → before w = [].
Proof.
  destruct w as [[it|]]; [|done]. unfold IteratorWrapper.Valid, before. simpl. by intros ->.
Qed.

Lemma SeekToLast_before cs :
  all_before (IteratorWrapper.SeekToLast <$> cs) = all_entries cs.
Proof.
  unfold all_before, all_entries. rewrite <- list_fmap_compose. f_equal.
  apply list_fmap_ext. intros _ [[[es p st]|]] _; [|done].
  unfold before, Iter.Valid. simpl. destruct es as [|e es]; [done|].
  rewrite bool_decide_eq_true_2 by (simpl; lia).
  apply take_ge. simpl. lia.
Qed.

Lemma all_before_nil cs :
  (∀ i, (0 ≤ i)%nat → IteratorWrapper.Valid (child_at cs i) = false) →
  all_before cs = [].
Proof.
  intros Hall. unfold all_before.
  induction cs as [|w cs IH]; [reflexivity|]. simpl.
  rewrite (invalid_before w) by (apply (Hall 0%nat); lia).
  simpl. apply IH. intros i Hi. apply (Hall (S i)). lia.
Qed.

Lemma all_before_step cs l :
  IteratorWrapper.Valid (child_at cs l) = true →
  all_before cs ≡ₚ
    (IteratorWrapper.key (child_at cs l), IteratorWrapper.value (child_at cs l))
      :: all_before (alter IteratorWrapper.Prev l cs).
Proof.
  unfold all_before. revert l.
  induction cs as [|w cs IH]; intros l Hv; [destruct l; discriminate|].
  destruct l as [|l]; simpl in *.
  - unfold child_at in *; simpl in *. rewrite (valid_before w Hv).
    rewrite <- app_assoc. simpl. symmetry. apply Permutation_middle.
  - unfold child_at in *; simpl in *. rewrite (IH l Hv).
    symmetry. apply Permutation_middle.
Qed.

Lemma largest_above_all cs l :
  Forall (λ w, StronglySorted key_le (before w)) cs →
  FindLargest_in cs = Some l →
  Forall (λ e, key_le e (IteratorWrapper.key (child_at cs l),
                         IteratorWrapper.value (child_at cs l)))
         (all_before cs).
Proof.
  intros Hsorted Hl. pose proof (FindLargest_in_spec cs) as Hspec.
  rewrite Hl in Hspec. destruct Hspec as (_ & _ & Hmax & _).
  unfold all_before. apply Forall_concat, Forall_fmap, Forall_lookup.
  intros i w Hw. simpl.
  pose proof (Forall_lookup_1 _ _ _ _ Hsorted Hw) as Hws. simpl in Hws.
  destruct (IteratorWrapper.Valid w) eqn:Hv.
  - assert (Hle : Compare (IteratorWrapper.key w) (IteratorWrapper.key (child_at cs l)) <= 0).
    { rewrite <- (child_at_lookup cs i w Hw). apply Hmax; [lia|].
      by rewrite (child_at_lookup cs i w Hw). }
    rewrite (valid_before w Hv) in Hws |- *.
    apply Forall_app. split; [|by constructor].
    apply Forall_forall. intros e He.
    pose proof (StronglySorted_app_1_elem_of _ _ _ e _ Hws He (list_elem_of_here _ _)) as Hew.
    unfold key_le in *. simpl in *. eapply Compare_trans; eauto.
  - rewrite (invalid_before w Hv). constructor.
Qed.

Lemma sorted_after_Prev cs l :
  Forall (λ w, StronglySorted key_le (before w)) cs →
  IteratorWrapper.Valid (child_at cs l) = true →
  Forall (λ w, StronglySorted key_le (before w)) (alter IteratorWrapper.Prev l cs).
Proof.
  intros Hsorted Hv. apply Forall_lookup. intros i w Hw.
  destruct (decide (i = l)) as [->|Hne].
  - rewrite list_lookup_alter_eq in Hw.
    destruct (cs !! l) as [w0|] eqn:Hw0; simplify_eq/=.
    pose proof (Forall_lookup_1 _ _ _ _ Hsorted Hw0) as Hws. simpl in Hws.
    rewrite (child_at_lookup _ _ _ Hw0) in Hv.
    rewrite (valid_before w0 Hv) in Hws. by apply StronglySorted_app_1_l in Hws.
  - rewrite list_lookup_alter_ne in Hw by done.
    exact (Forall_lookup_1 _ _ _ _ Hsorted Hw).
Qed.

Lemma scan_backward_spec fuel : ∀ cs,
  Forall (λ w, StronglySorted key_le (before w)) cs →
  (length (all_before cs) ≤ fuel)%nat →
  ∃ out, scan_backward fuel (mk cs (FindLargest_in cs) kReverse) = Some out ∧
         out ≡ₚ all_before cs ∧ StronglySorted (flip key_le) out.
Proof.
  induction fuel as [|fuel IH]; intros cs Hsorted Hfuel.
  all: pose proof (FindLargest_in_spec cs) as Hspec.
  all: destruct (FindLargest_in cs) as [l|] eqn:Hl; simpl in Hspec.
  all: try (exists []; simpl; unfold Valid; simpl; split; [reflexivity|];
            rewrite (all_before_nil cs Hspec); split; [done|constructor]).
  - destruct Hspec as (_ & Hv & _).
    pose proof (all_before_step cs l Hv) as Hp.
    apply Permutation_length in Hp. simpl in Hp. lia.
  - pose proof (largest_above_all cs l Hsorted Hl) as Habove.
    destruct Hspec as (_ & Hv & _).
    pose proof (all_before_step cs l Hv) as Hp.
    destruct (IH (alter IteratorWrapper.Prev l cs)) as (out & Hout & Hperm & Hss).
    { by apply sorted_after_Prev. }
    { apply Permutation_length in Hp. simpl in Hp. lia. }
    exists ((IteratorWrapper.key (child_at cs l), IteratorWrapper.value (child_at cs l)) :: out).
    split; [|split].
    + simpl. unfold Valid, key, value, Prev, FindLargest. simpl. by rewrite Hout.
    + by rewrite Hp, Hperm.
    + constructor; [done|].
      rewrite Hp in Habove. apply Forall_cons in Habove as [_ Habove].
      by rewrite Hperm.
Qed.

Lemma before_sorted (w : IteratorWrapper.t) :
  StronglySorted key_le (IteratorWrapper.entries w) → StronglySorted key_le (before w).
Proof.
  destruct w as [[it|]]; unfold before; simpl; [|constructor].
  destruct (Iter.Valid it); [|constructor].
  intros H. change (StronglySorted key_le (Iter.entries it)) in H.
  rewrite <- (take_drop (S (Iter.pos it)) (Iter.entries it)) in H.
  by apply StronglySorted_app_1_l in H.
Qed.

(** X10. Over children whose sequences are each sorted by key, the
    caller's loop [SeekToLast], then [Prev] while [Valid], terminates within
    as many rounds as the children hold entries and visits a rearrangement of
    all their entries (duplicates kept) in descending key order. *)
Theorem merging_backward_scan_is_reverse_sorted_merge
  (children : list Iter.t) (current : option nat) (direction : Direction) (fuel : nat) :
  Forall (λ c, Sorted key_le (Iter.entries c)) children →
  (length (concat (Iter.entries <$> children)) ≤ fuel)%nat →
  ∃ out, full_backward_scan fuel (mk (children_ (new children)) current direction) = Some out ∧
         out ≡ₚ concat (Iter.entries <$> children) ∧ Sorted (flip key_le) out.
Proof.
  intros Hsorted Hfuel.
  pose proof (sorted_entries_strongly _ (new_children_sorted children Hsorted)) as Hss.
  rewrite <- new_all_entries in *.
  destruct (scan_backward_spec fuel (IteratorWrapper.SeekToLast <$> children_ (new children)))
    as (out & Hout & Hperm & Hsout).
  - apply Forall_fmap. eapply Forall_impl; [exact Hss|].
    intros w Hw. simpl. apply before_sorted. by destruct w as [[it|]].
  - by rewrite SeekToLast_before.
  - exists out. split; [exact Hout|]. split; [by rewrite Hperm, SeekToLast_before|].
    by apply StronglySorted_Sorted.
Qed.

(** *** Turning round: [Next] on an iterator that was moving backwards *)

(** Strict order on entries, and entries whose key is strictly past [k]. *)
Definition key_lt (a b : Slice * Slice) : Prop := Compare a.1 b.1 < 0.

Definition past (k : Slice) (e : Slice * Slice) : Prop := 0 < Compare e.1 k.

#[export] Instance past_dec k e : Decision (past k e).
Proof. unfold past. apply _. Defined.

#[local] Instance key_lt_trans : Transitive key_lt.
Proof.
  intros a b c Hab Hbc. unfold key_lt in *.
  apply Compare_lt_le_trans with b.1; [done|lia].
Qed.

Lemma Compare_lt_flip a b : Compare a b < 0 → 0 < Compare b a.
Proof.
  intros H. pose proof (Compare_flip a b) as Hflip.
  destruct (Compare a b), (Compare b a); simpl in Hflip; try discriminate; lia.
Qed.

Lemma Compare_eq_flip a b : Compare a b = 0 → Compare b a = 0.
Proof.
  intros H. pose proof (Compare_flip a b) as Hflip. rewrite H in Hflip.
  destruct (Compare b a); simpl in Hflip; try discriminate; lia.
Qed.

Lemma key_lt_le_sorted l : StronglySorted key_lt l → StronglySorted key_le l.
Proof.
  induction 1 as [|e l Hl IH Hhd]; constructor; [done|].
  eapply Forall_impl; [exact Hhd|]. intros e'. unfold key_lt, key_le. lia.
Qed.

Lemma filter_none {A} (P : A → Prop) `{!∀ x, Decision (P x)} (l : list A) :
  Forall (λ x, ¬ P x) l → filter P l = [].
Proof.
  induction 1 as [|x l Hx Hl IH]; [done|]. by rewrite filter_cons_False.
Qed.

Lemma filter_sorted {A} (R : relation A) (P : A → Prop) `{!∀ x, Decision (P x)} (l : list A) :
  StronglySorted R l → StronglySorted R (filter P l).
Proof.
  induction 1 as [|x l Hl IH Hhd]; [constructor|].
  destruct (decide (P x)).
  - rewrite filter_cons_True by done. constructor; [done|].
    apply Forall_forall. intros y Hy. apply list_elem_of_filter in Hy as [_ Hy].
    by apply (proj1 (Forall_forall _ _) Hhd).
  - by rewrite filter_cons_False.
Qed.

(** In a strictly increasing sequence, the entries past the key at position
    [p] are those after position [p]. *)
Lemma past_after_position l : ∀ (p : nat) k v,
  StronglySorted key_lt l → l !! p = Some (k, v) → filter (past k) l = drop (S p) l.
Proof.
  induction l as [|e l IH]; intros p k v Hs Hp; [done|].
  apply StronglySorted_inv in Hs as [Hs Hhd].
  destruct p as [|p]; simpl in *.
  - injection Hp as ->. rewrite filter_cons_False.
    + rewrite drop_0. apply filter_all. eapply Forall_impl; [exact Hhd|].
      intros e'. unfold key_lt, past. simpl. apply Compare_lt_flip.
    + unfold past. simpl. rewrite Compare_refl. lia.
  - rewrite filter_cons_False; [by apply (IH p k v)|].
    assert (Hlt : key_lt e (k, v)).
    { apply (proj1 (Forall_forall _ _) Hhd). by apply list_elem_of_lookup_2 in Hp. }
    unfold key_lt, past in *. simpl in *. pose proof (Compare_lt_flip _ _ Hlt).
    intros Hpast. apply Compare_gt_flip in Hpast. lia.
Qed.

(** Where [Seek(k)], followed by one [Next] if it landed on [k], leaves a
    child: on the sequence, from position [lower_bound] or the one after. *)
Definition after_seek (k : Slice) (l : list (Slice * Slice)) : list (Slice * Slice) :=
  let p := Iter.lower_bound k l in
  match l !! p with
  | Some (k1, _) => if Compare k k1 =? 0 then drop (S p) l else drop p l
  | None => drop p l
  end.

Lemma after_seek_past k l :
  StronglySorted key_lt l → after_seek k l = filter (past k) l.
Proof.
  induction 1 as [|[k0 v0] l Hl IH Hhd]; [done|].
  unfold after_seek in *. simpl.
  destruct (Z.ltb_spec (Compare k0 k) 0) as [Hlt|Hge]; simpl.
  - rewrite filter_cons_False; [exact IH|]. unfold past. simpl. lia.
  - destruct (Z.eqb_spec (Compare k k0) 0) as [Heq|Hne].
    + rewrite drop_0, filter_cons_False.
      * symmetry. apply filter_all. eapply Forall_impl; [exact Hhd|].
        intros [k' v']. unfold key_lt, past. simpl. intros Hlt.
        apply Compare_lt_flip. apply Compare_le_lt_trans with k0; [lia|done].
      * unfold past. simpl. rewrite (Compare_eq_flip _ _ Heq). lia.
    + assert (Hgt : 0 < Compare k0 k).
      { destruct (Z.eq_dec (Compare k0 k) 0) as [E|]; [|lia].
        by apply Compare_eq_flip in E. }
      symmetry. apply filter_all. constructor; [done|].
      eapply Forall_impl; [exact Hhd|].
      intros [k' v']. unfold key_lt, past. simpl. intros Hlt.
      apply Compare_lt_flip. apply Compare_lt_le_trans with k0; [by apply Compare_gt_flip|lia].
Qed.

Lemma reposition_remaining k (w : IteratorWrapper.t) :
  StronglySorted key_lt (IteratorWrapper.entries w) →
  let child1 := IteratorWrapper.Seek k w in
  IteratorWrapper.remaining
    (if IteratorWrapper.Valid child1 && (Compare k (IteratorWrapper.key child1) =? 0)
     then IteratorWrapper.Next child1 else child1)
  = filter (past k) (IteratorWrapper.entries w).
Proof.
  destruct w as [[[es p st]|]]; [|done]. intros Hs child1. subst child1.
  change (StronglySorted key_lt es) in Hs.
  change (IteratorWrapper.entries _) with es.
  rewrite <- (after_seek_past k es Hs). unfold after_seek.
  unfold IteratorWrapper.Valid, IteratorWrapper.key, IteratorWrapper.Seek,
    IteratorWrapper.Next, IteratorWrapper.remaining,
    Iter.Valid, Iter.key, Iter.Seek, Iter.Next, Iter.remaining. simpl.
  destruct (es !! Iter.lower_bound k es) as [[k1 v1]|] eqn:Hl.
  - rewrite bool_decide_eq_true_2 by (by apply lookup_lt_Some in Hl). simpl.
    by destruct (Compare k k1 =? 0).
  - rewrite bool_decide_eq_false_2; [done|]. apply lookup_ge_None in Hl. lia.
Qed.

Lemma turned_children (cs : list IteratorWrapper.t) (c : nat) :
  Forall (λ w, StronglySorted key_lt (IteratorWrapper.entries w)) cs →
  IteratorWrapper.Valid (child_at cs c) = true →
  let k := IteratorWrapper.key (child_at cs c) in
  IteratorWrapper.remaining <$> alter IteratorWrapper.Next c (reposition_forward c k cs)
  = (λ w, filter (past k) (IteratorWrapper.entries w)) <$> cs.
Proof.
  intros Hsorted Hv k.
  apply list_eq. intros i. rewrite !list_lookup_fmap.
  unfold reposition_forward.
  destruct (decide (i = c)) as [->|Hne].
  - rewrite list_lookup_alter_eq, list_lookup_imap.
    destruct (cs !! c) as [w|] eqn:Hw; [|done]. simpl. rewrite decide_True by done.
    f_equal. pose proof (Forall_lookup_1 _ _ _ _ Hsorted Hw) as Hs. simpl in Hs.
    subst k. rewrite (child_at_lookup _ _ _ Hw) in *.
    destruct w as [[[es p st]|]]; [|discriminate].
    unfold IteratorWrapper.Valid, Iter.Valid in Hv. simpl in *.
    apply bool_decide_eq_true in Hv.
    destruct (lookup_lt_is_Some_2 _ _ Hv) as [[k0 v0] Hp].
    unfold IteratorWrapper.key, Iter.key, Iter.remaining. simpl. rewrite Hp.
    symmetry. by apply (past_after_position es p k0 v0).
  - rewrite list_lookup_alter_ne, list_lookup_imap by done.
    destruct (cs !! i) as [w|] eqn:Hw; [|done]. simpl. rewrite decide_False by done.
    f_equal. apply reposition_remaining.
    exact (Forall_lookup_1 _ _ _ _ Hsorted Hw).
Qed.

(** X11. Turning round.  On an iterator that was moving backwards and
    stands on key [k], over children whose keys are strictly increasing,
    [Next] succeeds, switches to the forward direction, and from there
    [Next] while [Valid] visits exactly the entries whose key is strictly
    greater than [k], in ascending order, whatever the positions the other
    children were left in: [key()] right after that [Next] is the successor of
    [k] among all keys, and the iterator is invalid when there is none. *)
Theorem Next_turns_forward_past_key
  (children : list Iter.t) (c : nat) (fuel : nat) :
  let cs := children_ (new children) in
  let k := IteratorWrapper.key (child_at cs c) in
  Forall (λ ch, Sorted key_lt (Iter.entries ch)) children →
  IteratorWrapper.Valid (child_at cs c) = true →
  (length (concat (Iter.entries <$> children)) ≤ fuel)%nat →
  ∃ m', Next (mk cs (Some c) kReverse) = Some m' ∧
        direction_ m' = kForward ∧
        ∃ out, scan_forward fuel m' = Some out ∧
               out ≡ₚ filter (past k) (concat (Iter.entries <$> children)) ∧
               Sorted key_le out ∧
               key m' = fst <$> head out.
Proof.
  intros cs k Hsorted Hv Hfuel.
  assert (Hss : Forall (λ w, StronglySorted key_lt (IteratorWrapper.entries w)) cs).
  { subst cs. unfold new. simpl. apply Forall_fmap.
    eapply Forall_impl; [exact Hsorted|]. intros ch Hch. simpl.
    by apply Sorted_StronglySorted; [apply key_lt_trans|]. }
  set (cs2 := alter IteratorWrapper.Next c (reposition_forward c k cs)).
  assert (Hch : IteratorWrapper.remaining <$> cs2
                = (λ w, filter (past k) (IteratorWrapper.entries w)) <$> cs)
    by exact (turned_children cs c Hss Hv).
  assert (Hrem : all_remaining cs2 = filter (past k) (concat (Iter.entries <$> children))).
  { unfold all_remaining. rewrite Hch. rewrite <- (new_all_entries children).
    fold cs. unfold all_entries. by rewrite filter_concat, <- list_fmap_compose. }
  destruct (scan_forward_spec fuel cs2) as (out & Hout & Hperm & Hsout).
  - apply Forall_lookup. intros i w Hw.
    assert (Hlk : (IteratorWrapper.remaining <$> cs2) !! i = Some (IteratorWrapper.remaining w)).
    { by rewrite list_lookup_fmap, Hw. }
    rewrite Hch, list_lookup_fmap in Hlk.
    destruct (cs !! i) as [w0|] eqn:Hw0; [|done]. simpl in Hlk. injection Hlk as <-.
    apply filter_sorted, key_lt_le_sorted.
    exact (Forall_lookup_1 _ _ _ _ Hss Hw0).
  - rewrite Hrem. etrans; [apply length_filter|done].
  - exists (mk cs2 (FindSmallest_in cs2) kForward). split; [reflexivity|]. split; [reflexivity|].
    exists out. split; [exact Hout|]. split; [by rewrite Hperm, Hrem|].
    split; [by apply StronglySorted_Sorted|]. by apply (scan_forward_head fuel).
Qed.

(** *** Turning round the other way: [Prev] on an iterator that was
    moving forwards *)

(** Entries whose key is strictly before [k]. *)
Definition short_of (k : Slice) (e : Slice * Slice) : Prop := Compare e.1 k < 0.

#[export] Instance short_of_dec k e : Decision (short_of k e).
Proof. unfold short_of. apply _. Defined.

Lemma scan_backward_head fuel m out :
  scan_backward fuel m = Some out → key m = fst <$> head out.
Proof.
  destruct fuel; simpl; unfold Valid.
  - unfold key. destruct (current_ m); [done|]. by intros [= <-].
  - destruct (current_ m) as [c|] eqn:Hc; [|unfold key; rewrite Hc; by intros [= <-]].
    destruct (key m) as [k|]; [|done]. simpl.
    destruct (value m) as [v|]; [|done]. simpl.
    destruct (Prev m) as [m'|]; [|done]. simpl.
    destruct (scan_backward fuel m') as [out'|]; [|done]. simpl. by intros [= <-].
Qed.

(** In a sorted sequence, the entries short of [k] are those before
    position [lower_bound]. *)
Lemma lower_bound_take k l :
  StronglySorted key_le l →
  take (Iter.lower_bound k l) l = filter (short_of k) l.
Proof.
  induction 1 as [|[k0 v0] l Hl IH Hhd]; [done|]. simpl.
  destruct (Z.ltb_spec (Compare k0 k) 0) as [Hlt|Hge]; simpl.
  - rewrite filter_cons_True by done. by rewrite IH.
  - symmetry. apply filter_none. constructor.
    + unfold short_of. simpl. lia.
    + eapply Forall_impl; [exact Hhd|]. intros [k' v'] Hle. unfold short_of, key_le in *.
      simpl in *. intros Hlt. pose proof (Compare_le_lt_trans k0 k' k Hle Hlt). lia.
Qed.

(** In a strictly increasing sequence, the entries short of the key at
    position [p] are those before position [p]. *)
Lemma short_of_position l : ∀ (p : nat) k v,
  StronglySorted key_lt l → l !! p = Some (k, v) → filter (short_of k) l = take p l.
Proof.
  induction l as [|e l IH]; intros p k v Hs Hp; [done|].
  apply StronglySorted_inv in Hs as [Hs Hhd].
  destruct p as [|p]; simpl in *.
  - injection Hp as ->. apply filter_none. constructor.
    + unfold short_of. simpl. rewrite Compare_refl. lia.
    + eapply Forall_impl; [exact Hhd|]. intros e'. unfold key_lt, short_of. simpl.
      intros Hlt Hback. pose proof (Compare_lt_flip _ _ Hlt). lia.
  - rewrite filter_cons_True; [by rewrite (IH p k v)|].
    apply (proj1 (Forall_forall _ _) Hhd (k, v)). by apply list_elem_of_lookup_2 in Hp.
Qed.

Lemma lower_bound_le k (l : list (Slice * Slice)) : (Iter.lower_bound k l ≤ length l)%nat.
Proof.
  induction l as [|[k0 v0] l IH]; simpl; [done|].
  destruct (Compare k0 k <? 0); simpl; lia.
Qed.

Lemma reposition_before k (w : IteratorWrapper.t) :
  StronglySorted key_le (IteratorWrapper.entries w) →
  let child1 := IteratorWrapper.Seek k w in
  before (if IteratorWrapper.Valid child1 then IteratorWrapper.Prev child1
          else IteratorWrapper.SeekToLast child1)
  = filter (short_of k) (IteratorWrapper.entries w).
Proof.
  destruct w as [[[es p st]|]]; [|done]. intros Hs child1. subst child1.
  change (StronglySorted key_le es) in Hs.
  change (IteratorWrapper.entries _) with es.
  rewrite <- (lower_bound_take k es Hs).
  unfold IteratorWrapper.Valid, IteratorWrapper.Seek, IteratorWrapper.Prev,
    IteratorWrapper.SeekToLast, before, Iter.Valid, Iter.Seek, Iter.Prev, Iter.SeekToLast.
  simpl.
  pose proof (lower_bound_le k es) as Hlb.
  destruct (decide (Iter.lower_bound k es < length es)%nat) as [Hin|Hout].
  - rewrite bool_decide_eq_true_2 by done.
    destruct (Iter.lower_bound k es) as [|q]; simpl.
    + by rewrite bool_decide_eq_false_2 by lia.
    + by rewrite bool_decide_eq_true_2 by lia.
  - rewrite bool_decide_eq_false_2 by done. simpl.
    assert (Heq : Iter.lower_bound k es = length es) by lia. rewrite Heq.
    destruct es as [|e es]; [done|].
    rewrite bool_decide_eq_true_2 by (simpl; lia).
    f_equal. simpl. lia.
Qed.

Lemma turned_back_children (cs : list IteratorWrapper.t) (c : nat) :
  Forall (λ w, StronglySorted key_lt (IteratorWrapper.entries w)) cs →
  IteratorWrapper.Valid (child_at cs c) = true →
  let k := IteratorWrapper.key (child_at cs c) in
  before <$> alter IteratorWrapper.Prev c (reposition_backward c k cs)
  = (λ w, filter (short_of k) (IteratorWrapper.entries w)) <$> cs.
Proof.
  intros Hsorted Hv k.
  apply list_eq. intros i. rewrite !list_lookup_fmap.
  unfold reposition_backward.
  destruct (decide (i = c)) as [->|Hne].
  - rewrite list_lookup_alter_eq, list_lookup_imap.
    destruct (cs !! c) as [w|] eqn:Hw; [|done]. simpl. rewrite decide_True by done.
    f_equal. pose proof (Forall_lookup_1 _ _ _ _ Hsorted Hw) as Hs. simpl in Hs.
    subst k. rewrite (child_at_lookup _ _ _ Hw) in *.
    destruct w as [[[es p st]|]]; [|discriminate].
    unfold IteratorWrapper.Valid, Iter.Valid in Hv. simpl in *.
    apply bool_decide_eq_true in Hv.
    destruct (lookup_lt_is_Some_2 _ _ Hv) as [[k0 v0] Hp].
    unfold IteratorWrapper.key, Iter.key. simpl. rewrite Hp.
    change (IteratorWrapper.entries _) with es.
    rewrite (short_of_position es p k0 v0 Hs Hp).
    unfold before, IteratorWrapper.Prev, Iter.Prev, Iter.Valid. simpl.
    destruct p as [|p]; simpl.
    + by rewrite bool_decide_eq_false_2 by lia.
    + by rewrite bool_decide_eq_true_2 by lia.
  - rewrite list_lookup_alter_ne, list_lookup_imap by done.
    destruct (cs !! i) as [w|] eqn:Hw; [|done]. simpl. rewrite decide_False by done.
    f_equal. apply reposition_before. apply key_lt_le_sorted.
    exact (Forall_lookup_1 _ _ _ _ Hsorted Hw).
Qed.

(** X22. Turning round the other way.  On an iterator that was moving
    forwards and stands on key [k], over children whose keys are strictly
    increasing, [Prev] succeeds, switches to the reverse direction, and from
    there [Prev] while [Valid] visits exactly the entries whose key is
    strictly before [k], in descending order, whatever the positions the
    other children were left in: [key()] right after that [Prev] is the
    predecessor of [k] among all keys, and the iterator is invalid when there
    is none. *)
Theorem Prev_turns_backward_short_of_key
  (children : list Iter.t) (c : nat) (fuel : nat) :
  let cs := children_ (new children) in
  let k := IteratorWrapper.key (child_at cs c) in
  Forall (λ ch, Sorted key_lt (Iter.entries ch)) children →
  IteratorWrapper.Valid (child_at cs c) = true →
  (length (concat (Iter.entries <$> children)) ≤ fuel)%nat →
  ∃ m', Prev (mk cs (Some c) kForward) = Some m' ∧
        direction_ m' = kReverse ∧
        ∃ out, scan_backward fuel m' = Some out ∧
               out ≡ₚ filter (short_of k) (concat (Iter.entries <$> children)) ∧
               Sorted (flip key_le) out ∧
               key m' = fst <$> head out.
Proof.
  intros cs k Hsorted Hv Hfuel.
  assert (Hss : Forall (λ w, StronglySorted key_lt (IteratorWrapper.entries w)) cs).
  { subst cs. unfold new. simpl. apply Forall_fmap.
    eapply Forall_impl; [exact Hsorted|]. intros ch Hch. simpl.
    by apply Sorted_StronglySorted; [apply key_lt_trans|]. }
  set (cs2 := alter IteratorWrapper.Prev c (reposition_backward c k cs)).
  assert (Hch : before <$> cs2
                = (λ w, filter (short_of k) (IteratorWrapper.entries w)) <$> cs)
    by exact (turned_back_children cs c Hss Hv).
  assert (Hrem : all_before cs2 = filter (short_of k) (concat (Iter.entries <$> children))).
  { unfold all_before. rewrite Hch. rewrite <- (new_all_entries children).
    fold cs. unfold all_entries. by rewrite filter_concat, <- list_fmap_compose. }
  destruct (scan_backward_spec fuel cs2) as (out & Hout & Hperm & Hsout).
  - apply Forall_lookup. intros i w Hw.
    assert (Hlk : (before <$> cs2) !! i = Some (before w)).
    { by rewrite list_lookup_fmap, Hw. }
    rewrite Hch, list_lookup_fmap in Hlk.
    destruct (cs !! i) as [w0|] eqn:Hw0; [|done]. simpl in Hlk. injection Hlk as <-.
    apply filter_sorted, key_lt_le_sorted.
    exact (Forall_lookup_1 _ _ _ _ Hss Hw0).
  - rewrite Hrem. etrans; [apply length_filter|done].
  - exists (mk cs2 (FindLargest_in cs2) kReverse). split; [reflexivity|]. split; [reflexivity|].
    exists out. split; [exact Hout|]. split; [by rewrite Hperm, Hrem|].
    split; [by apply StronglySorted_Sorted|]. by apply (scan_backward_head fuel).
Qed.

End Order.
End MergerFacts.

Module MergerFactsExamples.
Import Merger MergerFacts MergerExamples.
#[local] Existing Instance PlainBytewise.
#[local] Existing Instance PlainBytewise_order.

(** A child whose scan failed, between two healthy ones. *)
Definition child_bad : Iter.t := Iter.mk [] 0 (IOError "read failed").
Definition child_worse : Iter.t := Iter.mk [] 0 (Corruption "bad block").

Lemma status_first_error_witness :
  status (new [child_A; child_bad; child_worse]) = IOError "read failed".
Proof.
  apply (proj2 (status_is_first_child_error (new [child_A; child_bad; child_worse]))
           1%nat (IteratorWrapper.mk (Some child_bad))); [reflexivity|reflexivity|].
  intros [|j] w' Hj Hw; [|lia]. by injection Hw as <-.
Defined.

(** Among the children at ["a"], ["b"] and ["b"], the first holds the
    smallest key and the last of the two at ["b"] the largest. *)
Lemma FindSmallest_FindLargest_witness :
  let cs := children_ (new [child_A; child_B; child_C]) in
  (∀ i, IteratorWrapper.Valid (child_at cs i) = true →
        Compare (IteratorWrapper.key (child_at cs 0)) (IteratorWrapper.key (child_at cs i)) <= 0) ∧
  (∀ i, (2 < i)%nat → IteratorWrapper.Valid (child_at cs i) = true →
        Compare (IteratorWrapper.key (child_at cs i)) (IteratorWrapper.key (child_at cs 2)) < 0).
Proof.
  intros cs.
  destruct (FindSmallest_FindLargest_pick (new [child_A; child_B; child_C]))
    as (_ & _ & Hsmallest & Hlargest).
  change (current_ (FindSmallest (new [child_A; child_B; child_C]))) with (Some 0%nat)
    in Hsmallest.
  change (current_ (FindLargest (new [child_A; child_B; child_C]))) with (Some 2%nat)
    in Hlargest.
  destruct Hsmallest as (_ & _ & Hle & _). destruct Hlargest as (_ & _ & _ & Hlt).
  split; [exact Hle|exact Hlt].
Defined.

Lemma Seek_then_forward_scan_witness :
  ∃ out, scan_forward 6 (Seek (bs "b") (new [child_A; child_B; child_C])) = Some out ∧
         out ≡ₚ filter (at_or_past (bs "b"))
                  (concat (Iter.entries <$> [child_A; child_B; child_C])) ∧
         Sorted key_le out ∧
         key (Seek (bs "b") (new [child_A; child_B; child_C])) = fst <$> head out.
Proof.
  apply (Seek_then_forward_scan [child_A; child_B; child_C] None kForward (bs "b") 6).
  - repeat constructor; unfold key_le; simpl; lia.
  - simpl. lia.
Defined.

Lemma merging_backward_scan_witness :
  ∃ out, full_backward_scan 6 (new [child_A; child_B; child_C]) = Some out ∧
         out ≡ₚ concat (Iter.entries <$> [child_A; child_B; child_C]) ∧
         Sorted (flip key_le) out.
Proof.
  apply (merging_backward_scan_is_reverse_sorted_merge
           [child_A; child_B; child_C] None kForward 6).
  - repeat constructor; unfold key_le; simpl; lia.
  - simpl. lia.
Defined.

(** Standing on ["b"] of the second child while moving backwards, with the
    first child left on ["a"]: [Next] goes on to ["c"], then ["d"]. *)
Lemma Next_turns_forward_witness :
  ∃ m', Next (mk (children_ (new [child_A; child_B])) (Some 1%nat) kReverse) = Some m' ∧
        direction_ m' = kForward ∧
        ∃ out, scan_forward 4 m' = Some out ∧
               out ≡ₚ filter (past (bs "b")) (concat (Iter.entries <$> [child_A; child_B])) ∧
               Sorted key_le out ∧
               key m' = fst <$> head out.
Proof.
  apply (Next_turns_forward_past_key [child_A; child_B] 1 4).
  - repeat constructor; unfold key_lt; simpl; lia.
  - reflexivity.
  - simpl. lia.
Defined.

Example Next_turns_forward_run :
  (m' ← Next (mk (children_ (new [child_A; child_B])) (Some 1%nat) kReverse);
   scan_forward 4 m')
  = Some [(bs "c", bs "3"); (bs "d", bs "4")].
Proof. reflexivity. Qed.

(** Standing on ["c"] of the first child while moving forwards: [Prev]
    goes back to ["b"], then ["a"]. *)
Definition child_A_on_c : Iter.t := Iter.mk [(bs "a", bs "1"); (bs "c", bs "3")] 1 OK.

Lemma Prev_turns_backward_witness :
  ∃ m', Prev (mk (children_ (new [child_A_on_c; child_B])) (Some 0%nat) kForward) = Some m' ∧
        direction_ m' = kReverse ∧
        ∃ out, scan_backward 4 m' = Some out ∧
               out ≡ₚ filter (short_of (bs "c"))
                        (concat (Iter.entries <$> [child_A_on_c; child_B])) ∧
               Sorted (flip key_le) out ∧
               key m' = fst <$> head out.
Proof.
  apply (Prev_turns_backward_short_of_key [child_A_on_c; child_B] 0 4).
  - repeat constructor; unfold key_lt; simpl; lia.
  - reflexivity.
  - simpl. lia.
Defined.

Example Prev_turns_backward_run :
  (m' ← Prev (mk (children_ (new [child_A_on_c; child_B])) (Some 0%nat) kForward);
   scan_backward 4 m')
  = Some [(bs "b", bs "2"); (bs "a", bs "1")].
Proof. reflexivity. Qed.

End MergerFactsExamples.

(** ** More of [table/filter_block.cc]: what the reader reads back *)

Module FilterBlockFacts.
Import Coding FilterBlock.

(** *** Fixed-width words read back *)

Lemma byte_to_of_Z z : byte_to_Z (byte_of_Z z) = z mod 256.
Proof.
  unfold byte_to_Z, byte_of_Z.
  pose proof (Z.mod_pos_bound z 256 ltac:(lia)) as Hb.
  destruct (Byte.of_N (Z.to_N (z mod 256))) as [b|] eqn:E.
  - apply Byte.to_of_N in E. rewrite E. lia.
  - apply Byte.of_N_None_iff in E. lia.
Qed.

Lemma testbit_low_byte v k n :
  0 ≤ k → 0 ≤ n →
  Z.testbit (Z.shiftl (Z.shiftr v k mod 256) k) n
  = Z.testbit v n && (k <=? n) && (n <? k + 8).
Proof.
  intros Hk Hn. rewrite Z.shiftl_spec by done.
  destruct (Z.leb_spec k n) as [Hle|Hlt].
  - change 256 with (2 ^ 8).
    destruct (Z.ltb_spec n (k + 8)) as [Hin|Hout].
    + rewrite Z.mod_pow2_bits_low by lia. rewrite Z.shiftr_spec by lia.
      replace (n - k + k) with n by lia. by rewrite !andb_true_r.
    + rewrite Z.mod_pow2_bits_high by lia. by rewrite andb_false_r.
  - rewrite Z.testbit_neg_r by lia. by rewrite andb_false_r.
Qed.

Lemma DecodeFixed32_EncodeFixed32 v rest :
  DecodeFixed32 (EncodeFixed32 v ++ rest) = u32 v.
Proof.
  unfold DecodeFixed32, EncodeFixed32, byte_at, u32. simpl.
  rewrite !byte_to_of_Z.
  apply Z.bits_inj'. intros n Hn.
  rewrite !Z.lor_spec.
  rewrite <- (Z.shiftl_0_r (v mod 256)), <- (Z.shiftr_0_r v) at 1.
  rewrite !testbit_low_byte by lia.
  destruct (Z.ltb_spec n 32) as [Hin|Hout].
  - rewrite Z.mod_pow2_bits_low by lia.
    destruct (Z.testbit v n); simpl; [|done].
    destruct (Z.leb_spec 0 n), (Z.ltb_spec n (0 + 8)), (Z.leb_spec 8 n), (Z.ltb_spec n (8 + 8)),
      (Z.leb_spec 16 n), (Z.ltb_spec n (16 + 8)), (Z.leb_spec 24 n), (Z.ltb_spec n (24 + 8));
      simpl; try done; lia.
  - rewrite Z.mod_pow2_bits_high by lia.
    destruct (Z.testbit v n); simpl; [|done].
    destruct (Z.ltb_spec n (0 + 8)), (Z.ltb_spec n (8 + 8)),
      (Z.ltb_spec n (16 + 8)), (Z.ltb_spec n (24 + 8));
      rewrite ?andb_false_r; simpl; try done; lia.
Qed.

Lemma foldl_PutFixed32 ws : ∀ r,
  foldl PutFixed32 r ws = r ++ concat (EncodeFixed32 <$> ws).
Proof.
  induction ws as [|w ws IH]; intros r; simpl; [by rewrite app_nil_r|].
  rewrite IH. unfold PutFixed32. by rewrite <- app_assoc.
Qed.

Lemma length_words ws : length (concat (EncodeFixed32 <$> ws)) = (4 * length ws)%nat.
Proof.
  induction ws as [|w ws IH]; [done|].
  rewrite fmap_cons. change (concat (?x :: ?l)) with (x ++ concat l).
  rewrite length_app, IH. simpl. lia.
Qed.

Lemma drop_words (j : nat) : ∀ ws,
  drop (4 * j) (concat (EncodeFixed32 <$> ws)) = concat (EncodeFixed32 <$> drop j ws).
Proof.
  induction j as [|j IH]; intros ws; [done|].
  destruct ws as [|w ws]; [done|].
  replace (4 * S j)%nat with (S (S (S (S (4 * j))))) by lia. simpl. apply IH.
Qed.

(** Word [j] of an array of fixed-width words that follows [r]. *)
Lemma word_at (r : list byte) (ws : list Z) (tail : list byte) (j : nat) w :
  ws !! j = Some w →
  DecodeFixed32 (drop (length r + 4 * j) (r ++ concat (EncodeFixed32 <$> ws) ++ tail)) = u32 w.
Proof.
  intros Hw. rewrite drop_app_add.
  rewrite drop_app_le by (rewrite length_words; apply lookup_lt_Some in Hw; lia).
  rewrite drop_words, (drop_S _ _ _ Hw). simpl.
  apply (DecodeFixed32_EncodeFixed32 w).
Qed.

(** *** The builder's containers, read as lists of keys and of filters *)

(** The offset at which each element of [ls] starts in [concat ls], counted
    from [acc]. *)
Fixpoint starts_from (acc : Z) (ls : list (list byte)) : list Z :=
  match ls with
  | [] => []
  | l :: ls' => acc :: starts_from (acc + size l) ls'
  end.

Definition starts (ls : list (list byte)) : list Z := starts_from 0 ls.

Lemma size_app (a b : list byte) : size (a ++ b) = size a + size b.
Proof. unfold size. rewrite length_app. lia. Qed.

Lemma size_nonneg (a : list byte) : 0 ≤ size a.
Proof. unfold size. lia. Qed.

Lemma length_starts_from ls : ∀ acc, length (starts_from acc ls) = length ls.
Proof. induction ls as [|l ls IH]; intros acc; simpl; [done|]. by rewrite IH. Qed.

Lemma starts_from_snoc ls l : ∀ acc,
  starts_from acc (ls ++ [l]) = starts_from acc ls ++ [acc + size (concat ls)].
Proof.
  induction ls as [|l0 ls IH]; intros acc; simpl.
  - f_equal. unfold size. simpl. lia.
  - rewrite IH, size_app. do 3 f_equal. lia.
Qed.

Lemma starts_from_lookup ls : ∀ acc (j : nat),
  (j ≤ length ls)%nat →
  (starts_from acc ls ++ [acc + size (concat ls)]) !! j
  = Some (acc + size (concat (take j ls))).
Proof.
  induction ls as [|l ls IH]; intros acc j Hj; simpl in *.
  - assert (j = 0%nat) as -> by lia. done.
  - destruct j as [|j]; simpl.
    + f_equal. unfold size. simpl. lia.
    + rewrite size_app, Z.add_assoc. rewrite IH by lia.
      f_equal. rewrite size_app. lia.
Qed.

Lemma starts_snoc ls l : starts (ls ++ [l]) = starts ls ++ [size (concat ls)].
Proof. unfold starts. by rewrite starts_from_snoc. Qed.

Lemma starts_lookup ls (j : nat) :
  (j ≤ length ls)%nat →
  (starts ls ++ [size (concat ls)]) !! j = Some (size (concat (take j ls))).
Proof. intros Hj. unfold starts. apply (starts_from_lookup ls 0 j Hj). Qed.

Lemma size_concat_take (ls : list (list byte)) (j : nat) :
  size (concat (take j ls)) ≤ size (concat ls).
Proof.
  rewrite <- (take_drop j ls) at 2. rewrite concat_app, size_app.
  pose proof (size_nonneg (concat (drop j ls))). lia.
Qed.

(** The slice between two consecutive starts is the element. *)
Lemma slice_of_element (ls : list (list byte)) (tail : list byte) (j : nat) (l : list byte) :
  ls !! j = Some l →
  slice_of (concat ls ++ tail) (size (concat (take j ls)))
           (size (concat (take (S j) ls)) - size (concat (take j ls))) = l.
Proof.
  intros Hl. unfold slice_of.
  assert (Hcat : concat ls = concat (take j ls) ++ l ++ concat (drop (S j) ls)).
  { rewrite <- (take_drop_middle ls j l Hl) at 1. by rewrite concat_app. }
  rewrite (take_S_r _ _ _ Hl), concat_app, size_app. simpl. rewrite app_nil_r.
  set (p := concat (take j ls)) in *. rewrite Hcat, <- !app_assoc.
  unfold size. rewrite Nat2Z.id, drop_app_length.
  replace (Z.to_nat _) with (length l) by lia.
  apply take_app_length.
Qed.

(** The flattened keys, cut at their starts, are the keys. *)
Lemma unflatten_flattened (ks : list Slice) :
  FilterBlockBuilder.unflatten (concat ks) (starts ks ++ [size (concat ks)]) (length ks) = ks.
Proof.
  apply list_eq. intros i. unfold FilterBlockBuilder.unflatten.
  rewrite list_lookup_fmap.
  destruct (ks !! i) as [k|] eqn:Hk.
  - pose proof (lookup_lt_Some _ _ _ Hk) as Hi.
    rewrite lookup_seq_lt by done. simpl.
    unfold Slice in *. rewrite !starts_lookup by lia. simpl. f_equal.
    rewrite <- (app_nil_r (concat ks)). by apply slice_of_element.
  - apply lookup_ge_None in Hk. by rewrite lookup_seq_ge.
Qed.







(** A caller's sequence of calls on a builder. *)
Inductive call :=
| CallStartBlock (block_offset : Z)
| CallAddKey (key : Slice).

Definition step (c : call) (b : FilterBlockBuilder.t) : option FilterBlockBuilder.t :=
  match c with
  | CallStartBlock block_offset => FilterBlockBuilder.StartBlock block_offset b
  | CallAddKey key => Some (FilterBlockBuilder.AddKey key b)
  end.

Fixpoint run (calls : list call) (b : FilterBlockBuilder.t) : option FilterBlockBuilder.t :=
  match calls with
  | [] => Some b
  | c :: calls' => b' ← step c b; run calls' b'
  end.

(** Key [k] belongs to filter [i]: it is in the group of that filter, or
    filter [i] is the next one and [k] is waiting. *)
Definition holds (gs : list (list Slice)) (ks : list Slice) (i : nat) (k : Slice) : Prop :=
  (∃ g, gs !! i = Some g ∧ k ∈ g) ∨ (i = length gs ∧ k ∈ ks).

Lemma holds_AddKey gs ks k' i k : holds gs ks i k → holds gs (ks ++ [k']) i k.
Proof.
  intros [H|[Hi Hk]]; [by left|]. right. split; [done|]. apply elem_of_app. by left.
Qed.

Lemma holds_GenerateFilter gs ks i k : holds gs ks i k → holds (gs ++ [ks]) [] i k.
Proof.
  intros [(g & Hg & Hk)|[Hi Hk]]; left.
  - exists g. split; [|done]. by apply lookup_app_l_Some.
  - exists ks. split; [|done]. subst i. by apply list_lookup_middle.
Qed.

(** The filter block [Finish] returns for the filters [fs]. *)
Definition block_of (fs : list (list byte)) : list byte :=
  concat fs
  ++ concat (EncodeFixed32 <$> (u32 <$> starts fs) ++ [u32 (size (concat fs))])
  ++ [byte_of_Z kFilterBaseLg].

(** The key groups once [Finish] has run its last [GenerateFilter]. *)
Definition final_groups (gs : list (list Slice)) (ks : list Slice) : list (list Slice) :=
  match ks with [] => gs | _ => gs ++ [ks] end.

Lemma size_block_of fs :
  size (block_of fs) = size (concat fs) + 4 * Z.of_nat (length fs) + 5.
Proof.
  unfold block_of, size. rewrite !length_app, length_words, length_app, length_fmap.
  unfold starts. rewrite length_starts_from. simpl. lia.
Qed.

Section WithPolicy.
Context (policy : Policy.FilterPolicy).

(** What the [j]-th call of [GenerateFilter] appends to [result_]: nothing
    when no key is pending, the policy's filter otherwise. *)
Definition filter_of (g : list Slice) : list byte :=
  match g with [] => [] | _ => @Policy.CreateFilter policy g end.

(** Builder [b] holds the filters of the key groups [gs], and the keys [ks]
    wait for the next filter. *)
Record represents (b : FilterBlockBuilder.t) (gs : list (list Slice)) (ks : list Slice)
  : Prop := {
  rep_policy : FilterBlockBuilder.policy_ b = policy;
  rep_result : FilterBlockBuilder.result_ b = concat (filter_of <$> gs);
  rep_offsets : FilterBlockBuilder.filter_offsets_ b = u32 <$> starts (filter_of <$> gs);
  rep_keys : FilterBlockBuilder.keys_ b = concat ks;
  rep_start : FilterBlockBuilder.start_ b = starts ks
}.

Lemma represents_new : represents (FilterBlockBuilder.new policy) [] [].
Proof. by constructor. Qed.

Lemma represents_pending b gs ks :
  represents b gs ks → FilterBlockBuilder.pending_keys b = ks.
Proof.
  intros [_ _ _ Hk Hs]. unfold FilterBlockBuilder.pending_keys.
  rewrite Hk, Hs. unfold starts. rewrite length_starts_from.
  apply unflatten_flattened.
Qed.


Lemma represents_no_start b gs ks :
  represents b gs ks → FilterBlockBuilder.start_ b = [] ↔ ks = [].
Proof.
  intros [_ _ _ _ Hs]. rewrite Hs. by destruct ks.
Qed.

Lemma represents_AddKey b gs ks k :
  represents b gs ks → represents (FilterBlockBuilder.AddKey k b) gs (ks ++ [k]).
Proof.
  intros [Hp Hr Ho Hk Hs]. constructor; simpl; try done.
  - rewrite Hk, concat_app. simpl. by rewrite app_nil_r.
  - by rewrite Hs, Hk, starts_snoc.
Qed.

Lemma represents_GenerateFilter b gs ks :
  represents b gs ks → represents (FilterBlockBuilder.GenerateFilter b) (gs ++ [ks]) [].
Proof.
  intros Hrep. pose proof (represents_pending _ _ _ Hrep) as Hpend.
  pose proof (represents_no_start _ _ _ Hrep) as Hnil.
  destruct Hrep as [Hp Hr Ho Hk Hs]. constructor.
  - by rewrite FilterBlockBuilder.GenerateFilter_policy.
  - rewrite FilterBlockBuilder.GenerateFilter_result, Hr, Hp, Hpend.
    rewrite fmap_app, concat_app. simpl. rewrite app_nil_r. f_equal.
    destruct (decide (FilterBlockBuilder.start_ b = [])) as [E|E].
    + by rewrite (proj1 Hnil E).
    + destruct ks; [by destruct E; apply Hnil|done].
  - rewrite FilterBlockBuilder.GenerateFilter_offsets, Ho, Hr.
    rewrite (fmap_app filter_of). change (filter_of <$> [ks]) with [filter_of ks].
    by rewrite starts_snoc, fmap_app.
  - destruct (decide (FilterBlockBuilder.start_ b = [])) as [E|E].
    + rewrite (FilterBlockBuilder.GenerateFilter_no_keys b E). simpl.
      by rewrite Hk, (proj1 Hnil E).
    + by rewrite FilterBlockBuilder.GenerateFilter_keys.
  - by rewrite FilterBlockBuilder.GenerateFilter_start.
Qed.

Lemma StartBlock_loop_represents fuel idx : ∀ b gs ks b',
  represents b gs ks →
  FilterBlockBuilder.StartBlock_loop fuel idx b = Some b' →
  ∃ gs' ks', represents b' gs' ks' ∧ ∀ i k, holds gs ks i k → holds gs' ks' i k.
Proof.
  induction fuel as [|fuel IH]; intros b gs ks b' Hrep; simpl;
    destruct (Z.of_nat (length (FilterBlockBuilder.filter_offsets_ b)) <? idx).
  - done.
  - intros [= <-]. by exists gs, ks.
  - intros Hloop.
    destruct (IH _ _ _ _ (represents_GenerateFilter _ _ _ Hrep) Hloop)
      as (gs' & ks' & Hrep' & Hholds).
    exists gs', ks'. split; [done|]. intros i k Hk.
    by apply Hholds, holds_GenerateFilter.
  - intros [= <-]. by exists gs, ks.
Qed.

Lemma step_represents c b gs ks b' :
  represents b gs ks → step c b = Some b' →
  ∃ gs' ks', represents b' gs' ks' ∧ ∀ i k, holds gs ks i k → holds gs' ks' i k.
Proof.
  intros Hrep. destruct c as [block_offset|key]; simpl.
  - unfold FilterBlockBuilder.StartBlock.
    destruct (_ <? _); [done|]. by apply StartBlock_loop_represents.
  - intros [= <-]. exists gs, (ks ++ [key]). split; [by apply represents_AddKey|].
    intros i k. apply holds_AddKey.
Qed.

Lemma run_represents calls : ∀ b gs ks b',
  represents b gs ks → run calls b = Some b' →
  ∃ gs' ks', represents b' gs' ks' ∧ ∀ i k, holds gs ks i k → holds gs' ks' i k.
Proof.
  induction calls as [|c calls IH]; intros b gs ks b' Hrep; simpl.
  - intros [= <-]. by exists gs, ks.
  - destruct (step c b) as [b1|] eqn:Hstep; [|done]. simpl. intros Hrun.
    destruct (step_represents _ _ _ _ _ Hrep Hstep) as (gs1 & ks1 & Hrep1 & H1).
    destruct (IH _ _ _ _ Hrep1 Hrun) as (gs' & ks' & Hrep' & H').
    exists gs', ks'. split; [done|]. intros i k Hk. by apply H', H1.
Qed.

Lemma run_reachable calls b :
  run calls (FilterBlockBuilder.new policy) = Some b → ∃ gs ks, represents b gs ks.
Proof.
  intros Hrun. destruct (run_represents _ _ _ _ _ represents_new Hrun) as (gs & ks & H & _).
  by exists gs, ks.
Qed.

(** [Finish]: one more filter when keys are pending, then the offsets, the
    offset of the offsets and the base. *)
Lemma Finish_represents b gs ks :
  represents b gs ks →
  let fs := filter_of <$> final_groups gs ks in
  (FilterBlockBuilder.Finish b).2 = block_of fs ∧
  FilterBlockBuilder.result_ (FilterBlockBuilder.Finish b).1 = block_of fs ∧
  FilterBlockBuilder.filter_offsets_ (FilterBlockBuilder.Finish b).1 = u32 <$> starts fs.
Proof.
  intros Hrep fs.
  assert (Hrep1 : represents
            (if decide (FilterBlockBuilder.start_ b = []) then b
             else FilterBlockBuilder.GenerateFilter b) (final_groups gs ks) []).
  { pose proof (represents_no_start _ _ _ Hrep) as Hnil.
    destruct (decide (FilterBlockBuilder.start_ b = [])) as [E|E].
    - rewrite (proj1 Hnil E) in *. exact Hrep.
    - destruct ks as [|k ks]; [by destruct E; apply Hnil|].
      by apply represents_GenerateFilter. }
  destruct Hrep1 as [_ Hr Ho _ _].
  unfold FilterBlockBuilder.Finish. simpl.
  rewrite foldl_PutFixed32, Hr, Ho. fold fs. unfold PutFixed32, block_of.
  assert (E : ((concat fs ++ concat (EncodeFixed32 <$> (u32 <$> starts fs)))
                ++ EncodeFixed32 (u32 (size (concat fs)))) ++ [byte_of_Z kFilterBaseLg]
              = concat fs
                ++ concat (EncodeFixed32 <$> (u32 <$> starts fs) ++ [u32 (size (concat fs))])
                ++ [byte_of_Z kFilterBaseLg]).
  { rewrite (fmap_app EncodeFixed32), concat_app.
    change (concat (EncodeFixed32 <$> [?x])) with (EncodeFixed32 x ++ []).
    by rewrite app_nil_r, <- !app_assoc. }
  by rewrite E.
Qed.


(** *** The reader on a block the builder wrote *)

Lemma block_of_words fs :
  block_of fs
  = concat fs
    ++ concat (EncodeFixed32 <$> (u32 <$> starts fs ++ [size (concat fs)]))
    ++ [byte_of_Z kFilterBaseLg].
Proof. unfold block_of. by rewrite (fmap_app u32). Qed.

Lemma reader_word fs (j : nat) :
  (j ≤ length fs)%nat →
  size (concat fs) < 2 ^ 32 →
  DecodeFixed32 (drop (Z.to_nat (size (concat fs) + Z.of_nat j * 4)) (block_of fs))
  = size (concat (take j fs)).
Proof.
  intros Hj Hfit. rewrite block_of_words.
  replace (Z.to_nat (size (concat fs) + Z.of_nat j * 4))
    with (length (concat fs) + 4 * j)%nat by (unfold size; lia).
  rewrite (word_at _ _ _ j (u32 (size (concat (take j fs))))).
  - pose proof (size_concat_take fs j). pose proof (size_nonneg (concat (take j fs))).
    unfold u32. rewrite Z.mod_mod by lia. apply Z.mod_small. lia.
  - by rewrite list_lookup_fmap, starts_lookup.
Qed.

Lemma reader_new fs :
  size (concat fs) < 2 ^ 32 →
  FilterBlockReader.new policy (block_of fs)
  = FilterBlockReader.mk policy (block_of fs) (size (concat fs))
      (Z.of_nat (length fs)) kFilterBaseLg.
Proof.
  intros Hfit. unfold FilterBlockReader.new.
  pose proof (size_nonneg (concat fs)) as Hpos.
  rewrite size_block_of.
  destruct (Z.ltb_spec (size (concat fs) + 4 * Z.of_nat (length fs) + 5) 5); [lia|].
  replace (size (concat fs) + 4 * Z.of_nat (length fs) + 5 - 5)
    with (size (concat fs) + Z.of_nat (length fs) * 4) by lia.
  rewrite (reader_word fs (length fs)) by (done || lia).
  rewrite take_ge by lia.
  destruct (Z.ltb_spec (size (concat fs) + Z.of_nat (length fs) * 4) (size (concat fs)));
    [lia|].
  f_equal.
  - replace (size (concat fs) + Z.of_nat (length fs) * 4 - size (concat fs))
      with (Z.of_nat (length fs) * 4) by lia.
    by rewrite Z.div_mul.
  - unfold byte_at. rewrite block_of_words, app_assoc.
    rewrite list_lookup_middle.
    + by rewrite byte_to_of_Z.
    + rewrite length_app, length_words, length_fmap, length_app. unfold starts.
      rewrite length_starts_from. unfold size. simpl. lia.
Qed.

Lemma reader_KeyMayMatch fs block_offset key :
  size (concat fs) < 2 ^ 32 →
  0 ≤ block_offset →
  FilterBlockReader.KeyMayMatch (FilterBlockReader.new policy (block_of fs)) block_offset key
  = match fs !! Z.to_nat (Z.shiftr block_offset kFilterBaseLg) with
    | Some f => @Policy.KeyMayMatch policy key f
    | None => true
    end.
Proof.
  intros Hfit Hoff. rewrite reader_new by done.
  unfold FilterBlockReader.KeyMayMatch,
    FilterBlockReader.filter_start, FilterBlockReader.filter_limit. simpl.
  pose proof (proj2 (Z.shiftr_nonneg block_offset kFilterBaseLg) Hoff) as Hidx.
  set (index := Z.shiftr block_offset kFilterBaseLg) in *. clearbody index.
  set (j := Z.to_nat index). assert (Hj : index = Z.of_nat j) by lia.
  clearbody j. subst index. unfold Slice in *.
  destruct (fs !! j) as [f|] eqn:Hf.
  - pose proof (lookup_lt_Some _ _ _ Hf) as Hlt.
    destruct (Z.ltb_spec (Z.of_nat j) (Z.of_nat (length fs))); [|lia].
    replace (size (concat fs) + Z.of_nat j * 4 + 4)
      with (size (concat fs) + Z.of_nat (S j) * 4) by lia.
    rewrite !reader_word by (done || lia).
    pose proof (size_concat_take fs (S j)) as Hlim.
    assert (Hstep : size (concat (take (S j) fs)) = size (concat (take j fs)) + size f).
    { rewrite (take_S_r _ _ _ Hf), concat_app, size_app. simpl. by rewrite app_nil_r. }
    pose proof (size_nonneg f).
    destruct (Z.leb_spec (size (concat (take j fs))) (size (concat (take (S j) fs)))); [|lia].
    destruct (Z.leb_spec (size (concat (take (S j) fs))) (size (concat fs))); [|lia].
    simpl. unfold block_of. by rewrite (slice_of_element fs _ j f Hf).
  - apply lookup_ge_None in Hf.
    by destruct (Z.ltb_spec (Z.of_nat j) (Z.of_nat (length fs))); [lia|].
Qed.



(** X13. The reader reads back what the builder wrote.  For the block
    [Finish] returns on a builder reached by any calls from a new one, when
    the block is shorter than 2^32 bytes: the reader keeps the block, has base
    11, one filter per recorded offset, its offset array right after the
    filters, reads each filter's start back as the builder recorded it, and
    answers [true] for every block offset past the last filter's range. *)
Theorem reader_reads_back_the_filters
  (calls : list call) (b : FilterBlockBuilder.t) :
  run calls (FilterBlockBuilder.new policy) = Some b →
  size (FilterBlockBuilder.Finish b).2 < 2 ^ 32 →
  let b' := (FilterBlockBuilder.Finish b).1 in
  let block := (FilterBlockBuilder.Finish b).2 in
  let r := FilterBlockReader.new policy block in
  FilterBlockReader.data_ r = block ∧
  FilterBlockReader.base_lg_ r = kFilterBaseLg ∧
  FilterBlockReader.num_ r = Z.of_nat (length (FilterBlockBuilder.filter_offsets_ b')) ∧
  FilterBlockReader.offset_ r = size block - 5 - 4 * FilterBlockReader.num_ r ∧
  (∀ (j : nat) o, FilterBlockBuilder.filter_offsets_ b' !! j = Some o →
                  FilterBlockReader.filter_start r (Z.of_nat j) = o) ∧
  (∀ block_offset key, kFilterBase * FilterBlockReader.num_ r ≤ block_offset →
                       FilterBlockReader.KeyMayMatch r block_offset key = true).
Proof.
  intros Hrun Hfit b' block r.
  destruct (run_reachable _ _ Hrun) as (gs & ks & Hrep).
  destruct (Finish_represents _ _ _ Hrep) as (Hblock & _ & Hoffs).
  set (fs := filter_of <$> final_groups gs ks) in *.
  fold block in Hblock, Hfit. fold b' in Hoffs. clearbody b' block.
  assert (Hfs : size (concat fs) < 2 ^ 32).
  { rewrite Hblock, size_block_of in Hfit. lia. }
  assert (Hlen : length (FilterBlockBuilder.filter_offsets_ b') = length fs).
  { rewrite Hoffs. unfold starts. by rewrite length_fmap, length_starts_from. }
  assert (Hr : r = FilterBlockReader.mk policy block (size (concat fs))
                     (Z.of_nat (length fs)) kFilterBaseLg).
  { subst r. rewrite Hblock. by apply reader_new. }
  rewrite Hr, Hlen. simpl.
  split; [done|]. split; [done|]. split; [done|].
  split; [rewrite Hblock, size_block_of; lia|]. split.
  - intros j o Ho. rewrite Hoffs, list_lookup_fmap in Ho.
    pose proof (starts_lookup fs j) as Hst.
    destruct (starts fs !! j) as [o0|] eqn:Hj; [|done]. injection Ho as <-.
    pose proof (lookup_lt_Some _ _ _ Hj) as Hlt. unfold starts in Hlt.
    rewrite length_starts_from in Hlt.
    rewrite (lookup_app_l_Some _ _ _ _ Hj) in Hst. injection (Hst ltac:(lia)) as ->.
    unfold FilterBlockReader.filter_start. simpl. rewrite Hblock.
    rewrite reader_word by (done || lia).
    pose proof (size_concat_take fs j). pose proof (size_nonneg (concat (take j fs))).
    unfold u32. symmetry. apply Z.mod_small. lia.
  - intros block_offset key Hpast. rewrite <- Hr. subst r. rewrite Hblock.
    assert (Hidx : Z.of_nat (length fs) ≤ Z.shiftr block_offset kFilterBaseLg).
    { rewrite <- FilterBlockBuilder.filter_index_shift.
      apply Z.div_le_lower_bound; [done|]. exact Hpast. }
    rewrite reader_KeyMayMatch; [|done|].
    + unfold Slice in *. by rewrite lookup_ge_None_2 by lia.
    + change kFilterBase with 2048 in Hpast. lia.
Qed.



End WithPolicy.

End FilterBlockFacts.

Module FilterBlockFactsExamples.
Import FilterBlock FilterBlockFacts FilterBlockExamples.

Definition bar : Slice := bs "bar".
Definition baz : Slice := bs "baz".

(** [StartBlock(0); AddKey("foo"); StartBlock(5000)]: one filter for
    ["foo"], one empty filter, no key pending. *)
Definition first_calls : list call := [CallStartBlock 0; CallAddKey foo; CallStartBlock 5000].

Definition after_calls (calls : list call) : FilterBlockBuilder.t :=
  default (FilterBlockBuilder.new FirstByte) (run calls (FilterBlockBuilder.new FirstByte)).

Lemma run_first_calls :
  run first_calls (FilterBlockBuilder.new FirstByte) = Some (after_calls first_calls).
Proof. reflexivity. Qed.



Lemma reader_reads_back_witness :
  let block := (FilterBlockBuilder.Finish (after_calls first_calls)).2 in
  let r := FilterBlockReader.new FirstByte block in
  FilterBlockReader.num_ r = 2 ∧
  FilterBlockReader.base_lg_ r = 11 ∧
  FilterBlockReader.offset_ r = 1 ∧
  FilterBlockReader.KeyMayMatch r 4096 foo = true.
Proof.
  destruct (reader_reads_back_the_filters FirstByte first_calls (after_calls first_calls))
    as (_ & Hbase & Hnum & Hoff & _ & Hpast).
  - exact run_first_calls.
  - vm_compute. reflexivity.
  - split; [exact Hnum|]. split; [exact Hbase|]. split; [exact Hoff|].
    apply Hpast. vm_compute. discriminate.
Defined.



(** The reader's answers on that block: filter 2 holds the first bytes of
    ["bar"] and ["baz"], filter 0 that of ["foo"], filter 1 is empty. *)
Example answers_on_three_filters :
  let b3 := after_calls (first_calls ++ [CallAddKey bar; CallAddKey baz; CallStartBlock 9000]) in
  let r := FilterBlockReader.new FirstByte (FilterBlockBuilder.Finish b3).2 in
  FilterBlockReader.num_ r = 4 ∧
  FilterBlockReader.KeyMayMatch r 0 foo = true ∧
  FilterBlockReader.KeyMayMatch r 0 bar = false ∧
  FilterBlockReader.KeyMayMatch r 2048 foo = false ∧
  FilterBlockReader.KeyMayMatch r 5000 baz = true ∧
  FilterBlockReader.KeyMayMatch r 5000 foo = false.
Proof. repeat split. Qed.

End FilterBlockFactsExamples.

(** ** More of [util/arena.{h,cc}]: what the arena hands out *)

Module ArenaFacts.
Import ArenaAlloc.

(** Address [x] lies in the [n] bytes that start at [p]. *)
Definition inside (p n x : Z) : Prop := p ≤ x < p + n.

(** What [new char[n]] promises while nothing is deleted, as the arena does
    until it is destroyed: the new array overlaps no storage in use, and
    storage in use stays in use.  [live h x]: address [x] is in use. *)
Class FreeStoreFacts (free_store : FreeStore) := {
  live : store → Z → Prop;
  new_fresh : ∀ n h x, 0 < n → inside (new_char_array n h).1 n x → ¬ live h x;
  new_live : ∀ n h x, 0 < n → inside (new_char_array n h).1 n x →
                      live (new_char_array n h).2 x;
  new_keeps : ∀ n h x, 0 < n → live h x → live (new_char_array n h).2 x
}.

Definition bytes_of (r : request) : Z :=
  match r with Plain bytes => bytes | Aligned bytes => bytes end.

Section WithFreeStore.
Variable sizeof_voidp : Z.
Context {free_store : FreeStore} {facts : FreeStoreFacts free_store}.
Hypothesis pointer_size_pow2 : ∃ k, 0 ≤ k ∧ sizeof_voidp = 2 ^ k.

(** A [size_t] argument for which [bytes + slop] does not wrap. *)
Definition well_sized (r : request) : Prop :=
  match r with
  | Plain _ => True
  | Aligned bytes => 0 ≤ bytes ∧ bytes + align sizeof_voidp ≤ 2 ^ (8 * sizeof_voidp)
  end.

(** The unused rest of the current block is storage in use that has not
    been handed out; [taken] are the addresses the arena must not hand out:
    those in use before the arena was made, and those it has handed out. *)
Record inv (a : Arena) (taken : Z → Prop) : Prop := {
  inv_rest_live : ∀ x, inside (alloc_ptr_ a) (alloc_bytes_remaining_ a) x → live (heap_ a) x;
  inv_rest_free : ∀ x, inside (alloc_ptr_ a) (alloc_bytes_remaining_ a) x → ¬ taken x;
  inv_taken_live : ∀ x, taken x → live (heap_ a) x
}.

Definition grows (a a1 : Arena) : Prop := ∀ x, live (heap_ a) x → live (heap_ a1) x.

(** One allocation of [bytes] at [p], leaving the arena [a1]. *)
Definition hands_out (a : Arena) (taken : Z → Prop) (bytes p : Z) (a1 : Arena) : Prop :=
  (∀ x, inside p bytes x → ¬ taken x ∧ live (heap_ a1) x) ∧
  inv a1 (λ x, taken x ∨ inside p bytes x) ∧
  grows a a1.

Lemma inv_new h : inv (new h) (live h).
Proof. constructor; simpl; unfold inside; intros x; (lia || done). Qed.

Lemma AllocateNewBlock_eq n a :
  AllocateNewBlock sizeof_voidp n a
  = ((new_char_array n (heap_ a)).1,
     mk (alloc_ptr_ a) (alloc_bytes_remaining_ a)
        (blocks_ a ++ [(new_char_array n (heap_ a)).1])
        (size_t sizeof_voidp (memory_usage_ a + size_t sizeof_voidp (n + sizeof_voidp)))
        (new_char_array n (heap_ a)).2).
Proof. unfold AllocateNewBlock. by destruct (new_char_array n (heap_ a)). Qed.

Lemma AllocateFallback_eq bytes a :
  AllocateFallback sizeof_voidp bytes a
  = if kBlockSize / 4 <? bytes then AllocateNewBlock sizeof_voidp bytes a
    else
      let r := AllocateNewBlock sizeof_voidp kBlockSize a in
      (r.1, mk (r.1 + bytes) (kBlockSize - bytes) (blocks_ r.2) (memory_usage_ r.2) (heap_ r.2)).
Proof.
  unfold AllocateFallback. destruct (kBlockSize / 4 <? bytes); [done|].
  by destruct (AllocateNewBlock sizeof_voidp kBlockSize a).
Qed.

Lemma AllocateFallback_hands_out bytes a taken :
  inv a taken → 0 ≤ bytes →
  hands_out a taken bytes (AllocateFallback sizeof_voidp bytes a).1
            (AllocateFallback sizeof_voidp bytes a).2.
Proof.
  intros [Hlive Hfree Htaken] Hbytes. rewrite AllocateFallback_eq.
  change (kBlockSize / 4) with 1024.
  destruct (Z.ltb_spec 1024 bytes) as [Hbig|Hsmall].
  - rewrite AllocateNewBlock_eq. simpl.
    assert (Hpos : 0 < bytes) by lia.
    pose proof (λ x, new_fresh bytes (heap_ a) x Hpos) as Hfresh.
    pose proof (λ x, new_live bytes (heap_ a) x Hpos) as Hnew.
    pose proof (λ x, new_keeps bytes (heap_ a) x Hpos) as Hkeeps.
    split; [|split].
    + intros x Hx. split; [|by apply Hnew]. intros Ht. by apply (Hfresh x Hx), Htaken.
    + constructor; simpl.
      * intros x Hx. by apply Hkeeps, Hlive.
      * intros x Hx [Ht|Hin]; [by apply (Hfree x)|]. by apply (Hfresh x Hin), Hlive.
      * intros x [Ht|Hin]; [by apply Hkeeps, Htaken|by apply Hnew].
    + intros x Hx. by apply Hkeeps.
  - rewrite AllocateNewBlock_eq. simpl.
    assert (Hpos : 0 < kBlockSize) by done.
    pose proof (λ x, new_fresh kBlockSize (heap_ a) x Hpos) as Hfresh.
    pose proof (λ x, new_live kBlockSize (heap_ a) x Hpos) as Hnew.
    pose proof (λ x, new_keeps kBlockSize (heap_ a) x Hpos) as Hkeeps.
    change kBlockSize with 4096 in *.
    set (block := (new_char_array 4096 (heap_ a)).1) in *.
    assert (Hblock : ∀ x, inside block bytes x ∨ inside (block + bytes) (4096 - bytes) x →
                          inside block 4096 x).
    { unfold inside. intros x. lia. }
    split; [|split].
    + intros x Hx. split; [|by apply Hnew, Hblock; left].
      intros Ht. apply (Hfresh x); [by apply Hblock; left|by apply Htaken].
    + constructor; simpl.
      * intros x Hx. by apply Hnew, Hblock; right.
      * intros x Hx [Ht|Hin].
        -- apply (Hfresh x); [by apply Hblock; right|by apply Htaken].
        -- unfold inside in *. lia.
      * intros x [Ht|Hin]; [by apply Hkeeps, Htaken|by apply Hnew, Hblock; left].
    + intros x Hx. by apply Hkeeps.
Qed.

(** Carving [bytes] at [slop] bytes into the rest of the current block. *)
Lemma carve_hands_out a taken (slop bytes : Z) :
  inv a taken → 0 ≤ slop → 0 ≤ bytes → slop + bytes ≤ alloc_bytes_remaining_ a →
  hands_out a taken bytes (alloc_ptr_ a + slop)
    (mk (alloc_ptr_ a + (bytes + slop)) (alloc_bytes_remaining_ a - (bytes + slop))
        (blocks_ a) (memory_usage_ a) (heap_ a)).
Proof.
  intros [Hlive Hfree Htaken] Hslop Hbytes Hfits.
  assert (Hin : ∀ x, inside (alloc_ptr_ a + slop) bytes x
                     ∨ inside (alloc_ptr_ a + (bytes + slop))
                              (alloc_bytes_remaining_ a - (bytes + slop)) x →
                     inside (alloc_ptr_ a) (alloc_bytes_remaining_ a) x).
  { unfold inside. intros x. lia. }
  split; [|split].
  - intros x Hx. split; [by apply Hfree, Hin; left|by apply Hlive, Hin; left].
  - constructor; simpl.
    + intros x Hx. by apply Hlive, Hin; right.
    + intros x Hx [Ht|Hr]; [by apply (Hfree x); [apply Hin; right|]|].
      unfold inside in *. lia.
    + intros x [Ht|Hr]; [by apply Htaken|by apply Hlive, Hin; left].
  - by intros x Hx.
Qed.

Lemma Allocate_hands_out bytes a taken p a1 :
  inv a taken → Allocate sizeof_voidp bytes a = Some (p, a1) →
  hands_out a taken bytes p a1.
Proof.
  intros Hinv. unfold Allocate.
  destruct (Z.leb_spec bytes 0) as [|Hpos]; [done|].
  destruct (Z.leb_spec bytes (alloc_bytes_remaining_ a)) as [Hfits|Hnot].
  - intros [= <- <-].
    pose proof (carve_hands_out a taken 0 bytes Hinv) as H.
    rewrite !Z.add_0_r in H. apply H; lia.
  - intros H. pose proof (AllocateFallback_hands_out bytes a taken Hinv) as Hf.
    injection H as H. rewrite H in Hf. apply Hf. lia.
Qed.

Lemma slop_bounds p :
  let current_mod := Z.land p (align sizeof_voidp - 1) in
  let slop := if current_mod =? 0 then 0 else align sizeof_voidp - current_mod in
  0 ≤ slop < align sizeof_voidp.
Proof.
  intros current_mod slop. subst slop current_mod.
  rewrite (land_align sizeof_voidp pointer_size_pow2).
  pose proof (align_pos sizeof_voidp) as Hpos.
  pose proof (Z.mod_pos_bound p (align sizeof_voidp) Hpos).
  destruct (Z.eqb_spec (p mod align sizeof_voidp) 0); lia.
Qed.

Lemma AllocateAligned_hands_out bytes a taken :
  inv a taken → well_sized (Aligned bytes) →
  hands_out a taken bytes (AllocateAligned sizeof_voidp bytes a).1
            (AllocateAligned sizeof_voidp bytes a).2.
Proof.
  intros Hinv [Hbytes Hfit]. unfold AllocateAligned.
  pose proof (slop_bounds (alloc_ptr_ a)) as Hslop. simpl in Hslop.
  set (slop := if Z.land (alloc_ptr_ a) (align sizeof_voidp - 1) =? 0 then 0
               else align sizeof_voidp - Z.land (alloc_ptr_ a) (align sizeof_voidp - 1)) in *.
  assert (Hneeded : size_t sizeof_voidp (bytes + slop) = bytes + slop).
  { unfold size_t. apply Z.mod_small. lia. }
  rewrite Hneeded.
  destruct (Z.leb_spec (bytes + slop) (alloc_bytes_remaining_ a)) as [Hfits|Hnot].
  - simpl. apply carve_hands_out; (done || lia).
  - by apply AllocateFallback_hands_out.
Qed.

(** Along a sequence of allocations: every region is fresh for what was
    taken before, in use afterwards, and apart from the regions served before
    it. *)
Lemma serve_hands_out reqs : ∀ a taken ps a',
  inv a taken → Forall well_sized reqs →
  serve sizeof_voidp reqs a = Some (ps, a') →
  length ps = length reqs ∧ grows a a' ∧
  (∀ (i : nat) r p x, reqs !! i = Some r → ps !! i = Some p → inside p (bytes_of r) x →
                      ¬ taken x ∧ live (heap_ a') x) ∧
  (∀ (i j : nat) ri rj pi pj x,
     (i < j)%nat → reqs !! i = Some ri → reqs !! j = Some rj →
     ps !! i = Some pi → ps !! j = Some pj →
     ¬ (inside pi (bytes_of ri) x ∧ inside pj (bytes_of rj) x)).
Proof.
  induction reqs as [|req reqs IH]; intros a taken ps a' Hinv Hsized Hserve.
  - injection Hserve as <- <-. split; [done|]. split; [by intros x Hx|].
    split; [intros i r p x Hr; by rewrite lookup_nil in Hr|].
    intros i j ri rj pi pj x _ Hr. by rewrite lookup_nil in Hr.
  - apply Forall_cons in Hsized as [Hreq Hsized].
    assert (∃ p a1 ps1, hands_out a taken (bytes_of req) p a1 ∧
                        serve sizeof_voidp reqs a1 = Some (ps1, a') ∧ ps = p :: ps1)
      as (p & a1 & ps1 & Hout & Hrest & ->).
    { simpl in Hserve. destruct req as [n|n].
      - destruct (Allocate sizeof_voidp n a) as [[p a1]|] eqn:Hal; [|done]. simpl in Hserve.
        destruct (serve sizeof_voidp reqs a1) as [[ps1 a2]|] eqn:Hrest; [|done].
        simpl in Hserve. injection Hserve as <- <-.
        exists p, a1, ps1. split; [|done]. by apply Allocate_hands_out.
      - pose proof (AllocateAligned_hands_out n a taken Hinv Hreq) as Hal.
        destruct (AllocateAligned sizeof_voidp n a) as [p a1]. simpl in Hal.
        destruct (serve sizeof_voidp reqs a1) as [[ps1 a2]|] eqn:Hrest; [|done].
        simpl in Hserve. injection Hserve as <- <-.
        by exists p, a1, ps1. }
    destruct Hout as (Hregion & Hinv1 & Hgrows1).
    destruct (IH _ _ _ _ Hinv1 Hsized Hrest) as (Hlen & Hgrows & Hfresh & Hapart).
    split; [simpl; by rewrite Hlen|]. split; [by intros x Hx; apply Hgrows, Hgrows1|].
    split.
    + intros [|i] r q x Hr Hq Hx; simpl in *.
      * injection Hr as <-. injection Hq as <-.
        destruct (Hregion x Hx) as [Hnot Hl]. split; [done|]. by apply Hgrows.
      * destruct (Hfresh i r q x Hr Hq Hx) as [Hnot Hl]. split; [|done].
        intros Ht. apply Hnot. by left.
    + intros [|i] [|j] ri rj pi pj x Hij Hri Hrj Hpi Hpj [Hxi Hxj]; simpl in *; [lia| |lia|].
      * injection Hri as <-. injection Hpi as <-.
        destruct (Hfresh j rj pj x Hrj Hpj Hxj) as [Hnot _]. apply Hnot. by right.
      * apply (Hapart i j ri rj pi pj x); (done || lia).
Qed.

(** X15. The arena never hands out the same byte twice.  After any
    sequence of [Allocate] and [AllocateAligned] calls on a new arena (each
    [Allocate] with [bytes > 0], each [AllocateAligned] with a size for which
    [bytes + align] does not wrap), over a free store whose arrays do not
    overlap storage in use: every request got an address; no two of the
    regions handed out share an address; and each region lies in storage that
    is in use afterwards and was not before the arena was made. *)
Theorem allocations_never_overlap
  (reqs : list request) (h : store) (ps : list Z) (a' : Arena) :
  Forall well_sized reqs →
  serve sizeof_voidp reqs (new h) = Some (ps, a') →
  length ps = length reqs ∧
  (∀ (i j : nat) ri rj pi pj x,
     i ≠ j → reqs !! i = Some ri → reqs !! j = Some rj →
     ps !! i = Some pi → ps !! j = Some pj →
     ¬ (inside pi (bytes_of ri) x ∧ inside pj (bytes_of rj) x)) ∧
  (∀ (i : nat) r p x, reqs !! i = Some r → ps !! i = Some p → inside p (bytes_of r) x →
                      live (heap_ a') x ∧ ¬ live h x).
Proof.
  intros Hsized Hserve.
  destruct (serve_hands_out reqs _ _ _ _ (inv_new h) Hsized Hserve)
    as (Hlen & _ & Hfresh & Hapart).
  split; [done|]. split.
  - intros i j ri rj pi pj x Hij Hri Hrj Hpi Hpj [Hxi Hxj].
    destruct (Nat.lt_total i j) as [Hlt|[Heq|Hgt]]; [|done|].
    + by apply (Hapart i j ri rj pi pj x).
    + by apply (Hapart j i rj ri pj pi x).
  - intros i r p x Hr Hp Hx. destruct (Hfresh i r p x Hr Hp Hx). by split.
Qed.

(** *** [MemoryUsage] *)














End WithFreeStore.

End ArenaFacts.

Module ArenaFactsExamples.
Import ArenaAlloc ArenaFacts.

(** In the example store everything below the next free unit is in use. *)
Definition below_next_unit (units : store (FreeStore := bump_store)) (x : Z) : Prop :=
  x < 16 * units.

Lemma bump_store_fresh n (h : store (FreeStore := bump_store)) x :
  0 < n → inside (new_char_array (FreeStore := bump_store) n h).1 n x → ¬ below_next_unit h x.
Proof. unfold inside, below_next_unit. simpl. lia. Qed.

Lemma bump_store_live n (h : store (FreeStore := bump_store)) x :
  0 < n → inside (new_char_array (FreeStore := bump_store) n h).1 n x →
  below_next_unit (new_char_array (FreeStore := bump_store) n h).2 x.
Proof.
  unfold inside, below_next_unit. simpl. intros Hn Hx.
  pose proof (Z.div_mod (n + 15) 16 ltac:(lia)).
  pose proof (Z.mod_pos_bound (n + 15) 16 ltac:(lia)). lia.
Qed.

Lemma bump_store_keeps n (h : store (FreeStore := bump_store)) x :
  0 < n → below_next_unit h x →
  below_next_unit (new_char_array (FreeStore := bump_store) n h).2 x.
Proof.
  unfold below_next_unit. simpl. intros Hn Hx.
  pose proof (Z.div_pos (n + 15) 16 ltac:(lia) ltac:(lia)). lia.
Qed.

Definition bump_store_facts : FreeStoreFacts bump_store :=
  @Build_FreeStoreFacts bump_store below_next_unit
    bump_store_fresh bump_store_live bump_store_keeps.

Definition three_requests : list request := [Plain 3; Aligned 10; Aligned 5000].

Definition after_requests : Arena (free_store := bump_store) :=
  default fresh (snd <$> serve 8 (free_store := bump_store) three_requests fresh).

Lemma serve_three_requests :
  serve 8 (free_store := bump_store) three_requests fresh
  = Some ([4096; 4104; 8192], after_requests).
Proof. reflexivity. Qed.

Lemma three_requests_well_sized : Forall (well_sized 8) three_requests.
Proof.
  repeat constructor; unfold align; simpl; lia.
Qed.

Lemma allocations_never_overlap_witness :
  (∀ x, ¬ (inside 4096 3 x ∧ inside 4104 10 x)) ∧
  (∀ x, inside 8192 5000 x → ¬ x < 4096).
Proof.
  destruct (allocations_never_overlap 8 (facts := bump_store_facts) eight_is_pow2
              three_requests 256 [4096; 4104; 8192] after_requests
              three_requests_well_sized serve_three_requests)
    as (_ & Hapart & Hfresh).
  split.
  - intros x. by apply (Hapart 0%nat 1%nat (Plain 3) (Aligned 10) 4096 4104 x).
  - intros x Hx. by apply (Hfresh 2%nat (Aligned 5000) 8192 x).
Defined.


(** One standard block and one block of 5000 bytes, a pointer each. *)
Example MemoryUsage_after_requests :
  blocks_ after_requests = [4096; 8192] ∧ MemoryUsage after_requests = 4096 + 8 + 5000 + 8.
Proof. split; reflexivity. Qed.

(** A size that wraps: after [Allocate(1)], [AllocateAligned(2^64 - 1)]
    needs [2^64 - 1 + 7 = 6] bytes as a [size_t] and is served from the one
    standard block, which [MemoryUsage] counts as before. *)
Example wrapping_request_shares_the_block :
  let served := serve 8 (free_store := bump_store) [Plain 1; Aligned (2 ^ 64 - 1)] fresh in
  fst <$> served = Some [4096; 4104] ∧
  (blocks_ ∘ snd) <$> served = Some [4096] ∧
  (MemoryUsage ∘ snd) <$> served = Some (4096 + 8).
Proof. vm_compute. done. Qed.

End ArenaFactsExamples.

(** ** More of [table/two_level_iterator.cc]: walking the blocks *)

Module TwoLevelFacts.
Import TwoLevel.

Lemma byte_to_Z_inj x y : byte_to_Z x = byte_to_Z y → x = y.
Proof.
  unfold byte_to_Z. intros H. apply N2Z.inj in H.
  pose proof (Byte.of_to_N x) as Hx. rewrite H, Byte.of_to_N in Hx. by injection Hx.
Qed.

(** [Slice::compare] returns 0 on equal contents only. *)
Lemma bytes_compare_eq a : ∀ b, bytes_compare a b = 0 → a = b.
Proof.
  induction a as [|x a IH]; intros [|y b]; simpl; try done.
  destruct (Z.ltb_spec (byte_to_Z x) (byte_to_Z y)) as [|Hxy]; [done|].
  destruct (Z.ltb_spec (byte_to_Z y) (byte_to_Z x)) as [|Hyx]; [done|].
  intros Heq. f_equal; [apply byte_to_Z_inj; lia|by apply IH].
Qed.

Lemma bytes_compare_refl a : bytes_compare a a = 0.
Proof. induction a as [|x a IH]; simpl; [done|]. by rewrite Z.ltb_irrefl. Qed.

(** What [SaveError] does to the saved status. *)
Definition saved (s x : Status) : Status := if ok s && negb (ok x) then x else s.

(** The first status that is not ok, or [seed] when that is not ok. *)
Definition first_error (seed : Status) (l : list Status) : Status := foldl saved seed l.

Lemma saved_twice s x : saved (saved s x) x = saved s x.
Proof. unfold saved. destruct (ok s) eqn:Hs, (ok x) eqn:Hx; simpl; by rewrite ?Hs, ?Hx. Qed.

Lemma SaveError_status_ x t : status_ (SaveError x t) = saved (status_ t) x.
Proof. unfold SaveError, saved. by destruct (ok (status_ t) && negb (ok x)). Qed.

Lemma SaveError_index_iter_ x t : index_iter_ (SaveError x t) = index_iter_ t.
Proof. unfold SaveError. by destruct (ok (status_ t) && negb (ok x)). Qed.

Lemma SaveError_data_block_handle_ x t :
  data_block_handle_ (SaveError x t) = data_block_handle_ t.
Proof. unfold SaveError. by destruct (ok (status_ t) && negb (ok x)). Qed.

Section WithBlockFunction.
Variable block_function_ : Slice → Iter.t.

(** A caller's loop [for (; it->Valid(); it->Next())] collecting
    [(key, value)], which also returns the iterator as the loop leaves it.
    [skip] bounds the rounds of each [SkipEmptyDataBlocksForward], [fuel] the
    rounds of the caller's loop. *)
Fixpoint scan_forward (skip fuel : nat) (t : TwoLevelIterator)
  : option (list (Slice * Slice) * TwoLevelIterator) :=
  if Valid t then
    match fuel with
    | O => None
    | S fuel' =>
        k ← key t;
        v ← value t;
        t' ← Next block_function_ skip t;
        '(rest, t_end) ← scan_forward skip fuel' t';
        Some ((k, v) :: rest, t_end)
    end
  else Some ([], t).

Definition full_forward_scan (skip fuel : nat) (t : TwoLevelIterator)
  : option (list (Slice * Slice) * TwoLevelIterator) :=
  t1 ← SeekToFirst block_function_ skip t;
  scan_forward skip fuel t1.

(** The entries and the status of the block each index entry designates. *)
Definition block_entries (index : list (Slice * Slice)) : list (list (Slice * Slice)) :=
  (λ e, Iter.entries (block_function_ e.2)) <$> index.

Definition block_statuses (index : list (Slice * Slice)) : list Status :=
  (λ e, Iter.status (block_function_ e.2)) <$> index.

Section Walk.
Variable idx : list (Slice * Slice).
Variable ist : Status.

(** The index iterator stands on entry [i]; the data iterator is the
    iterator over the block of that entry, at position [j], or null when the
    index iterator is past the end. *)
Record at_block (t : TwoLevelIterator) (i j : nat) : Prop := {
  ab_index : index_iter_ t = IteratorWrapper.mk (Some (Iter.mk idx i ist));
  ab_data :
    match idx !! i with
    | Some e =>
        ∃ it, data_iter_ t = IteratorWrapper.mk (Some it) ∧
              Iter.entries it = Iter.entries (block_function_ e.2) ∧
              Iter.status it = Iter.status (block_function_ e.2) ∧
              Iter.pos it = j ∧
              data_block_handle_ t = e.2
    | None => data_iter_ t = IteratorWrapper.mk None
    end
}.

(** What a forward scan has yet to visit. *)
Definition remaining_from (i j : nat) : list (Slice * Slice) :=
  match idx !! i with
  | Some e => drop j (Iter.entries (block_function_ e.2))
  | None => []
  end ++ concat (block_entries (drop (S i) idx)).

(** The status [status_] ends up with once the blocks from [i] on have been
    left behind. *)
Definition final_status (t : TwoLevelIterator) (i : nat) : Status :=
  first_error (status_ t) (block_statuses (drop i idx)).

Lemma remaining_from_next i j e :
  idx !! i = Some e → (length (Iter.entries (block_function_ e.2)) ≤ j)%nat →
  remaining_from i j = remaining_from (S i) 0.
Proof.
  intros He Hj. unfold remaining_from. rewrite He, drop_ge by done. simpl.
  destruct (idx !! S i) as [e'|] eqn:He'.
  - by rewrite (drop_S _ _ _ He').
  - apply lookup_ge_None in He'. by rewrite !drop_ge by lia.
Qed.

(** One round of the loop of [SkipEmptyDataBlocksForward]. *)
Lemma next_block t i j e :
  at_block t i j → idx !! i = Some e →
  let t1 := with_data IteratorWrapper.SeekToFirst
              (InitDataBlock block_function_ (with_index IteratorWrapper.Next t)) in
  at_block t1 (S i) 0 ∧ final_status t1 (S i) = final_status t i.
Proof.
  intros [Hindex Hdata] He. rewrite He in Hdata.
  destruct Hdata as (it & Hit & Hentries & Hstatus & Hpos & Hhandle).
  destruct t as [s ix d h]. simpl in *. subst ix d h.
  unfold final_status. rewrite (drop_S _ _ _ He). simpl.
  unfold InitDataBlock, with_index, with_data. simpl.
  unfold IteratorWrapper.Valid, IteratorWrapper.value, Iter.Valid, Iter.value. simpl.
  destruct (idx !! S i) as [e'|] eqn:He'.
  - rewrite bool_decide_eq_true_2 by (by apply lookup_lt_Some in He'). simpl.
    destruct e' as [k' h']. simpl.
    destruct (Z.eqb_spec (bytes_compare h' e.2) 0) as [Hsame|Hother].
    + apply bytes_compare_eq in Hsame. subst h'. simpl. split.
      * constructor; simpl; [done|]. rewrite He'. simpl.
        exists (Iter.SeekToFirst it). by repeat split.
      * rewrite (drop_S _ _ _ He'). simpl.
        by rewrite saved_twice.
    + unfold SetDataIterator. simpl.
      rewrite SaveError_index_iter_, SaveError_data_block_handle_, SaveError_status_. simpl.
      split.
      * constructor; simpl; [done|]. rewrite He'. simpl.
        exists (Iter.SeekToFirst (block_function_ h')). by repeat split.
      * unfold IteratorWrapper.status. simpl. by rewrite Hstatus.
  - rewrite bool_decide_eq_false_2 by (apply lookup_ge_None in He'; lia). simpl.
    unfold SetDataIterator. simpl.
    rewrite SaveError_index_iter_, SaveError_data_block_handle_, SaveError_status_. simpl.
    split.
    + constructor; simpl; [done|]. by rewrite He'.
    + unfold IteratorWrapper.status. simpl. by rewrite Hstatus.
Qed.

Lemma Skip_unfold fuel t :
  SkipEmptyDataBlocksForward block_function_ fuel t
  = if negb (bool_decide (is_Some (IteratorWrapper.iter (data_iter_ t))))
       || negb (IteratorWrapper.Valid (data_iter_ t)) then
      if negb (IteratorWrapper.Valid (index_iter_ t)) then Some (SetDataIterator None t)
      else
        match fuel with
        | O => None
        | S fuel' =>
            SkipEmptyDataBlocksForward block_function_ fuel'
              (with_data IteratorWrapper.SeekToFirst
                 (InitDataBlock block_function_ (with_index IteratorWrapper.Next t)))
        end
    else Some t.
Proof. by destruct fuel. Qed.

Lemma Skip_past_end t i j (next_round : option TwoLevelIterator) :
  at_block t i j → idx !! i = None →
  ∃ t' i' j',
    (if negb (bool_decide (is_Some (IteratorWrapper.iter (data_iter_ t))))
        || negb (IteratorWrapper.Valid (data_iter_ t)) then
       if negb (IteratorWrapper.Valid (index_iter_ t)) then Some (SetDataIterator None t)
       else next_round
     else Some t) = Some t' ∧
    at_block t' i' j' ∧
    remaining_from i' j' = remaining_from i j ∧
    final_status t' i' = final_status t i ∧
    ((∃ e, idx !! i' = Some e ∧ (j' < length (Iter.entries (block_function_ e.2)))%nat)
     ∨ (Valid t' = false ∧ remaining_from i' j' = [] ∧ (length idx ≤ i')%nat)).
Proof.
  intros Hat He. pose proof Hat as [Hindex Hdata]. rewrite He in Hdata.
  rewrite Hdata, Hindex. unfold IteratorWrapper.Valid, Iter.Valid. simpl.
  apply lookup_ge_None in He.
  rewrite bool_decide_eq_false_2 by lia. simpl.
  exists (SetDataIterator None t), i, j.
  assert (HS : SetDataIterator None t = t).
  { unfold SetDataIterator. rewrite Hdata. simpl. by destruct t; simpl in *; subst. }
  rewrite HS. split; [done|]. split; [done|]. split; [done|]. split; [done|]. right.
  split; [|split; [|done]].
  - unfold Valid, IteratorWrapper.Valid. by rewrite Hdata.
  - unfold remaining_from. rewrite (lookup_ge_None_2 _ _ He), drop_ge by lia. done.
Qed.

(** [SkipEmptyDataBlocksForward] stops on the next entry there is, or past
    the last block. *)
Lemma Skip_spec fuel : ∀ t i j,
  at_block t i j → (length idx - i ≤ fuel)%nat →
  ∃ t' i' j',
    SkipEmptyDataBlocksForward block_function_ fuel t = Some t' ∧
    at_block t' i' j' ∧
    remaining_from i' j' = remaining_from i j ∧
    final_status t' i' = final_status t i ∧
    ((∃ e, idx !! i' = Some e ∧ (j' < length (Iter.entries (block_function_ e.2)))%nat)
     ∨ (Valid t' = false ∧ remaining_from i' j' = [] ∧ (length idx ≤ i')%nat)).
Proof.
  induction fuel as [|fuel IH]; intros t i j Hat Hfuel; rewrite Skip_unfold.
  all: pose proof Hat as [Hindex Hdata].
  all: destruct (idx !! i) as [e|] eqn:He; [|by apply (Skip_past_end t i j)].
  all: destruct Hdata as (it & Hit & Hentries & Hstatus & Hpos & Hhandle).
  all: rewrite Hit, Hindex.
  all: unfold IteratorWrapper.Valid, Iter.Valid; simpl.
  all: rewrite Hentries, Hpos.
  all: destruct (decide (j < length (Iter.entries (block_function_ e.2)))%nat) as [Hin|Hout].
  all: try (rewrite (bool_decide_eq_true_2 _ Hin); simpl;
            exists t, i, j; split; [done|]; split; [done|]; split; [done|]; split; [done|];
            left; by exists e).
  all: rewrite (bool_decide_eq_false_2 _ Hout); simpl.
  all: rewrite bool_decide_eq_true_2 by (by apply lookup_lt_Some in He); simpl.
  - apply lookup_lt_Some in He. lia.
  - destruct (next_block t i j e Hat He) as [Hat1 Hfinal1].
    destruct (IH _ (S i) 0%nat Hat1) as (t' & i' & j' & Hskip & Hat' & Hrem & Hfinal & Hend);
      [lia|].
    exists t', i', j'. split; [done|]. split; [done|].
    split; [by rewrite Hrem, (remaining_from_next i j e He) by lia|].
    split; [by rewrite Hfinal|done].
Qed.

Lemma scan_forward_invalid skip fuel t :
  Valid t = false → scan_forward skip fuel t = Some ([], t).
Proof. intros H. destruct fuel; simpl; by rewrite H. Qed.

Lemma final_status_past_end t i : (length idx ≤ i)%nat → final_status t i = status_ t.
Proof. intros Hi. unfold final_status. by rewrite drop_ge. Qed.

(** The caller's loop from a valid position. *)
Lemma two_level_scan_from skip fuel : ∀ t i j e,
  at_block t i j → idx !! i = Some e →
  (j < length (Iter.entries (block_function_ e.2)))%nat →
  (length idx ≤ skip)%nat →
  (length (remaining_from i j) ≤ fuel)%nat →
  ∃ t_end i_end j_end,
    scan_forward skip fuel t = Some (remaining_from i j, t_end) ∧
    at_block t_end i_end j_end ∧ (length idx ≤ i_end)%nat ∧
    Valid t_end = false ∧ status_ t_end = final_status t i.
Proof.
  induction fuel as [|fuel IH]; intros t i j e Hat He Hj Hskip Hfuel.
  - unfold remaining_from in Hfuel. rewrite He, length_app, length_drop in Hfuel. lia.
  - pose proof Hat as [Hindex Hdata]. rewrite He in Hdata.
    destruct Hdata as (it & Hit & Hentries & Hstatus & Hpos & Hhandle).
    destruct (lookup_lt_is_Some_2 _ _ Hj) as [[k v] Hkv].
    assert (Hvalid : Valid t = true).
    { unfold Valid, IteratorWrapper.Valid, Iter.Valid. rewrite Hit. simpl.
      rewrite Hentries, Hpos. by apply bool_decide_eq_true_2. }
    assert (Hrem : remaining_from i j = (k, v) :: remaining_from i (S j)).
    { unfold remaining_from. rewrite He. by rewrite (drop_S _ _ _ Hkv). }
    assert (Hat1 : at_block (with_data IteratorWrapper.Next t) i (S j)).
    { constructor; [done|]. rewrite He. simpl. exists (Iter.Next it).
      rewrite Hit. simpl. repeat split; try done. by rewrite Hpos. }
    destruct (Skip_spec skip _ i (S j) Hat1) as (t' & i' & j' & Hsk & Hat' & Hrem' & Hfin & Hend);
      [lia|].
    cbn [scan_forward]. rewrite Hvalid. unfold key, value, Next. rewrite Hvalid.
    unfold IteratorWrapper.key, IteratorWrapper.value, Iter.key, Iter.value.
    rewrite Hit. simpl. rewrite Hentries, Hpos, Hkv. simpl. rewrite Hsk. simpl.
    rewrite Hrem, <- Hrem'.
    assert (Hfin1 : final_status (with_data IteratorWrapper.Next t) i = final_status t i)
      by done.
    destruct Hend as [(e' & He' & Hj')|(Hinvalid & Hnil & Hpast)].
    + destruct (IH t' i' j' e' Hat' He' Hj' Hskip) as (t_end & i_end & j_end & Hscan & Hrest).
      { rewrite Hrem'. rewrite Hrem in Hfuel. simpl in Hfuel. lia. }
      rewrite Hscan. simpl. exists t_end, i_end, j_end. split; [done|].
      destruct Hrest as (H1 & H2 & H3 & H4).
      split; [done|]. split; [done|]. split; [done|]. by rewrite H4, Hfin.
    + rewrite (scan_forward_invalid _ _ _ Hinvalid). simpl. rewrite Hnil.
      exists t', i', j'. split; [done|]. split; [done|]. split; [done|]. split; [done|].
      by rewrite <- Hfin1, <- Hfin, final_status_past_end.
Qed.

End Walk.

(** [SeekToFirst] on a new two-level iterator, up to the skipping of empty
    blocks: the index iterator is on its first entry, the data iterator on
    the first entry of that entry's block. *)
Lemma SeekToFirst_at_block (index_iter : Iter.t) :
  let t1 := with_data IteratorWrapper.SeekToFirst
              (InitDataBlock block_function_
                 (with_index IteratorWrapper.SeekToFirst (new index_iter))) in
  at_block (Iter.entries index_iter) (Iter.st index_iter) t1 0 0 ∧ status_ t1 = OK.
Proof.
  unfold InitDataBlock, with_index, with_data, new. simpl.
  unfold IteratorWrapper.Valid, IteratorWrapper.value, Iter.Valid, Iter.value. simpl.
  destruct (Iter.entries index_iter) as [|[k0 h0] idx] eqn:Hidx; simpl.
  all: unfold IteratorWrapper.SeekToFirst, IteratorWrapper.Set_, Iter.SeekToFirst; simpl.
  - split; [|done]. constructor; simpl; by rewrite ?Hidx.
  - split; [|done]. constructor; simpl; [by rewrite Hidx|].
    exists (Iter.SeekToFirst (block_function_ h0)). by repeat split.
Qed.

(** The whole scan, with the iterator it leaves. *)
Lemma two_level_forward_scan (index_iter : Iter.t) (skip fuel : nat) :
  (length (Iter.entries index_iter) ≤ skip)%nat →
  (length (concat (block_entries (Iter.entries index_iter))) ≤ fuel)%nat →
  ∃ t_end i_end j_end,
    full_forward_scan skip fuel (new index_iter)
    = Some (concat (block_entries (Iter.entries index_iter)), t_end) ∧
    at_block (Iter.entries index_iter) (Iter.st index_iter) t_end i_end j_end ∧
    (length (Iter.entries index_iter) ≤ i_end)%nat ∧
    Valid t_end = false ∧
    status_ t_end = first_error OK (block_statuses (Iter.entries index_iter)).
Proof.
  intros Hskip Hfuel.
  destruct (SeekToFirst_at_block index_iter) as [Hat Hstatus].
  set (idx := Iter.entries index_iter) in *. set (ist := Iter.st index_iter) in *.
  set (t1 := with_data _ _) in *.
  assert (Hall : remaining_from idx 0 0 = concat (block_entries idx)).
  { unfold remaining_from. destruct idx as [|e idx']; [done|]. simpl. by rewrite drop_0. }
  assert (Hfinal : final_status idx t1 0 = first_error OK (block_statuses idx)).
  { unfold final_status. by rewrite Hstatus, drop_0. }
  destruct (Skip_spec idx ist skip t1 0%nat 0%nat Hat)
    as (t' & i' & j' & Hsk & Hat' & Hrem & Hfin & Hend); [lia|].
  unfold full_forward_scan, SeekToFirst. fold t1. rewrite Hsk. simpl.
  rewrite <- Hall, <- Hrem, <- Hfinal, <- Hfin.
  destruct Hend as [(e' & He' & Hj')|(Hinvalid & Hnil & Hpast)].
  - destruct (two_level_scan_from idx ist skip fuel t' i' j' e' Hat' He' Hj' Hskip)
      as (t_end & i_end & j_end & Hscan & Hrest); [by rewrite Hrem, Hall|].
    by exists t_end, i_end, j_end.
  - rewrite (scan_forward_invalid _ _ _ Hinvalid), Hnil.
    exists t', i', j'. split; [done|]. split; [done|]. split; [done|]. split; [done|].
    by rewrite final_status_past_end.
Qed.

(** X17. A two-level iterator walks the blocks in index order.  On a new
    two-level iterator, [SeekToFirst] followed by [Next] while [Valid]
    terminates and visits exactly the entries of the blocks the index entries
    designate, block after block in the order of the index, empty blocks
    skipped; the iterator is not valid afterwards. *)
Theorem forward_scan_is_concatenation_of_blocks (index_iter : Iter.t) (skip fuel : nat) :
  (length (Iter.entries index_iter) ≤ skip)%nat →
  (length (concat (block_entries (Iter.entries index_iter))) ≤ fuel)%nat →
  ∃ t_end,
    full_forward_scan skip fuel (new index_iter)
    = Some (concat (block_entries (Iter.entries index_iter)), t_end) ∧
    Valid t_end = false.
Proof.
  intros Hskip Hfuel.
  destruct (two_level_forward_scan index_iter skip fuel Hskip Hfuel)
    as (t_end & _ & _ & Hscan & _ & _ & Hinvalid & _).
  by exists t_end.
Qed.

(** X18. Errors of blocks left behind are kept.  After the same scan,
    [status()] is the index iterator's status when that is not ok, and
    otherwise the status of the first block, in index order, whose iterator's
    status is not ok ([OK] when there is none): replacing the data iterator
    saves its error, and a saved error is never overwritten. *)
Theorem forward_scan_reports_first_block_error (index_iter : Iter.t) (skip fuel : nat) :
  (length (Iter.entries index_iter) ≤ skip)%nat →
  (length (concat (block_entries (Iter.entries index_iter))) ≤ fuel)%nat →
  ∃ out t_end,
    full_forward_scan skip fuel (new index_iter) = Some (out, t_end) ∧
    status t_end
    = if ok (Iter.status index_iter)
      then first_error OK (block_statuses (Iter.entries index_iter))
      else Iter.status index_iter.
Proof.
  intros Hskip Hfuel.
  destruct (two_level_forward_scan index_iter skip fuel Hskip Hfuel)
    as (t_end & i_end & j_end & Hscan & [Hindex Hdata] & Hpast & _ & Hstatus).
  exists (concat (block_entries (Iter.entries index_iter))), t_end. split; [done|].
  rewrite (lookup_ge_None_2 _ _ Hpast) in Hdata.
  unfold status. rewrite Hindex, Hdata. unfold IteratorWrapper.status, Iter.status. simpl.
  by destruct (ok (Iter.st index_iter)).
Qed.

(** *** Backwards *)

(** A caller's loop [for (; it->Valid(); it->Prev())]. *)
Fixpoint scan_backward (skip fuel : nat) (t : TwoLevelIterator)
  : option (list (Slice * Slice) * TwoLevelIterator) :=
  if Valid t then
    match fuel with
    | O => None
    | S fuel' =>
        k ← key t;
        v ← value t;
        t' ← Prev block_function_ skip t;
        '(rest, t_end) ← scan_backward skip fuel' t';
        Some ((k, v) :: rest, t_end)
    end
  else Some ([], t).

Definition full_backward_scan (skip fuel : nat) (t : TwoLevelIterator)
  : option (list (Slice * Slice) * TwoLevelIterator) :=
  t1 ← SeekToLast block_function_ skip t;
  scan_backward skip fuel t1.

Section WalkBack.
Variable idx : list (Slice * Slice).
Variable ist : Status.

(** What a backward scan has yet to visit, in the order of the table. *)
Definition before_from (i j : nat) : list (Slice * Slice) :=
  match idx !! i with
  | Some e =>
      concat (block_entries (take i idx))
      ++ (if decide (j < length (Iter.entries (block_function_ e.2)))%nat
          then take (S j) (Iter.entries (block_function_ e.2)) else [])
  | None => []
  end.

(** Where the round of [SkipEmptyDataBlocksBackward] after block [i] leaves
    the two iterators. *)
Definition block_before (i : nat) : nat * nat :=
  match i with
  | O => (length idx, 0%nat)
  | S q =>
      (q, match idx !! q with
          | Some e => (length (Iter.entries (block_function_ e.2)) - 1)%nat
          | None => 0%nat
          end)
  end.

Lemma before_from_prev i j e :
  idx !! i = Some e → (length (Iter.entries (block_function_ e.2)) ≤ j)%nat →
  before_from i j = before_from (block_before i).1 (block_before i).2.
Proof.
  intros He Hj. unfold before_from at 1. rewrite He.
  rewrite decide_False by lia. rewrite app_nil_r.
  destruct i as [|q]; simpl.
  - unfold before_from. by rewrite lookup_ge_None_2.
  - assert (Hq : (q < length idx)%nat) by (apply lookup_lt_Some in He; lia).
    destruct (lookup_lt_is_Some_2 _ _ Hq) as [e' He'].
    unfold before_from. rewrite He'.
    rewrite (take_S_r _ _ _ He'). unfold block_entries. rewrite fmap_app, concat_app.
    simpl. rewrite app_nil_r. f_equal.
    destruct (Iter.entries (block_function_ e'.2)) as [|x l] eqn:Hl; simpl; [done|].
    rewrite decide_True by lia. rewrite Nat.sub_0_r.
    by rewrite take_ge.
Qed.

(** One round of the loop of [SkipEmptyDataBlocksBackward]. *)
Lemma prev_block t i j e :
  at_block idx ist t i j → idx !! i = Some e →
  let t1 := with_data IteratorWrapper.SeekToLast
              (InitDataBlock block_function_ (with_index IteratorWrapper.Prev t)) in
  at_block idx ist t1 (block_before i).1 (block_before i).2.
Proof.
  intros [Hindex Hdata] He. rewrite He in Hdata.
  destruct Hdata as (it & Hit & Hentries & Hstatus & Hpos & Hhandle).
  destruct t as [s ix d h]. simpl in *. subst ix d h.
  unfold InitDataBlock, with_index, with_data. simpl.
  unfold IteratorWrapper.Valid, IteratorWrapper.value, IteratorWrapper.Prev,
    Iter.Valid, Iter.value, Iter.Prev. simpl.
  destruct i as [|q]; simpl.
  - rewrite bool_decide_eq_false_2 by lia. simpl.
    unfold SetDataIterator. simpl.
    rewrite SaveError_index_iter_, SaveError_data_block_handle_. simpl.
    constructor; simpl; [done|]. by rewrite lookup_ge_None_2.
  - assert (Hq : (q < length idx)%nat) by (apply lookup_lt_Some in He; lia).
    destruct (lookup_lt_is_Some_2 _ _ Hq) as [[k' h'] He'].
    rewrite bool_decide_eq_true_2 by done. simpl. rewrite He'. simpl.
    destruct (Z.eqb_spec (bytes_compare h' e.2) 0) as [Hsame|Hother].
    + apply bytes_compare_eq in Hsame. subst h'. simpl.
      constructor; simpl; [done|]. rewrite He'. simpl.
      exists (Iter.SeekToLast it). split; [done|].
      unfold Iter.SeekToLast, Iter.status in *. simpl. rewrite Hentries. by repeat split.
    + unfold SetDataIterator. simpl.
      rewrite SaveError_index_iter_, SaveError_data_block_handle_. simpl.
      constructor; simpl; [done|]. rewrite He'. simpl.
      exists (Iter.SeekToLast (block_function_ h')). by repeat split.
Qed.

Lemma SkipBack_unfold fuel t :
  SkipEmptyDataBlocksBackward block_function_ fuel t
  = if negb (bool_decide (is_Some (IteratorWrapper.iter (data_iter_ t))))
       || negb (IteratorWrapper.Valid (data_iter_ t)) then
      if negb (IteratorWrapper.Valid (index_iter_ t)) then Some (SetDataIterator None t)
      else
        match fuel with
        | O => None
        | S fuel' =>
            SkipEmptyDataBlocksBackward block_function_ fuel'
              (with_data IteratorWrapper.SeekToLast
                 (InitDataBlock block_function_ (with_index IteratorWrapper.Prev t)))
        end
    else Some t.
Proof. by destruct fuel. Qed.

Lemma SkipBack_past_end t i j (next_round : option TwoLevelIterator) :
  at_block idx ist t i j → idx !! i = None →
  ∃ t' i' j',
    (if negb (bool_decide (is_Some (IteratorWrapper.iter (data_iter_ t))))
        || negb (IteratorWrapper.Valid (data_iter_ t)) then
       if negb (IteratorWrapper.Valid (index_iter_ t)) then Some (SetDataIterator None t)
       else next_round
     else Some t) = Some t' ∧
    at_block idx ist t' i' j' ∧
    before_from i' j' = before_from i j ∧
    ((∃ e, idx !! i' = Some e ∧ (j' < length (Iter.entries (block_function_ e.2)))%nat)
     ∨ (Valid t' = false ∧ before_from i' j' = [])).
Proof.
  intros Hat He. pose proof Hat as [Hindex Hdata]. rewrite He in Hdata.
  rewrite Hdata, Hindex. unfold IteratorWrapper.Valid, Iter.Valid. simpl.
  pose proof (lookup_ge_None_1 _ _ He) as Hi.
  rewrite bool_decide_eq_false_2 by lia. simpl.
  exists (SetDataIterator None t), i, j.
  assert (HS : SetDataIterator None t = t).
  { unfold SetDataIterator. rewrite Hdata. simpl. by destruct t; simpl in *; subst. }
  rewrite HS. split; [done|]. split; [done|]. split; [done|]. right. split.
  - unfold Valid, IteratorWrapper.Valid. by rewrite Hdata.
  - unfold before_from. by rewrite He.
Qed.

Lemma SkipBack_spec fuel : ∀ t i j,
  at_block idx ist t i j → (length idx ≤ i ∨ i < fuel)%nat →
  ∃ t' i' j',
    SkipEmptyDataBlocksBackward block_function_ fuel t = Some t' ∧
    at_block idx ist t' i' j' ∧
    before_from i' j' = before_from i j ∧
    ((∃ e, idx !! i' = Some e ∧ (j' < length (Iter.entries (block_function_ e.2)))%nat)
     ∨ (Valid t' = false ∧ before_from i' j' = [])).
Proof.
  induction fuel as [|fuel IH]; intros t i j Hat Hfuel; rewrite SkipBack_unfold.
  all: pose proof Hat as [Hindex Hdata].
  all: destruct (idx !! i) as [e|] eqn:He; [|by apply (SkipBack_past_end t i j)].
  all: destruct Hdata as (it & Hit & Hentries & Hstatus & Hpos & Hhandle).
  all: rewrite Hit, Hindex.
  all: unfold IteratorWrapper.Valid, Iter.Valid; simpl.
  all: rewrite Hentries, Hpos.
  all: destruct (decide (j < length (Iter.entries (block_function_ e.2)))%nat) as [Hin|Hout].
  all: try (rewrite (bool_decide_eq_true_2 _ Hin); simpl;
            exists t, i, j; split; [done|]; split; [done|]; split; [done|];
            left; by exists e).
  all: rewrite (bool_decide_eq_false_2 _ Hout); simpl.
  all: rewrite bool_decide_eq_true_2 by (by apply lookup_lt_Some in He); simpl.
  - apply lookup_lt_Some in He. lia.
  - pose proof (prev_block t i j e Hat He) as Hat1.
    destruct (IH _ _ _ Hat1) as (t' & i' & j' & Hskip & Hat' & Hrem & Hend).
    { apply lookup_lt_Some in He. destruct i as [|q]; simpl; lia. }
    exists t', i', j'. split; [done|]. split; [done|].
    split; [by rewrite Hrem, (before_from_prev i j e He) by lia|done].
Qed.

Lemma scan_backward_invalid skip fuel t :
  Valid t = false → scan_backward skip fuel t = Some ([], t).
Proof. intros H. destruct fuel; simpl; by rewrite H. Qed.

(** The caller's backward loop from a valid position. *)
Lemma two_level_scan_back_from skip fuel : ∀ t i j e,
  at_block idx ist t i j → idx !! i = Some e →
  (j < length (Iter.entries (block_function_ e.2)))%nat →
  (length idx ≤ skip)%nat →
  (length (before_from i j) ≤ fuel)%nat →
  ∃ t_end,
    scan_backward skip fuel t = Some (reverse (before_from i j), t_end) ∧
    Valid t_end = false.
Proof.
  induction fuel as [|fuel IH]; intros t i j e Hat He Hj Hskip Hfuel.
  - unfold before_from in Hfuel. rewrite He, decide_True, length_app, length_take in Hfuel by done.
    lia.
  - pose proof Hat as [Hindex Hdata]. rewrite He in Hdata.
    destruct Hdata as (it & Hit & Hentries & Hstatus & Hpos & Hhandle).
    destruct (lookup_lt_is_Some_2 _ _ Hj) as [[k v] Hkv].
    assert (Hvalid : Valid t = true).
    { unfold Valid, IteratorWrapper.Valid, Iter.Valid. rewrite Hit. simpl.
      rewrite Hentries, Hpos. by apply bool_decide_eq_true_2. }
    set (j1 := match j with O => length (Iter.entries (block_function_ e.2)) | S q => q end).
    assert (Hrem : before_from i j = before_from i j1 ++ [(k, v)]).
    { unfold before_from. rewrite He, decide_True by done. rewrite <- app_assoc. f_equal.
      subst j1. destruct j as [|q].
      - rewrite decide_False by lia. simpl.
        destruct (Iter.entries (block_function_ e.2)) as [|x l]; [done|].
        simpl in *. rewrite take_0. by injection Hkv as ->.
      - rewrite decide_True by lia. by apply take_S_r. }
    assert (Hat1 : at_block idx ist (with_data IteratorWrapper.Prev t) i j1).
    { constructor; [done|]. rewrite He. unfold with_data. simpl. rewrite Hit.
      exists (Iter.Prev it). split; [done|].
      unfold Iter.Prev, Iter.status in *. rewrite Hpos. subst j1.
      destruct j; simpl; rewrite ?Hentries; by repeat split. }
    destruct (SkipBack_spec skip _ i j1 Hat1) as (t' & i' & j' & Hsk & Hat' & Hrem' & Hend);
      [apply lookup_lt_Some in He; lia|].
    cbn [scan_backward]. rewrite Hvalid. unfold key, value, Prev. rewrite Hvalid.
    unfold IteratorWrapper.key, IteratorWrapper.value, Iter.key, Iter.value.
    rewrite Hit. simpl. rewrite Hentries, Hpos, Hkv. simpl. rewrite Hsk. simpl.
    rewrite Hrem, reverse_app, <- Hrem'. simpl.
    destruct Hend as [(e' & He' & Hj')|(Hinvalid & Hnil)].
    + destruct (IH t' i' j' e' Hat' He' Hj' Hskip) as (t_end & Hscan & Hrest).
      { rewrite Hrem'. rewrite Hrem, length_app in Hfuel. simpl in Hfuel. lia. }
      rewrite Hscan. simpl. by exists t_end.
    + rewrite (scan_backward_invalid _ _ _ Hinvalid). simpl. rewrite Hnil.
      by exists t'.
Qed.

End WalkBack.

Lemma SeekToLast_at_block (index_iter : Iter.t) :
  let idx := Iter.entries index_iter in
  let t1 := with_data IteratorWrapper.SeekToLast
              (InitDataBlock block_function_
                 (with_index IteratorWrapper.SeekToLast (new index_iter))) in
  at_block idx (Iter.st index_iter) t1
           (block_before idx (length idx)).1 (block_before idx (length idx)).2.
Proof.
  intros idx.
  unfold InitDataBlock, with_index, with_data, new. simpl.
  unfold IteratorWrapper.Valid, IteratorWrapper.value, IteratorWrapper.SeekToLast,
    IteratorWrapper.Set_, Iter.Valid, Iter.value, Iter.SeekToLast. simpl. fold idx.
  destruct (length idx) as [|q] eqn:Hlen; simpl.
  - rewrite Hlen. constructor; simpl; [done|].
    by rewrite lookup_ge_None_2 by lia.
  - rewrite !Nat.sub_0_r.
    rewrite bool_decide_eq_true_2 by lia. simpl.
    assert (Hq : (q < length idx)%nat) by lia.
    destruct (lookup_lt_is_Some_2 _ _ Hq) as [[k h] He]. rewrite He. simpl.
    constructor; simpl; [done|]. rewrite He. simpl.
    exists (Iter.SeekToLast (block_function_ h)). by repeat split.
Qed.

(** X23. Backwards, a two-level iterator walks the blocks in reverse
    index order.  On a new two-level iterator, [SeekToLast] followed by
    [Prev] while [Valid] terminates and visits exactly the entries of the
    blocks the index entries designate, from the last entry of the last block
    to the first entry of the first, empty blocks skipped; the iterator is
    not valid afterwards. *)
Theorem backward_scan_is_reverse_concatenation_of_blocks
  (index_iter : Iter.t) (skip fuel : nat) :
  (length (Iter.entries index_iter) ≤ skip)%nat →
  (length (concat (block_entries (Iter.entries index_iter))) ≤ fuel)%nat →
  ∃ t_end,
    full_backward_scan skip fuel (new index_iter)
    = Some (reverse (concat (block_entries (Iter.entries index_iter))), t_end) ∧
    Valid t_end = false.
Proof.
  intros Hskip Hfuel.
  pose proof (SeekToLast_at_block index_iter) as Hat. simpl in Hat.
  set (idx := Iter.entries index_iter) in *. set (ist := Iter.st index_iter) in *.
  set (t1 := with_data _ _) in *.
  set (i0 := (block_before idx (length idx)).1) in *.
  set (j0 := (block_before idx (length idx)).2) in *.
  assert (Hall : before_from idx i0 j0 = concat (block_entries idx)).
  { subst i0 j0. destruct (length idx) as [|q] eqn:Hlen.
    - apply length_zero_iff_nil in Hlen. by rewrite Hlen.
    - assert (Hq : (q < length idx)%nat) by lia.
      destruct (lookup_lt_is_Some_2 _ _ Hq) as [e He].
      unfold before_from, block_before. simpl. rewrite He.
      assert (Hidx : idx = take q idx ++ [e]).
      { rewrite <- (take_drop_middle idx q e He) at 1. by rewrite (drop_ge idx (S q)) by lia. }
      transitivity (concat (block_entries (take q idx ++ [e]))); [|by rewrite <- Hidx].
      unfold block_entries. rewrite fmap_app, concat_app. simpl.
      rewrite !app_nil_r. f_equal.
      destruct (Iter.entries (block_function_ e.2)) as [|x l]; simpl; [done|].
      rewrite decide_True by lia. rewrite Nat.sub_0_r. by rewrite take_ge. }
  destruct (SkipBack_spec idx ist skip t1 i0 j0 Hat)
    as (t' & i' & j' & Hsk & Hat' & Hrem & Hend).
  { subst i0. destruct (length idx) as [|q] eqn:Hlen; simpl; lia. }
  unfold full_backward_scan, SeekToLast. fold t1. rewrite Hsk. simpl.
  rewrite <- Hall, <- Hrem.
  destruct Hend as [(e' & He' & Hj')|(Hinvalid & Hnil)].
  - apply (two_level_scan_back_from idx ist skip fuel t' i' j' e' Hat' He' Hj' Hskip).
    by rewrite Hrem, Hall.
  - rewrite (scan_backward_invalid _ _ _ Hinvalid), Hnil. by exists t'.
Qed.

(** *** [Seek] *)

Section Seeking.
Context {comparator_ : Comparator} {order_ : ComparatorOrder comparator_}.
#[local] Existing Instance MergerFacts.at_or_past_dec.

(** How a table lays out its index: every block is sorted, and the key of
    an index entry is at or past every key of its block and at or before
    every key of the blocks after it. *)
Fixpoint separated (index : list (Slice * Slice)) : Prop :=
  match index with
  | [] => True
  | e :: index' =>
      Sorted Merger.key_le (Iter.entries (block_function_ e.2)) ∧
      Forall (λ x, Compare x.1 e.1 <= 0) (Iter.entries (block_function_ e.2)) ∧
      Forall (λ x, Compare e.1 x.1 <= 0) (concat (block_entries index')) ∧
      separated index'
  end.

(** Where [Seek] leaves the two iterators before empty blocks are skipped. *)
Definition sought (target : Slice) (index : list (Slice * Slice)) : nat * nat :=
  let i := Iter.lower_bound target index in
  (i, match index !! i with
      | Some e => Iter.lower_bound target (Iter.entries (block_function_ e.2))
      | None => 0%nat
      end).

Lemma Seek_at_block (target : Slice) (index_iter : Iter.t) :
  let t1 := with_data (IteratorWrapper.Seek target)
              (InitDataBlock block_function_
                 (with_index (IteratorWrapper.Seek target) (new index_iter))) in
  at_block (Iter.entries index_iter) (Iter.st index_iter) t1
           (sought target (Iter.entries index_iter)).1
           (sought target (Iter.entries index_iter)).2
  ∧ status_ t1 = OK.
Proof.
  unfold sought, InitDataBlock, with_index, with_data, new. simpl.
  unfold IteratorWrapper.Valid, IteratorWrapper.value, Iter.Valid, Iter.value. simpl.
  set (idx := Iter.entries index_iter). set (i := Iter.lower_bound target idx).
  destruct (idx !! i) as [[k h]|] eqn:He.
  - rewrite bool_decide_eq_true_2 by (by apply lookup_lt_Some in He). simpl.
    split; [|done]. constructor; simpl; [done|]. fold idx i. rewrite He. simpl.
    exists (Iter.Seek target (block_function_ h)). by repeat split.
  - rewrite bool_decide_eq_false_2 by (apply lookup_ge_None in He; lia). simpl.
    split; [|done]. constructor; simpl; [done|]. fold idx i. by rewrite He.
Qed.

Lemma sought_remaining (target : Slice) (index : list (Slice * Slice)) :
  separated index →
  remaining_from index (sought target index).1 (sought target index).2
  = filter (MergerFacts.at_or_past target) (concat (block_entries index)).
Proof.
  unfold sought, remaining_from. simpl.
  induction index as [|[k h] index IH]; intros Hsep; [done|].
  destruct Hsep as (Hsorted & Hupper & Hlower & Hsep). simpl in *.
  rewrite filter_app.
  destruct (Z.ltb_spec (Compare k target) 0) as [Hlt|Hge]; simpl.
  - rewrite (IH Hsep). rewrite (MergerFacts.filter_none _ (Iter.entries (block_function_ h))).
    + done.
    + eapply Forall_impl; [exact Hupper|]. intros x Hx. unfold MergerFacts.at_or_past.
      pose proof (MergerFacts.Compare_le_lt_trans _ _ _ Hx Hlt). lia.
  - rewrite drop_0. f_equal.
    + apply MergerFacts.lower_bound_drop. apply Sorted_StronglySorted; [|done].
      intros a b c. apply Merger.key_le_trans.
    + symmetry. apply MergerFacts.filter_all.
      eapply Forall_impl; [exact Hlower|]. intros x Hx. unfold MergerFacts.at_or_past.
      destruct (Z.lt_ge_cases (Compare x.1 target) 0) as [Hlt|]; [|lia].
      pose proof (MergerFacts.Compare_le_lt_trans _ _ _ Hx Hlt). lia.
Qed.

(** X19. [Seek] finds the first entry at or past the target.  On a new
    two-level iterator over a table laid out as above, [Seek(target)]
    succeeds, and from there [Next] while [Valid] visits exactly the entries
    of the blocks whose key is at or past [target], in the order of the
    table; right after [Seek] the iterator is valid exactly when there is
    such an entry, and [key()] is the first one's. *)
Theorem two_level_Seek_then_forward_scan
  (index_iter : Iter.t) (target : Slice) (skip fuel : nat) :
  let index := Iter.entries index_iter in
  let past := filter (MergerFacts.at_or_past target) (concat (block_entries index)) in
  separated index →
  (length index ≤ skip)%nat →
  (length (concat (block_entries index)) ≤ fuel)%nat →
  ∃ t1 t_end,
    Seek block_function_ skip target (new index_iter) = Some t1 ∧
    scan_forward skip fuel t1 = Some (past, t_end) ∧
    key t1 = fst <$> head past.
Proof.
  intros idx past Hsep Hskip Hfuel.
  destruct (Seek_at_block target index_iter) as [Hat _].
  pose proof (sought_remaining target idx Hsep) as Hrem0. fold past in Hrem0.
  fold idx in Hat.
  destruct (Skip_spec idx (Iter.st index_iter) skip _ _ _ Hat)
    as (t' & i' & j' & Hsk & Hat' & Hrem & _ & Hend); [lia|].
  rewrite Hrem0 in Hrem.
  exists t'. unfold Seek. rewrite Hsk.
  destruct Hend as [(e' & He' & Hj')|(Hinvalid & Hnil & Hpast)].
  - destruct (two_level_scan_from idx (Iter.st index_iter) skip fuel t' i' j' e'
                Hat' He' Hj' Hskip) as (t_end & _ & _ & Hscan & _).
    { rewrite Hrem. subst past. etrans; [apply length_filter|done]. }
    exists t_end. split; [done|]. rewrite Hrem in Hscan. split; [done|].
    destruct Hat' as [_ Hdata]. rewrite He' in Hdata.
    destruct Hdata as (it & Hit & Hentries & _ & Hpos & _).
    destruct (lookup_lt_is_Some_2 _ _ Hj') as [[k v] Hkv].
    rewrite <- Hrem. unfold remaining_from. rewrite He', (drop_S _ _ _ Hkv). simpl.
    unfold key, Valid, IteratorWrapper.Valid, IteratorWrapper.key, Iter.Valid, Iter.key.
    rewrite Hit. simpl. rewrite Hentries, Hpos, Hkv.
    by rewrite bool_decide_eq_true_2.
  - exists t'. rewrite (scan_forward_invalid _ _ _ Hinvalid).
    rewrite <- Hrem, Hnil. split; [done|]. split; [done|].
    unfold key. by rewrite Hinvalid.
Qed.

End Seeking.

End WithBlockFunction.

End TwoLevelFacts.

Module TwoLevelFactsExamples.
Import TwoLevel TwoLevelFacts.

(** Three blocks: the second is empty and its iterator failed, the third
    has an entry and a corrupt tail. *)
Definition three_blocks (handle : Slice) : Iter.t :=
  if bytes_compare handle (bs "h1") =? 0 then Iter.mk [(bs "a", bs "1"); (bs "b", bs "2")] 0 OK
  else if bytes_compare handle (bs "h2") =? 0 then Iter.mk [] 0 (IOError "short read")
  else Iter.mk [(bs "c", bs "3")] 0 (Corruption "bad block").

Definition three_index : Iter.t :=
  Iter.mk [(bs "b", bs "h1"); (bs "bb", bs "h2"); (bs "c", bs "h3")] 0 OK.

Lemma forward_scan_witness :
  ∃ t_end,
    full_forward_scan three_blocks 3 3 (new three_index)
    = Some (concat (block_entries three_blocks (Iter.entries three_index)), t_end) ∧
    Valid t_end = false.
Proof.
  apply (forward_scan_is_concatenation_of_blocks three_blocks three_index 3 3).
  - simpl. lia.
  - simpl. lia.
Defined.

Lemma forward_scan_first_error_witness :
  ∃ out t_end,
    full_forward_scan three_blocks 3 3 (new three_index) = Some (out, t_end) ∧
    status t_end
    = if ok (Iter.status three_index)
      then first_error OK (block_statuses three_blocks (Iter.entries three_index))
      else Iter.status three_index.
Proof.
  apply (forward_scan_reports_first_block_error three_blocks three_index 3 3).
  - simpl. lia.
  - simpl. lia.
Defined.

Example three_blocks_scan :
  (λ r, (r.1, status r.2)) <$> full_forward_scan three_blocks 3 3 (new three_index)
  = Some ([(bs "a", bs "1"); (bs "b", bs "2"); (bs "c", bs "3")], IOError "short read").
Proof. reflexivity. Qed.

Lemma backward_scan_witness :
  ∃ t_end,
    full_backward_scan three_blocks 3 3 (new three_index)
    = Some (reverse (concat (block_entries three_blocks (Iter.entries three_index))), t_end) ∧
    Valid t_end = false.
Proof.
  apply (backward_scan_is_reverse_concatenation_of_blocks three_blocks three_index 3 3).
  - simpl. lia.
  - simpl. lia.
Defined.

Example three_blocks_scan_back :
  fst <$> full_backward_scan three_blocks 3 3 (new three_index)
  = Some [(bs "c", bs "3"); (bs "b", bs "2"); (bs "a", bs "1")].
Proof. reflexivity. Qed.

#[local] Existing Instance PlainBytewise.
#[local] Existing Instance PlainBytewise_order.
#[local] Existing Instance MergerFacts.at_or_past_dec.

Definition two_index : Iter.t := Iter.mk [(bs "b", bs "h1"); (bs "c", bs "h2")] 0 OK.

Lemma two_index_separated : separated blocks (Iter.entries two_index).
Proof.
  simpl. repeat split; repeat constructor; unfold Merger.key_le; simpl; lia.
Qed.

Lemma two_level_Seek_witness :
  ∃ t1 t_end,
    Seek blocks 2 (bs "b") (new two_index) = Some t1 ∧
    scan_forward blocks 2 3 t1
    = Some (filter (MergerFacts.at_or_past (bs "b"))
              (concat (block_entries blocks (Iter.entries two_index))), t_end) ∧
    key t1 = fst <$> head (filter (MergerFacts.at_or_past (bs "b"))
                             (concat (block_entries blocks (Iter.entries two_index)))).
Proof.
  apply (two_level_Seek_then_forward_scan blocks two_index (bs "b") 2 3).
  - exact two_index_separated.
  - simpl. lia.
  - simpl. lia.
Defined.

Example two_level_Seek_run :
  (t1 ← Seek blocks 2 (bs "b") (new two_index);
   r ← scan_forward blocks 2 3 t1;
   Some (key t1, r.1))
  = Some (Some (bs "b"), [(bs "b", bs "2"); (bs "c", bs "3")]).
Proof. reflexivity. Qed.

End TwoLevelFactsExamples.

(** ** More of [table/table_builder.cc]: the order of the keys *)

Module TableBuilderOrder.
Import TableBuilder TableBuilderFacts.

(** The keys of the [Add] calls, in the order of the calls. *)
Fixpoint added_keys (calls : list call) : list Slice :=
  match calls with
  | [] => []
  | CallAdd key _ :: calls' => key :: added_keys calls'
  | _ :: calls' => added_keys calls'
  end.

(** [b] comes after [a] under the comparator. *)
Definition after_key (cmp : Comparator) (a b : Slice) : Prop := 0 < @Compare cmp b a.

Section WithEnv.
Context {writable_file : Env.WritableFile} {port : Port}.

Lemma Add_after_last_key key value r r' :
  ok_ r = true → Add key value r = Some r' →
  last_key r' = key ∧ num_entries r' = num_entries r + 1 ∧ options r' = options r ∧
  (0 < num_entries r → after_key (comparator (options r)) (last_key r) key).
Proof.
  intros Hok Hadd.
  destruct (Add_accepts key value r r' Hok Hadd)
    as (r4 & Hn & Ho & _ & _ & _ & _ & _ & _ & _ & _ & Hk & Hrest).
  assert (Hsame : last_key r' = last_key r4 ∧ num_entries r' = num_entries r4
                  ∧ options r' = options r4).
  { destruct (block_size (options r4) <=? BlockBuilder.CurrentSizeEstimate (data_block r4)).
    - destruct (Flush_keeps r4 r' Hrest) as (H1 & _ & H2 & H3 & _). by rewrite H1, H2, H3.
    - by subst r'. }
  destruct Hsame as (-> & -> & ->). split; [done|]. split; [done|]. split; [done|].
  intros Hpos. unfold Add in Hadd. destruct (closed r); [done|]. rewrite Hok in Hadd.
  simpl in Hadd. unfold after_key.
  destruct (Z.ltb_spec 0 (num_entries r)); [|lia]. simpl in Hadd.
  by destruct (Z.ltb_spec 0 (@Compare (comparator (options r)) key (last_key r))).
Qed.

Lemma closed_run calls r r' : closed r = true → run calls r = Some r' → calls = [].
Proof.
  intros Hclosed. destruct calls as [|c calls]; [done|]. simpl.
  by rewrite (step_needs_open c r Hclosed).
Qed.

Lemma run_sorted calls : ∀ r r',
  0 ≤ num_entries r → run calls r = Some r' → ok_ r' = true →
  Sorted (after_key (comparator (options r))) (added_keys calls) ∧
  (0 < num_entries r →
   HdRel (after_key (comparator (options r))) (last_key r) (added_keys calls)).
Proof.
  induction calls as [|c calls IH]; intros r r' Hn; simpl; [by split; constructor|].
  destruct (step c r) as [r1|] eqn:Hstep; [|done]. simpl. intros Hrun Hok'.
  assert (Hok1 : ok_ r1 = true).
  { destruct (ok_ r1) eqn:E; [done|].
    pose proof (run_keeps_error calls r1 r' E Hrun). congruence. }
  assert (Hok : ok_ r = true).
  { destruct (ok_ r) eqn:E; [done|].
    pose proof (step_keeps_error c r r1 E Hstep). congruence. }
  destruct c as [key value| |]; simpl in Hstep.
  - destruct (Add_after_last_key key value r r1 Hok Hstep) as (Hk & Hn1 & Ho & Hafter).
    destruct (IH r1 r' ltac:(lia) Hrun Hok') as [Hsorted Hhd].
    rewrite Ho, Hk in *. split.
    + constructor; [done|]. apply Hhd. lia.
    + intros Hpos. constructor. by apply Hafter.
  - destruct (Flush_keeps r r1 Hstep) as (Ho & _ & Hn1 & Hk & _).
    destruct (IH r1 r' ltac:(lia) Hrun Hok') as [Hsorted Hhd].
    rewrite Ho, Hk, Hn1 in *. by split.
  - destruct (Finish_between_calls r r1 Hstep) as [Hclosed _].
    rewrite (closed_run calls r1 r' Hclosed Hrun). simpl. by split; constructor.
Qed.

(** X20. A table takes its keys in strictly increasing order.  If a run of
    [Add], [Flush] and [Finish] calls on a new builder goes through and
    leaves the status ok, then each key added comes after the key added
    before it under the comparator of the options: [Add] asserts this against
    [last_key], which holds the previous key whenever [Add] is entered. *)
Theorem added_keys_are_increasing
  (opt : Options) (f : Env.file_state) (calls : list call) (r0 r : Rep) :
  new opt f = Some r0 →
  run calls r0 = Some r →
  ok (status r) = true →
  Sorted (after_key (comparator opt)) (added_keys calls).
Proof.
  intros Hnew Hrun Hok.
  destruct (new_fields opt f r0 Hnew) as (Ho & _ & _ & _ & Hn0 & _).
  destruct (run_sorted calls r0 r ltac:(lia) Hrun Hok) as [Hsorted _].
  by rewrite Ho in Hsorted.
Qed.

End WithEnv.

End TableBuilderOrder.

Module TableBuilderOrderExamples.
Import MemEnv TableBuilder TableBuilderFacts TableBuilderExamples TableBuilderOrder.

Lemma added_keys_are_increasing_witness :
  Sorted (after_key (comparator small_blocks)) (added_keys (add_letters ++ [CallFinish])).
Proof.
  destruct (build_after (add_letters ++ [CallFinish]) all_letters) as (r0 & Hnew & Hrun);
    [vm_compute; reflexivity|].
  exact (added_keys_are_increasing (writable_file := mem_file) (port := no_snappy)
           small_blocks empty_file (add_letters ++ [CallFinish]) r0 all_letters
           Hnew Hrun eq_refl).
Defined.

(** Out of order, the second [Add] fails its assertion. *)
Example Add_out_of_order :
  build no_snappy small_blocks [CallAdd (bs "b") (bs "1"); CallAdd (bs "a") (bs "2")] = None.
Proof. reflexivity. Qed.

End TableBuilderOrderExamples.

(** ** [NewMergingIterator] ([table/merger.cc]) *)

Module MergerFactory.
Import Merger.

Section Order.
Context {comparator_ : Comparator} {order_ : ComparatorOrder comparator_}.

(** X21. What [NewMergingIterator] hands out.  For no child it is an
    iterator that visits nothing; for one child it is that child, so a scan
    visits the child's entries in the child's own order, whatever the
    comparator makes of them; and whatever the number of children, if each is
    sorted by key the scan visits a rearrangement of all their entries in
    ascending key order. *)
Theorem NewMergingIterator_scan (children : list Iter.t) (fuel : nat) :
  (length (concat (Iter.entries <$> children)) ≤ fuel)%nat →
  (children = [] → merged_forward_scan fuel (NewMergingIterator children) = Some []) ∧
  (∀ child, children = [child] →
            merged_forward_scan fuel (NewMergingIterator children) = Some (Iter.entries child)) ∧
  (Forall (λ c, Sorted key_le (Iter.entries c)) children →
   ∃ out, merged_forward_scan fuel (NewMergingIterator children) = Some out ∧
          out ≡ₚ concat (Iter.entries <$> children) ∧ Sorted key_le out).
Proof.
  intros Hfuel. split; [|split].
  - intros ->. simpl. by destruct fuel.
  - intros child ->. simpl in *. rewrite app_nil_r in Hfuel.
    by apply (Iter_scan_forward_remaining fuel (Iter.SeekToFirst child)).
  - intros Hsorted. by apply NewMergingIterator_forward_scan.
Qed.

End Order.

End MergerFactory.

Module MergerFactoryExamples.
Import Merger MergerExamples MergerFactory.
#[local] Existing Instance PlainBytewise.
#[local] Existing Instance PlainBytewise_order.

(** A child that is not sorted: handed out alone, it is scanned as it is. *)
Definition child_unsorted : Iter.t := Iter.mk [(bs "z", bs "1"); (bs "a", bs "2")] 1 OK.

Lemma NewMergingIterator_scan_witness :
  merged_forward_scan 2 (NewMergingIterator [child_unsorted])
  = Some [(bs "z", bs "1"); (bs "a", bs "2")].
Proof.
  destruct (NewMergingIterator_scan [child_unsorted] 2) as (_ & Hone & _).
  - simpl. lia.
  - by apply (Hone child_unsorted).
Defined.

End MergerFactoryExamples.

(** ** [table/table_builder.cc] with [table/filter_block.cc]: the filter of
    a table *)

Module TableFilter.
Import TableBuilder TableBuilderFacts.

Section WithEnv.
Context {writable_file : Env.WritableFile} {port : Port}.










Section WithPolicy.
Variable policy : Policy.FilterPolicy.









End WithPolicy.

End WithEnv.

End TableFilter.

Module TableFilterExamples.
Import MemEnv TableBuilder TableFilter.







End TableFilterExamples.
